(** * Playback orchestrator of re-ayakapj: a shallow embedding

    Source: [src/utils/music/models.py] (class [LavalinkPlayer], functions
    [get_start_pos], [position], [track_end], [get_autoqueue_tracks],
    [resolve_track], [process_next], [_wait_for_new_node] and [hook]).

    Conventions of the embedding.
    - Times are integers in milliseconds ([time() * 1000] and
      [utcnow().timestamp() * 1000] in the source).
    - A [deque] is a list, leftmost element first; a bounded deque drops
      from the opposite end when an insertion overflows it.
    - The player is an explicit state ([Player]); every coroutine is a
      function in the monad [M] (state, exceptions, a log of effects).
      A coroutine runs to completion: interleaving with other tasks at an
      [await] is outside the model.
    - Whatever the source obtains from outside (the rendering node, the
      chat platform, the recommendation service, the clock) is read from
      an environment [Env], indexed by the number of interactions made so
      far, so that two successive calls may answer differently.
    - [wavelink.Player], the base class, is not part of the sources: its
      methods are environment calls that may change the inherited
      attributes ([Base]) in any way and nothing else. *)

From Stdlib Require Import ZArith List String Ascii Bool Lia Sorted.
Import ListNotations.
Open Scope string_scope.
Open Scope list_scope.
Open Scope Z_scope.

Set Implicit Arguments.

(** ** Python helpers *)

(** [needle in hay] on strings. *)
Fixpoint contains (needle hay : string) : bool :=
  String.prefix needle hay ||
  match hay with
  | EmptyString => false
  | String _ rest => contains needle rest
  end.

(** [s.lower()], on the ASCII letters. *)
Definition lower_ascii (c : ascii) : ascii :=
  let n := nat_of_ascii c in
  if (Nat.leb 65 n && Nat.leb n 90)%bool then ascii_of_nat (n + 32) else c.

Fixpoint lower (s : string) : string :=
  match s with
  | EmptyString => EmptyString
  | String c rest => String (lower_ascii c) (lower rest)
  end.

(** [s.startswith((p1, p2, ...))]. *)
Definition startswith (s : string) (prefixes : list string) : bool :=
  existsb (fun p => String.prefix p s) prefixes.

(** Truth value of a string and of a list. *)
Definition truthy (s : string) : bool :=
  match s with EmptyString => false | _ => true end.

Definition nonempty {A} (l : list A) : bool :=
  match l with [] => false | _ => true end.

(** [deque(maxlen=n).append(x)]: the leftmost entries leave when full. *)
Definition ring_append {A} (n : nat) (l : list A) (x : A) : list A :=
  let l' := l ++ [x] in skipn (List.length l' - n) l'.

(** [deque(maxlen=n).extend(xs)]: one [append] per element. *)
Definition ring_extend {A} (n : nat) (l xs : list A) : list A :=
  fold_left (ring_append n) xs l.

(** [deque.insert(i, x)] on an unbounded deque: past the end it appends. *)
Definition deque_insert {A} (i : nat) (x : A) (l : list A) : list A :=
  firstn i l ++ x :: skipn i l.

(** ** Data model *)

Record Track : Type := mkTrack {
  unique_id : Z;  (* identity of the Python object (uuid4 prefix) *)
  is_partial : bool;  (* isinstance(track, PartialTrack) *)
  id_ : string;  (* playable handle; empty until resolved *)
  info_title : string;  (* info[title] *)
  author : string;  (* info[author] *)
  authors : option (list string);  (* info[extra][authors], when present *)
  uri : string;  (* info[uri] *)
  ytid : string;  (* YouTube video id, empty when none *)
  sourceName : string;  (* info[sourceName] *)
  sourceNameOrig : option string;  (* info.get(sourceNameOrig) *)
  is_stream : bool;  (* info[isStream] *)
  duration : Z;  (* info[length], milliseconds *)
  track_loops : Z;  (* info[extra][track_loops] *)
  autoplay : bool;  (* info[extra][autoplay] *)
  temp_id : option string;  (* info.get(temp_id) *)
  original_id : string;  (* info[extra][original_id] *)
  search_uri : option string;  (* info[search_uri], when present *)
  isrc : option string;  (* info.get(isrc) *)
  related : option (string * string)  (* info[extra][related]: title and uri of the seed *)
}.

Definition set_unique_id (v : Z) (x : Track) : Track :=
  {| unique_id := v; is_partial := is_partial x; id_ := id_ x;
     info_title := info_title x; author := author x; authors := authors x;
     uri := uri x; ytid := ytid x; sourceName := sourceName x;
     sourceNameOrig := sourceNameOrig x; is_stream := is_stream x;
     duration := duration x; track_loops := track_loops x;
     autoplay := autoplay x; temp_id := temp_id x;
     original_id := original_id x; search_uri := search_uri x;
     isrc := isrc x; related := related x |}.

Definition set_id_ (v : string) (x : Track) : Track :=
  {| unique_id := unique_id x; is_partial := is_partial x; id_ := v;
     info_title := info_title x; author := author x; authors := authors x;
     uri := uri x; ytid := ytid x; sourceName := sourceName x;
     sourceNameOrig := sourceNameOrig x; is_stream := is_stream x;
     duration := duration x; track_loops := track_loops x;
     autoplay := autoplay x; temp_id := temp_id x;
     original_id := original_id x; search_uri := search_uri x;
     isrc := isrc x; related := related x |}.

Definition set_duration (v : Z) (x : Track) : Track :=
  {| unique_id := unique_id x; is_partial := is_partial x; id_ := id_ x;
     info_title := info_title x; author := author x; authors := authors x;
     uri := uri x; ytid := ytid x; sourceName := sourceName x;
     sourceNameOrig := sourceNameOrig x; is_stream := is_stream x;
     duration := v; track_loops := track_loops x; autoplay := autoplay x;
     temp_id := temp_id x; original_id := original_id x;
     search_uri := search_uri x; isrc := isrc x; related := related x |}.

Definition set_track_loops (v : Z) (x : Track) : Track :=
  {| unique_id := unique_id x; is_partial := is_partial x; id_ := id_ x;
     info_title := info_title x; author := author x; authors := authors x;
     uri := uri x; ytid := ytid x; sourceName := sourceName x;
     sourceNameOrig := sourceNameOrig x; is_stream := is_stream x;
     duration := duration x; track_loops := v; autoplay := autoplay x;
     temp_id := temp_id x; original_id := original_id x;
     search_uri := search_uri x; isrc := isrc x; related := related x |}.

Definition set_temp_id (v : option string) (x : Track) : Track :=
  {| unique_id := unique_id x; is_partial := is_partial x; id_ := id_ x;
     info_title := info_title x; author := author x; authors := authors x;
     uri := uri x; ytid := ytid x; sourceName := sourceName x;
     sourceNameOrig := sourceNameOrig x; is_stream := is_stream x;
     duration := duration x; track_loops := track_loops x;
     autoplay := autoplay x; temp_id := v; original_id := original_id x;
     search_uri := search_uri x; isrc := isrc x; related := related x |}.

Definition set_related (v : option (string * string)) (x : Track) : Track :=
  {| unique_id := unique_id x; is_partial := is_partial x; id_ := id_ x;
     info_title := info_title x; author := author x; authors := authors x;
     uri := uri x; ytid := ytid x; sourceName := sourceName x;
     sourceNameOrig := sourceNameOrig x; is_stream := is_stream x;
     duration := duration x; track_loops := track_loops x;
     autoplay := autoplay x; temp_id := temp_id x;
     original_id := original_id x; search_uri := search_uri x;
     isrc := isrc x; related := v |}.

(** [title]: a [PartialTrack] builds it from author and title. *)
Definition title (t : Track) : string :=
  if is_partial t then (author t ++ " - " ++ info_title t)%string
  else info_title t.

Definition single_title (t : Track) : string := info_title t.

Definition authors_string (t : Track) : string :=
  if is_partial t then
    match authors t with
    | Some l => String.concat ", " l
    | None => author t
    end
  else author t.

Record Node : Type := mkNode {
  identifier : string;
  is_available : bool;
  available : bool;
  retry_403 : bool;
  closing : bool;  (* node._closing *)
  search_providers : list string;
  stats_players : Z  (* node.stats.players *)
}.

(** [self.loop]: [False], ["current"] or ["queue"]. *)
Inductive LoopMode : Type := LoopOff | LoopCurrent | LoopQueue.

(** [self.retries_403 = {"last_time": ..., "counter": ...}]. *)
Record Retries403 : Type := mkRetries403 {
  r403_last_time : option Z;
  r403_counter : Z
}.

(** [self.retries_general_errors]. *)
Record RetriesGeneral : Type := mkRetriesGeneral {
  rg_counter : Z;
  rg_last_node : string;
  rg_last_time : Z
}.

(** Exceptions, as far as the source tells them apart. *)
Inductive ExcKind : Type :=
  TrackNotFound | TrackLoadError | AttributeError | KeyError | OtherError.

Record Exc : Type := mkExc { exc_kind : ExcKind; exc_msg : string }.

(** Methods inherited from [wavelink.Player]. *)
Inductive WlCall : Type :=
| WlPlay (t : Track) (start : Z) (temp : option string)
| WlStop
| WlConnect (channel : Z)
| WlChangeNode (ident : string)
| WlDestroy (force : bool)
| WlSetPause (pause : bool).

(** Messages sent to the text channel. *)
Inductive Notice : Type :=
| NResolveError      (* process_next, resolve_track raised *)
| NUnavailable       (* process_next, the track has no handle *)
| NLookupError       (* process_next, get_tracks raised *)
| NAutoplayError     (* get_autoqueue_tracks found nothing *)
| NTrackError.       (* hook, the embed of a track exception *)

(** Calls into the chat platform and the display layer. *)
Inductive IoCall : Type :=
| IoInvokeNp (rpc_update : bool)     (* other arguments are display options *)
| IoReport (t : Track)
| IoSendTrackError (t : Track)
| IoSend (m : Notice)
| IoUpdateStageTopic
| IoSaveQueue
| IoDispatch (name : string)
| IoLogWarning.

(** Tasks handed to the event loop with [create_task]. *)
Inductive Task : Type :=
| TaskWaitNode (ignore_node : option string)
| TaskIdling
| TaskAutoSkip.

Inductive TaskKind : Type := KNewNode | KIdle | KMessageUpdater | KAutoSkip.

(** What a coroutine does to the outside, plus the writes to [locked]. *)
Inductive Effect : Type :=
| ESetLocked (b : bool)
| EWl (c : WlCall)
| EIo (c : IoCall)
| ESpawn (t : Task)
| ECancel (k : TaskKind)
| ESleep (ms : Z)
| EGetTracks (query : string)
| ESpotify (seeds : list string)
| ELog
| EMigratePeers.

Record Base : Type := mkBase {
  node : option Node;  (* bound rendering node *)
  current : option Track;
  paused : bool;
  last_position : Z;  (* milliseconds *)
  last_update : Z;  (* milliseconds *)
  position_timestamp : Z;
  channel_id : option Z  (* voice channel the player is connected to *)
}.

Definition b_set_node (v : option Node) (x : Base) : Base :=
  {| node := v; current := current x; paused := paused x;
     last_position := last_position x; last_update := last_update x;
     position_timestamp := position_timestamp x; channel_id := channel_id x |}.

Definition b_set_current (v : option Track) (x : Base) : Base :=
  {| node := node x; current := v; paused := paused x;
     last_position := last_position x; last_update := last_update x;
     position_timestamp := position_timestamp x; channel_id := channel_id x |}.

Definition b_set_paused (v : bool) (x : Base) : Base :=
  {| node := node x; current := current x; paused := v;
     last_position := last_position x; last_update := last_update x;
     position_timestamp := position_timestamp x; channel_id := channel_id x |}.

Definition b_set_last_position (v : Z) (x : Base) : Base :=
  {| node := node x; current := current x; paused := paused x;
     last_position := v; last_update := last_update x;
     position_timestamp := position_timestamp x; channel_id := channel_id x |}.

Definition b_set_last_update (v : Z) (x : Base) : Base :=
  {| node := node x; current := current x; paused := paused x;
     last_position := last_position x; last_update := v;
     position_timestamp := position_timestamp x; channel_id := channel_id x |}.

Definition b_set_position_timestamp (v : Z) (x : Base) : Base :=
  {| node := node x; current := current x; paused := paused x;
     last_position := last_position x; last_update := last_update x;
     position_timestamp := v; channel_id := channel_id x |}.


Record Player : Type := mkPlayer {
  base : Base;  (* attributes inherited from wavelink.Player *)
  queue : list Track;  (* deque() *)
  played : list Track;  (* deque(maxlen=20), oldest first *)
  queue_autoplay : list Track;  (* deque(maxlen=30) *)
  failed_tracks : list Track;  (* deque(maxlen=30) *)
  autoplay_on : bool;  (* self.autoplay *)
  keep_connected : bool;
  loop : LoopMode;
  last_track : option Track;
  locked : bool;
  is_previows_music : bool;
  is_closing : bool;
  auto_pause : bool;
  native_yt : bool;
  controller_mode : bool;  (* set by the skin *)
  retries_403 : option Retries403;  (* absent until the first 403 (hasattr) *)
  retries_general_errors : option RetriesGeneral;  (* absent until the first error (hasattr) *)
  last_channel : option Z;  (* id of the last voice channel *)
  text_channel : bool;  (* self.text_channel is not None *)
  idle_task : bool;  (* an idle task is referenced *)
  new_node_task : bool;  (* a node-wait task is referenced *)
  votes : list Z;
  start_time : Z;
  idle_endtime : option Z;
  tick : nat;  (* number of interactions with the outside so far *)
  trace : list Effect  (* effects performed, newest first *)
}.

Definition set_base (v : Base) (x : Player) : Player :=
  {| base := v; queue := queue x; played := played x;
     queue_autoplay := queue_autoplay x; failed_tracks := failed_tracks x;
     autoplay_on := autoplay_on x; keep_connected := keep_connected x;
     loop := loop x; last_track := last_track x; locked := locked x;
     is_previows_music := is_previows_music x; is_closing := is_closing x;
     auto_pause := auto_pause x; native_yt := native_yt x;
     controller_mode := controller_mode x; retries_403 := retries_403 x;
     retries_general_errors := retries_general_errors x;
     last_channel := last_channel x; text_channel := text_channel x;
     idle_task := idle_task x; new_node_task := new_node_task x;
     votes := votes x; start_time := start_time x;
     idle_endtime := idle_endtime x; tick := tick x; trace := trace x |}.

Definition set_queue (v : list Track) (x : Player) : Player :=
  {| base := base x; queue := v; played := played x;
     queue_autoplay := queue_autoplay x; failed_tracks := failed_tracks x;
     autoplay_on := autoplay_on x; keep_connected := keep_connected x;
     loop := loop x; last_track := last_track x; locked := locked x;
     is_previows_music := is_previows_music x; is_closing := is_closing x;
     auto_pause := auto_pause x; native_yt := native_yt x;
     controller_mode := controller_mode x; retries_403 := retries_403 x;
     retries_general_errors := retries_general_errors x;
     last_channel := last_channel x; text_channel := text_channel x;
     idle_task := idle_task x; new_node_task := new_node_task x;
     votes := votes x; start_time := start_time x;
     idle_endtime := idle_endtime x; tick := tick x; trace := trace x |}.

Definition set_played (v : list Track) (x : Player) : Player :=
  {| base := base x; queue := queue x; played := v;
     queue_autoplay := queue_autoplay x; failed_tracks := failed_tracks x;
     autoplay_on := autoplay_on x; keep_connected := keep_connected x;
     loop := loop x; last_track := last_track x; locked := locked x;
     is_previows_music := is_previows_music x; is_closing := is_closing x;
     auto_pause := auto_pause x; native_yt := native_yt x;
     controller_mode := controller_mode x; retries_403 := retries_403 x;
     retries_general_errors := retries_general_errors x;
     last_channel := last_channel x; text_channel := text_channel x;
     idle_task := idle_task x; new_node_task := new_node_task x;
     votes := votes x; start_time := start_time x;
     idle_endtime := idle_endtime x; tick := tick x; trace := trace x |}.

Definition set_queue_autoplay (v : list Track) (x : Player) : Player :=
  {| base := base x; queue := queue x; played := played x;
     queue_autoplay := v; failed_tracks := failed_tracks x;
     autoplay_on := autoplay_on x; keep_connected := keep_connected x;
     loop := loop x; last_track := last_track x; locked := locked x;
     is_previows_music := is_previows_music x; is_closing := is_closing x;
     auto_pause := auto_pause x; native_yt := native_yt x;
     controller_mode := controller_mode x; retries_403 := retries_403 x;
     retries_general_errors := retries_general_errors x;
     last_channel := last_channel x; text_channel := text_channel x;
     idle_task := idle_task x; new_node_task := new_node_task x;
     votes := votes x; start_time := start_time x;
     idle_endtime := idle_endtime x; tick := tick x; trace := trace x |}.

Definition set_failed_tracks (v : list Track) (x : Player) : Player :=
  {| base := base x; queue := queue x; played := played x;
     queue_autoplay := queue_autoplay x; failed_tracks := v;
     autoplay_on := autoplay_on x; keep_connected := keep_connected x;
     loop := loop x; last_track := last_track x; locked := locked x;
     is_previows_music := is_previows_music x; is_closing := is_closing x;
     auto_pause := auto_pause x; native_yt := native_yt x;
     controller_mode := controller_mode x; retries_403 := retries_403 x;
     retries_general_errors := retries_general_errors x;
     last_channel := last_channel x; text_channel := text_channel x;
     idle_task := idle_task x; new_node_task := new_node_task x;
     votes := votes x; start_time := start_time x;
     idle_endtime := idle_endtime x; tick := tick x; trace := trace x |}.

Definition set_last_track (v : option Track) (x : Player) : Player :=
  {| base := base x; queue := queue x; played := played x;
     queue_autoplay := queue_autoplay x; failed_tracks := failed_tracks x;
     autoplay_on := autoplay_on x; keep_connected := keep_connected x;
     loop := loop x; last_track := v; locked := locked x;
     is_previows_music := is_previows_music x; is_closing := is_closing x;
     auto_pause := auto_pause x; native_yt := native_yt x;
     controller_mode := controller_mode x; retries_403 := retries_403 x;
     retries_general_errors := retries_general_errors x;
     last_channel := last_channel x; text_channel := text_channel x;
     idle_task := idle_task x; new_node_task := new_node_task x;
     votes := votes x; start_time := start_time x;
     idle_endtime := idle_endtime x; tick := tick x; trace := trace x |}.

Definition set_locked (v : bool) (x : Player) : Player :=
  {| base := base x; queue := queue x; played := played x;
     queue_autoplay := queue_autoplay x; failed_tracks := failed_tracks x;
     autoplay_on := autoplay_on x; keep_connected := keep_connected x;
     loop := loop x; last_track := last_track x; locked := v;
     is_previows_music := is_previows_music x; is_closing := is_closing x;
     auto_pause := auto_pause x; native_yt := native_yt x;
     controller_mode := controller_mode x; retries_403 := retries_403 x;
     retries_general_errors := retries_general_errors x;
     last_channel := last_channel x; text_channel := text_channel x;
     idle_task := idle_task x; new_node_task := new_node_task x;
     votes := votes x; start_time := start_time x;
     idle_endtime := idle_endtime x; tick := tick x; trace := trace x |}.

Definition set_is_previows_music (v : bool) (x : Player) : Player :=
  {| base := base x; queue := queue x; played := played x;
     queue_autoplay := queue_autoplay x; failed_tracks := failed_tracks x;
     autoplay_on := autoplay_on x; keep_connected := keep_connected x;
     loop := loop x; last_track := last_track x; locked := locked x;
     is_previows_music := v; is_closing := is_closing x;
     auto_pause := auto_pause x; native_yt := native_yt x;
     controller_mode := controller_mode x; retries_403 := retries_403 x;
     retries_general_errors := retries_general_errors x;
     last_channel := last_channel x; text_channel := text_channel x;
     idle_task := idle_task x; new_node_task := new_node_task x;
     votes := votes x; start_time := start_time x;
     idle_endtime := idle_endtime x; tick := tick x; trace := trace x |}.

Definition set_auto_pause (v : bool) (x : Player) : Player :=
  {| base := base x; queue := queue x; played := played x;
     queue_autoplay := queue_autoplay x; failed_tracks := failed_tracks x;
     autoplay_on := autoplay_on x; keep_connected := keep_connected x;
     loop := loop x; last_track := last_track x; locked := locked x;
     is_previows_music := is_previows_music x; is_closing := is_closing x;
     auto_pause := v; native_yt := native_yt x;
     controller_mode := controller_mode x; retries_403 := retries_403 x;
     retries_general_errors := retries_general_errors x;
     last_channel := last_channel x; text_channel := text_channel x;
     idle_task := idle_task x; new_node_task := new_node_task x;
     votes := votes x; start_time := start_time x;
     idle_endtime := idle_endtime x; tick := tick x; trace := trace x |}.

Definition set_native_yt (v : bool) (x : Player) : Player :=
  {| base := base x; queue := queue x; played := played x;
     queue_autoplay := queue_autoplay x; failed_tracks := failed_tracks x;
     autoplay_on := autoplay_on x; keep_connected := keep_connected x;
     loop := loop x; last_track := last_track x; locked := locked x;
     is_previows_music := is_previows_music x; is_closing := is_closing x;
     auto_pause := auto_pause x; native_yt := v;
     controller_mode := controller_mode x; retries_403 := retries_403 x;
     retries_general_errors := retries_general_errors x;
     last_channel := last_channel x; text_channel := text_channel x;
     idle_task := idle_task x; new_node_task := new_node_task x;
     votes := votes x; start_time := start_time x;
     idle_endtime := idle_endtime x; tick := tick x; trace := trace x |}.

Definition set_retries_403 (v : option Retries403) (x : Player) : Player :=
  {| base := base x; queue := queue x; played := played x;
     queue_autoplay := queue_autoplay x; failed_tracks := failed_tracks x;
     autoplay_on := autoplay_on x; keep_connected := keep_connected x;
     loop := loop x; last_track := last_track x; locked := locked x;
     is_previows_music := is_previows_music x; is_closing := is_closing x;
     auto_pause := auto_pause x; native_yt := native_yt x;
     controller_mode := controller_mode x; retries_403 := v;
     retries_general_errors := retries_general_errors x;
     last_channel := last_channel x; text_channel := text_channel x;
     idle_task := idle_task x; new_node_task := new_node_task x;
     votes := votes x; start_time := start_time x;
     idle_endtime := idle_endtime x; tick := tick x; trace := trace x |}.

Definition set_retries_general_errors (v : option RetriesGeneral) (x : Player) : Player :=
  {| base := base x; queue := queue x; played := played x;
     queue_autoplay := queue_autoplay x; failed_tracks := failed_tracks x;
     autoplay_on := autoplay_on x; keep_connected := keep_connected x;
     loop := loop x; last_track := last_track x; locked := locked x;
     is_previows_music := is_previows_music x; is_closing := is_closing x;
     auto_pause := auto_pause x; native_yt := native_yt x;
     controller_mode := controller_mode x; retries_403 := retries_403 x;
     retries_general_errors := v; last_channel := last_channel x;
     text_channel := text_channel x; idle_task := idle_task x;
     new_node_task := new_node_task x; votes := votes x;
     start_time := start_time x; idle_endtime := idle_endtime x;
     tick := tick x; trace := trace x |}.

Definition set_last_channel (v : option Z) (x : Player) : Player :=
  {| base := base x; queue := queue x; played := played x;
     queue_autoplay := queue_autoplay x; failed_tracks := failed_tracks x;
     autoplay_on := autoplay_on x; keep_connected := keep_connected x;
     loop := loop x; last_track := last_track x; locked := locked x;
     is_previows_music := is_previows_music x; is_closing := is_closing x;
     auto_pause := auto_pause x; native_yt := native_yt x;
     controller_mode := controller_mode x; retries_403 := retries_403 x;
     retries_general_errors := retries_general_errors x; last_channel := v;
     text_channel := text_channel x; idle_task := idle_task x;
     new_node_task := new_node_task x; votes := votes x;
     start_time := start_time x; idle_endtime := idle_endtime x;
     tick := tick x; trace := trace x |}.

Definition set_text_channel (v : bool) (x : Player) : Player :=
  {| base := base x; queue := queue x; played := played x;
     queue_autoplay := queue_autoplay x; failed_tracks := failed_tracks x;
     autoplay_on := autoplay_on x; keep_connected := keep_connected x;
     loop := loop x; last_track := last_track x; locked := locked x;
     is_previows_music := is_previows_music x; is_closing := is_closing x;
     auto_pause := auto_pause x; native_yt := native_yt x;
     controller_mode := controller_mode x; retries_403 := retries_403 x;
     retries_general_errors := retries_general_errors x;
     last_channel := last_channel x; text_channel := v;
     idle_task := idle_task x; new_node_task := new_node_task x;
     votes := votes x; start_time := start_time x;
     idle_endtime := idle_endtime x; tick := tick x; trace := trace x |}.

Definition set_idle_task (v : bool) (x : Player) : Player :=
  {| base := base x; queue := queue x; played := played x;
     queue_autoplay := queue_autoplay x; failed_tracks := failed_tracks x;
     autoplay_on := autoplay_on x; keep_connected := keep_connected x;
     loop := loop x; last_track := last_track x; locked := locked x;
     is_previows_music := is_previows_music x; is_closing := is_closing x;
     auto_pause := auto_pause x; native_yt := native_yt x;
     controller_mode := controller_mode x; retries_403 := retries_403 x;
     retries_general_errors := retries_general_errors x;
     last_channel := last_channel x; text_channel := text_channel x;
     idle_task := v; new_node_task := new_node_task x; votes := votes x;
     start_time := start_time x; idle_endtime := idle_endtime x;
     tick := tick x; trace := trace x |}.

Definition set_new_node_task (v : bool) (x : Player) : Player :=
  {| base := base x; queue := queue x; played := played x;
     queue_autoplay := queue_autoplay x; failed_tracks := failed_tracks x;
     autoplay_on := autoplay_on x; keep_connected := keep_connected x;
     loop := loop x; last_track := last_track x; locked := locked x;
     is_previows_music := is_previows_music x; is_closing := is_closing x;
     auto_pause := auto_pause x; native_yt := native_yt x;
     controller_mode := controller_mode x; retries_403 := retries_403 x;
     retries_general_errors := retries_general_errors x;
     last_channel := last_channel x; text_channel := text_channel x;
     idle_task := idle_task x; new_node_task := v; votes := votes x;
     start_time := start_time x; idle_endtime := idle_endtime x;
     tick := tick x; trace := trace x |}.

Definition set_votes (v : list Z) (x : Player) : Player :=
  {| base := base x; queue := queue x; played := played x;
     queue_autoplay := queue_autoplay x; failed_tracks := failed_tracks x;
     autoplay_on := autoplay_on x; keep_connected := keep_connected x;
     loop := loop x; last_track := last_track x; locked := locked x;
     is_previows_music := is_previows_music x; is_closing := is_closing x;
     auto_pause := auto_pause x; native_yt := native_yt x;
     controller_mode := controller_mode x; retries_403 := retries_403 x;
     retries_general_errors := retries_general_errors x;
     last_channel := last_channel x; text_channel := text_channel x;
     idle_task := idle_task x; new_node_task := new_node_task x; votes := v;
     start_time := start_time x; idle_endtime := idle_endtime x;
     tick := tick x; trace := trace x |}.

Definition set_start_time (v : Z) (x : Player) : Player :=
  {| base := base x; queue := queue x; played := played x;
     queue_autoplay := queue_autoplay x; failed_tracks := failed_tracks x;
     autoplay_on := autoplay_on x; keep_connected := keep_connected x;
     loop := loop x; last_track := last_track x; locked := locked x;
     is_previows_music := is_previows_music x; is_closing := is_closing x;
     auto_pause := auto_pause x; native_yt := native_yt x;
     controller_mode := controller_mode x; retries_403 := retries_403 x;
     retries_general_errors := retries_general_errors x;
     last_channel := last_channel x; text_channel := text_channel x;
     idle_task := idle_task x; new_node_task := new_node_task x;
     votes := votes x; start_time := v; idle_endtime := idle_endtime x;
     tick := tick x; trace := trace x |}.

Definition set_idle_endtime (v : option Z) (x : Player) : Player :=
  {| base := base x; queue := queue x; played := played x;
     queue_autoplay := queue_autoplay x; failed_tracks := failed_tracks x;
     autoplay_on := autoplay_on x; keep_connected := keep_connected x;
     loop := loop x; last_track := last_track x; locked := locked x;
     is_previows_music := is_previows_music x; is_closing := is_closing x;
     auto_pause := auto_pause x; native_yt := native_yt x;
     controller_mode := controller_mode x; retries_403 := retries_403 x;
     retries_general_errors := retries_general_errors x;
     last_channel := last_channel x; text_channel := text_channel x;
     idle_task := idle_task x; new_node_task := new_node_task x;
     votes := votes x; start_time := start_time x; idle_endtime := v;
     tick := tick x; trace := trace x |}.

Definition set_tick (v : nat) (x : Player) : Player :=
  {| base := base x; queue := queue x; played := played x;
     queue_autoplay := queue_autoplay x; failed_tracks := failed_tracks x;
     autoplay_on := autoplay_on x; keep_connected := keep_connected x;
     loop := loop x; last_track := last_track x; locked := locked x;
     is_previows_music := is_previows_music x; is_closing := is_closing x;
     auto_pause := auto_pause x; native_yt := native_yt x;
     controller_mode := controller_mode x; retries_403 := retries_403 x;
     retries_general_errors := retries_general_errors x;
     last_channel := last_channel x; text_channel := text_channel x;
     idle_task := idle_task x; new_node_task := new_node_task x;
     votes := votes x; start_time := start_time x;
     idle_endtime := idle_endtime x; tick := v; trace := trace x |}.

Definition set_trace (v : list Effect) (x : Player) : Player :=
  {| base := base x; queue := queue x; played := played x;
     queue_autoplay := queue_autoplay x; failed_tracks := failed_tracks x;
     autoplay_on := autoplay_on x; keep_connected := keep_connected x;
     loop := loop x; last_track := last_track x; locked := locked x;
     is_previows_music := is_previows_music x; is_closing := is_closing x;
     auto_pause := auto_pause x; native_yt := native_yt x;
     controller_mode := controller_mode x; retries_403 := retries_403 x;
     retries_general_errors := retries_general_errors x;
     last_channel := last_channel x; text_channel := text_channel x;
     idle_task := idle_task x; new_node_task := new_node_task x;
     votes := votes x; start_time := start_time x;
     idle_endtime := idle_endtime x; tick := tick x; trace := v |}.


(** Setters for the inherited attributes, at the level of the player. *)
Definition set_node (v : option Node) (s : Player) : Player :=
  set_base (b_set_node v (base s)) s.
Definition set_current (v : option Track) (s : Player) : Player :=
  set_base (b_set_current v (base s)) s.
Definition set_paused (v : bool) (s : Player) : Player :=
  set_base (b_set_paused v (base s)) s.
Definition set_last_position (v : Z) (s : Player) : Player :=
  set_base (b_set_last_position v (base s)) s.
Definition set_last_update (v : Z) (s : Player) : Player :=
  set_base (b_set_last_update v (base s)) s.
Definition set_position_timestamp (v : Z) (s : Player) : Player :=
  set_base (b_set_position_timestamp v (base s)) s.

(** ** The environment *)

(** A search answers with a list of tracks or with a playlist object. *)
Inductive TrackColl : Type :=
| TList (l : list Track)
| TPlaylist (l : list Track).

(** One entry of a Spotify recommendation. *)
Record SpItem : Type := mkSpItem {
  sp_uri : string;
  sp_artists : list string;
  sp_name : string;
  sp_duration_ms : Z;
  sp_id : string
}.

Inductive SpotifyResult : Type :=
| SpRaise (e : Exc)               (* the request raised *)
| SpNone                          (* a falsy answer *)
| SpTracks (items : list SpItem)
| SpMalformed (e : Exc).          (* reading the answer raises *)

(** [self.guild.me] and its voice state. *)
Inductive MeState : Type :=
| MeNone
| MeNoVoice
| MeVoice (channel : Z).

Record Env : Type := mkEnv {
  env_now : nat -> Z;
  env_wl : nat -> WlCall -> Base -> option Exc * Base;
  env_io : nat -> IoCall -> option Exc;
  env_get_tracks : nat -> string -> Exc + TrackColl;
  env_spotify : nat -> list string -> SpotifyResult;
  env_nodes : nat -> list Node;          (* bot.music.nodes.values() *)
  env_me : nat -> MeState;
  env_send_perm : nat -> bool;           (* permission to send messages *)
  env_voice_update : nat -> bool;        (* wait_for(voice_state_update) *)
  env_can_connect : nat -> option Exc;   (* utils.music.checks.can_connect *)
  env_uuid : nat -> Z;                   (* uuid4 of a new track object *)
  env_fix_characters : string -> string; (* utils.music.converters *)
  env_is_playing : Base -> bool;         (* inherited property *)
  env_is_connected : Base -> bool;       (* inherited property *)
  env_yt_video_match : string -> option string;  (* YOUTUBE_VIDEO_REG *)
  env_spotify_enabled : bool;            (* bot.spotify *)
  cfg_error_403_retries : Z;             (* ERROR_403_RETRIES, seconds *)
  cfg_error_403_additional_ms : Z;       (* ERROR_403_ADDITIONAL_MILLISECONDS *)
  cfg_partialtrack_search_provider : string;
  cfg_idle_timeout : Z                   (* IDLE_TIMEOUT, seconds *)
}.

(** ** The monad of coroutines *)

(** Where an exception was raised: in a call, or by the statement at a
    line of [models.py]. *)
Inductive Site : Type :=
| AtWl (c : WlCall)
| AtIo (c : IoCall)
| AtSearch (query : string)
| AtLine (n : Z).

Inductive Res (A : Type) : Type :=
| Ret (a : A)
| Raise (site : Site) (e : Exc).
Arguments Raise {A} site e.

Definition M (A : Type) : Type := Player -> Res A * Player.

Definition ret {A} (a : A) : M A := fun s => (Ret a, s).

Definition bind {A B} (m : M A) (k : A -> M B) : M B :=
  fun s =>
    match m s with
    | (Ret a, s') => k a s'
    | (Raise site e, s') => (Raise site e, s')
    end.

Definition raise {A} (site : Site) (e : Exc) : M A :=
  fun s => (Raise site e, s).

(** [try: m except: h]. *)
Definition try_catch {A} (m : M A) (h : Site -> Exc -> M A) : M A :=
  fun s =>
    match m s with
    | (Ret a, s') => (Ret a, s')
    | (Raise site e, s') => h site e s'
    end.

Declare Scope monad_scope.
Delimit Scope monad_scope with M.
Notation "x <- c1 ;; c2" := (bind c1 (fun x => c2))
  (at level 61, c1 at next level, right associativity) : monad_scope.
Notation "' pat <- c1 ;; c2" :=
  (bind c1 (fun x => match x with pat => c2 end))
  (at level 61, pat pattern, c1 at next level, right associativity)
  : monad_scope.
Notation "c1 ;; c2" := (bind c1 (fun _ => c2))
  (at level 61, right associativity) : monad_scope.
Open Scope monad_scope.

Definition get : M Player := fun s => (Ret s, s).
Definition gets {A} (f : Player -> A) : M A := fun s => (Ret (f s), s).
Definition modify (f : Player -> Player) : M unit := fun s => (Ret tt, f s).

Definition when (b : bool) (m : M unit) : M unit := if b then m else ret tt.

Definition emit (e : Effect) : M unit :=
  modify (fun s => set_trace (e :: trace s) s).

(** One interaction with the outside: its index is returned. *)
Definition step : M nat :=
  fun s => (Ret (tick s), set_tick (S (tick s)) s).

Definition attribute_error : Exc := mkExc AttributeError "".

Section WithEnv.

Variable E : Env.

(** [time() * 1000] and [utcnow()], in milliseconds. *)
Definition now : M Z := n <- step ;; ret (env_now E n).

Definition sleep (ms : Z) : M unit := emit (ESleep ms) ;; _ <- step ;; ret tt.

(** An inherited method: it may change the inherited attributes. *)
Definition wl (c : WlCall) : M unit :=
  emit (EWl c) ;;
  n <- step ;;
  b <- gets base ;;
  let '(r, b') := env_wl E n c b in
  modify (set_base b') ;;
  match r with
  | None => ret tt
  | Some e => raise (AtWl c) e
  end.

(** A call into the chat platform or the display layer. *)
Definition io (c : IoCall) : M unit :=
  emit (EIo c) ;;
  n <- step ;;
  match env_io E n c with
  | None => ret tt
  | Some e => raise (AtIo c) e
  end.

(** The same inside [try: ... except: pass]. *)
Definition io_guarded (c : IoCall) : M unit :=
  try_catch (io c) (fun _ _ => ret tt).

(** [self.node.get_tracks(query, ...)]. *)
Definition get_tracks (query : string) : M TrackColl :=
  emit (EGetTracks query) ;;
  n <- step ;;
  match env_get_tracks E n query with
  | inl e => raise (AtSearch query) e
  | inr r => ret r
  end.

Definition spawn (t : Task) : M unit := emit (ESpawn t).

(** [self.locked = b]. *)
Definition write_locked (b : bool) : M unit :=
  emit (ESetLocked b) ;; modify (set_locked b).

(** [self.set_command_log(...)]: display state, kept as an effect. *)
Definition set_command_log : M unit := emit ELog.

(** [try: self._new_node_task.cancel() except: pass]. *)
Definition cancel_new_node_task : M unit :=
  t <- gets new_node_task ;; when t (emit (ECancel KNewNode)).

Definition me_state : M MeState := n <- step ;; ret (env_me E n).

(** ** Playback position *)

(** The [position] property, read at time [t] (milliseconds). *)
Definition position_at (t : Z) (s : Player) : Z :=
  match current (base s) with
  | None => 0
  | Some cur =>
      if negb (env_is_playing E (base s)) then 0
      else if paused (base s) && negb (auto_pause s) then
        Z.min (last_position (base s)) (duration cur)
      else
        let difference := t - last_update (base s) in
        let position := last_position (base s) + difference in
        if position >? duration cur then 0
        else Z.min position (duration cur)
  end.

(** [self.position]: the clock is read only on the last path. *)
Definition position : M Z :=
  s <- get ;;
  match current (base s) with
  | None => ret 0
  | Some cur =>
      if negb (env_is_playing E (base s)) then ret 0
      else if paused (base s) && negb (auto_pause s) then
        ret (Z.min (last_position (base s)) (duration cur))
      else t <- now ;; ret (position_at t s)
  end.

(** [get_start_pos(player, track, extra_milliseconds)], the clock reading
    [t] ([utcnow()]) given. *)
Definition get_start_pos_at (t : Z) (s : Player) (track : Track)
    (extra_milliseconds : Z) : Z :=
  if negb (is_stream track) then
    let difference := (t + extra_milliseconds) - last_update (base s) in
    let position := last_position (base s) + difference in
    if (0 <? position) && (position <? duration track) then
      Z.min position (duration track)
    else 0
  else 0.

Definition get_start_pos (track : Track) (extra_milliseconds : Z) : M Z :=
  if negb (is_stream track) then
    t <- now ;; s <- get ;;
    ret (get_start_pos_at t s track extra_milliseconds)
  else ret 0.

(** ** End of a track *)

(** A track object is known by its [unique_id]; a mutation of the object
    is seen through every reference the player holds. *)
Definition mutate_in (uid : Z) (f : Track -> Track) (l : list Track)
    : list Track :=
  map (fun t => if unique_id t =? uid then f t else t) l.

Definition mutate_opt (uid : Z) (f : Track -> Track) (o : option Track)
    : option Track :=
  match o with
  | Some t => Some (if unique_id t =? uid then f t else t)
  | None => None
  end.

Definition mutate_track (uid : Z) (f : Track -> Track) (s : Player) : Player :=
  set_current (mutate_opt uid f (current (base s)))
    (set_last_track (mutate_opt uid f (last_track s))
      (set_failed_tracks (mutate_in uid f (failed_tracks s))
        (set_queue_autoplay (mutate_in uid f (queue_autoplay s))
          (set_played (mutate_in uid f (played s))
            (set_queue (mutate_in uid f (queue s)) s))))).

Definition decrement_loops (t : Track) : Track :=
  set_track_loops (track_loops t - 1) t.

Definition loop_is_current (m : LoopMode) : bool :=
  match m with LoopCurrent => true | _ => false end.

Definition loop_is_queue (m : LoopMode) : bool :=
  match m with LoopQueue => true | _ => false end.

(** [track_end], lines 2863-2896. *)
Definition track_end : M unit :=
  modify (set_votes []) ;;
  write_locked true ;;
  sleep 500 ;;
  s <- get ;;
  match last_track s with
  | Some t =>
      when (negb (is_stream t) && (duration t <? 60000)) (sleep 7000) ;;
      (if loop_is_current (loop s) then
         modify (fun s => set_queue (t :: queue s) s)
       else if is_previows_music s then
         modify (fun s => set_queue (deque_insert 1 t (queue s)) s) ;;
         modify (set_is_previows_music false)
       else if negb (track_loops t =? 0) then
         modify (mutate_track (unique_id t) decrement_loops) ;;
         modify (fun s => set_queue (deque_insert 0 (decrement_loops t) (queue s)) s)
       else if loop_is_queue (loop s) then
         (* [is_previows_music] is false here: the second test of it, at
            line 2885, never succeeds *)
         if is_previows_music s then
           modify (fun s => set_queue (deque_insert 1 t (queue s)) s) ;;
           modify (set_is_previows_music false)
         else modify (fun s => set_queue (queue s ++ [t]) s)
       else if negb (autoplay t) then
         modify (fun s => set_played (ring_append 20 (played s) t) s)
       else ret tt)
  | None =>
      when (is_previows_music s) (modify (set_is_previows_music false))
  end ;;
  write_locked false.

(** ** Autoplay *)

(** Lines 1254-1262: the loop that fills [tracks_search]. *)
Fixpoint sample_loop (tracks_search : list Track) (l : list Track)
    : list Track :=
  match l with
  | [] => tracks_search
  | t :: rest =>
      if (4 <? Z.of_nat (List.length tracks_search)) then tracks_search
      else if duration t <? 90000 then sample_loop tracks_search rest
      else sample_loop (tracks_search ++ [t]) rest
  end.

(** [self.played + self.queue_autoplay]: a copy of [played], bounded like
    it, extended by the candidates. *)
Definition history_and_candidates (s : Player) : list Track :=
  ring_extend 20 (played s) (queue_autoplay s).

Definition is_source (name : string) (t : Track) : bool :=
  String.eqb (sourceName t) name.

(** [list(set(t.original_id for t in tracks_search if spotify))[:5]];
    the order of a Python set is not specified, first occurrences are
    kept here. *)
Definition spotify_seed_ids (tracks_search : list Track) : list string :=
  firstn 5 (nodup string_dec
    (map original_id (filter (is_source "spotify") tracks_search))).

Definition spotify_recommendations (ids : list string) : M SpotifyResult :=
  emit (ESpotify ids) ;; n <- step ;; ret (env_spotify E n ids).

(** Lines 1283-1292: three attempts; the last exception is remembered. *)
Fixpoint recommend (attempts : nat) (ids : list string)
    (exception : option Exc) : M (SpotifyResult * option Exc) :=
  match attempts with
  | O => ret (SpNone, exception)
  | S k =>
      r <- spotify_recommendations ids ;;
      match r with
      | SpRaise e =>
          set_command_log ;; sleep 5000 ;; recommend k ids (Some e)
      | _ => ret (r, exception)
      end
  end.

(** Lines 1305-1333: the [PartialTrack] built from one recommendation. *)
Definition partial_of_item (uid : Z) (i : SpItem) : Track :=
  {| unique_id := uid; is_partial := true; id_ := "";
     info_title := String.substring 0 97 (sp_name i);
     author := String.substring 0 97 (env_fix_characters E
       (match sp_artists i with
        | a :: _ => if truthy a then a else "Unknown Artist"
        | [] => "Unknown Artist"
        end));
     authors := Some (map (env_fix_characters E)
       (filter (fun a => negb (contains ("feat. " ++ lower a)%string
                                        (lower (sp_name i))))
               (sp_artists i)));
     uri := sp_uri i; ytid := ""; sourceName := "spotify";
     sourceNameOrig := None; is_stream := false;
     duration := sp_duration_ms i; track_loops := 0; autoplay := true;
     temp_id := None; original_id := sp_id i; search_uri := None;
     isrc := None; related := None |}.

Fixpoint partials_of_items (items : list SpItem) : M (list Track) :=
  match items with
  | [] => ret []
  | i :: rest =>
      (* [t["artists"][0]] raises on an empty list of artists *)
      match sp_artists i with
      | [] => raise (AtLine 1307) (mkExc OtherError "IndexError")
      | _ :: _ =>
          n <- step ;;
          ts <- partials_of_items rest ;;
          ret (partial_of_item (env_uuid E n) i :: ts)
      end
  end.

Definition coll_truthy (c : TrackColl) : bool :=
  match c with TList l => nonempty l | TPlaylist _ => true end.

(** [tracks.tracks], or the list itself. *)
Definition coll_tracks (c : TrackColl) : list Track :=
  match c with TList l => l | TPlaylist l => l end.

(** The local variables of the search loop, lines 1264-1268. *)
Record Search : Type := mkSearch {
  ss_track : option Track;
  ss_tracks : TrackColl;
  ss_tracks_ytsearch : TrackColl;
  ss_exception : option Exc
}.

Definition mix_error (e : Exc) : bool :=
  existsb (fun err => contains err (exc_msg e))
    ["Could not find tracks from mix"; "Could not read mix page"].

Definition related_query (track_data : Track) : string :=
  if is_source "youtube" track_data then
    ("https://www.youtube.com/watch?v=" ++ ytid track_data ++ "&list=RD"
       ++ ytid track_data)%string
  else ("ytmsearch:" ++ author track_data)%string.

Definition quote : string := String (ascii_of_nat 34) EmptyString.

(** Lines 1276-1364: one seed after the other, until one answers. *)
Fixpoint search_loop (tracks_search seeds : list Track) (st : Search)
    : M Search :=
  match seeds with
  | [] => ret st
  | track_data :: rest =>
      st1 <-
        (if is_source "spotify" track_data && env_spotify_enabled E then
           '(result, exception) <-
             recommend 3 (spotify_seed_ids tracks_search) (ss_exception st) ;;
           match result with
           | SpTracks items =>
               ts <- partials_of_items items ;;
               ret (mkSearch (ss_track st) (TList ts)
                      (ss_tracks_ytsearch st) exception)
           | SpMalformed e => raise (AtLine 1298) e
           | _ =>
               ret (mkSearch (ss_track st) (ss_tracks st)
                      (ss_tracks_ytsearch st) exception)
           end
         else ret st) ;;
      if negb (coll_truthy (ss_tracks st1)) then
        try_catch
          (tracks <- get_tracks (related_query track_data) ;;
           ret (mkSearch (Some track_data) tracks (ss_tracks_ytsearch st1)
                  (ss_exception st1)))
          (fun _ e =>
             if mix_error e then
               try_catch
                 (yt <- get_tracks
                    ("ytsearch:" ++ quote ++ author track_data ++ quote)%string ;;
                  ret (mkSearch (Some track_data) (ss_tracks st1) yt
                         (ss_exception st1)))
                 (fun _ e' =>
                    search_loop tracks_search rest
                      (mkSearch (ss_track st1) (ss_tracks st1)
                         (ss_tracks_ytsearch st1) (Some e')))
             else
               sleep 1500 ;;
               search_loop tracks_search rest
                 (mkSearch (ss_track st1) (ss_tracks st1)
                    (ss_tracks_ytsearch st1) (Some e)))
      else
        ret (mkSearch (Some track_data) (ss_tracks st1)
               (ss_tracks_ytsearch st1) (ss_exception st1))
  end.

(** Line 1401: results whose uri starts with the uri of a seed leave. *)
Definition not_a_seed (tracks_search : list Track) (t : Track) : bool :=
  negb (existsb (fun u => String.prefix (uri u) (uri t)) tracks_search).

(** The three tests of lines 1416-1423. *)
Definition keep_candidate (track : Track) (t : Track) : bool :=
  negb (is_stream t) && negb (duration t <? 90000)
  && negb (truthy (ytid track) && String.eqb (ytid track) (ytid t)).

(** Lines 1425-1429: a result that is not a [PartialTrack] is rebuilt as
    a new [LavalinkTrack] over the same [info]; every kept result gets
    the seed as [related]. *)
Fixpoint finalize (track : Track) (tracks : list Track) : M (list Track) :=
  match tracks with
  | [] => ret []
  | t :: rest =>
      if keep_candidate track t then
        t1 <- (if negb (is_partial t) then
                 n <- step ;; ret (set_unique_id (env_uuid E n) t)
               else ret t) ;;
        ts <- finalize track rest ;;
        ret (set_related (Some (title track, uri track)) t1 :: ts)
      else finalize track rest
  end.

(** [try: return self.queue_autoplay.popleft() except: ...]. *)
Definition pop_candidate : M (option Track) :=
  s <- get ;;
  match queue_autoplay s with
  | t :: rest => modify (set_queue_autoplay rest) ;; ret (Some t)
  | [] => ret None
  end.

(** [get_autoqueue_tracks], lines 1242-1439. *)
Definition get_autoqueue_tracks : M (option Track) :=
  head <- pop_candidate ;;
  match head with
  | Some t => ret (Some t)
  | None =>
      s <- get ;;
      if locked s then ret None
      else
        let sampled := sample_loop [] (history_and_candidates s) in
        let tracks_search :=
          if nonempty sampled then rev sampled else sampled in
        found <-
          (if nonempty sampled then
             write_locked true ;;
             st <- search_loop tracks_search tracks_search
                     (mkSearch None (TList []) (TList []) None) ;;
             tracks <-
               (if negb (coll_truthy (ss_tracks st)) then
                  match ss_tracks_ytsearch st with
                  | TList l => ret (TList (rev l))
                  | TPlaylist _ => raise (AtLine 1368) attribute_error
                  end
                else ret (ss_tracks st)) ;;
             if negb (coll_truthy tracks) then
               write_locked false ;;
               io_guarded (IoSend NAutoplayError) ;;
               sleep 7000 ;;
               ret None
             else ret (Some (ss_track st, coll_tracks tracks))
           else ret (Some (None, []))) ;;
        match found with
        | None => ret None
        | Some (track, tracks) =>
            let tracks := filter (not_a_seed tracks_search) tracks in
            match track with
            | Some tr =>
                tracks_final <- finalize tr tracks ;;
                modify (fun s => set_queue_autoplay
                          (ring_extend 30 (queue_autoplay s) tracks_final) s)
            | None => ret tt
            end ;;
            write_locked false ;;
            pop_candidate
        end
  end.

(** ** Resolution of a [PartialTrack] *)

Definition exclude_tags : list string :=
  ["remix"; "edit"; "extend"; "compilation"; "mashup"].

(** [s.replace(old, new)] for a non-empty [old]; [skip] characters of a
    match still have to be dropped. *)
Fixpoint replace_from (old new : string) (skip : nat) (s : string) : string :=
  match s with
  | EmptyString => EmptyString
  | String c rest =>
      match skip with
      | S k => replace_from old new k rest
      | O =>
          if String.prefix old s then
            (new ++ replace_from old new (String.length old - 1) rest)%string
          else String c (replace_from old new 0 rest)
      end
  end.

Definition replace (old new s : string) : string := replace_from old new 0 s.

Definition opt_truthy (o : option string) : bool :=
  match o with Some x => truthy x | None => false end.

Definition title_and_authors (track : Track) : string :=
  (replace " - " " " (single_title track) ++ " - " ++ authors_string track)%string.

(** Lines 2550-2555: the query and [check_duration]. *)
Definition resolve_query (track : Track) : string * bool :=
  match search_uri track with
  | Some u => (u, false)
  | None =>
      ((cfg_partialtrack_search_provider E ++ ":" ++
          match isrc track with
          | Some i => if truthy i then quote ++ i ++ quote
                      else title_and_authors track
          | None => title_and_authors track
          end)%string, true)
  end.

(** Lines 2590-2600: the first result that passes the three tests. *)
Definition resolve_select (track : Track) (check_duration : bool)
    (tracks : list Track) : option Track :=
  find (fun t =>
          negb (is_stream t)
          && negb (existsb (fun i => contains i (lower (title t))
                                     && negb (contains i (lower (title track))))
                     exclude_tags)
          && (check_duration
              && (duration t - 10000 <? duration track)
              && (duration track <? duration t + 10000)))
       tracks.

Definition in_strings (x : string) (l : list string) : bool :=
  existsb (String.eqb x) l.

(** [resolve_track], lines 2541-2617. The track object is changed in
    place in the source; here the changed track is returned. *)
Definition resolve_track (track : Track) : M Track :=
  if truthy (id_ track) then ret track
  else
    try_catch
      (let '(to_search, check_duration) := resolve_query track in
       tracks <-
         try_catch (get_tracks to_search)
           (fun site e =>
              match exc_kind e with
              | TrackNotFound => ret (TList [])
              | _ => raise site e
              end) ;;
       tracks <-
         (if negb (coll_truthy tracks)
             && negb (in_strings (cfg_partialtrack_search_provider E)
                        ["ytsearch"; "ytmsearch"; "scsearch"]) then
            t1 <- (if opt_truthy (isrc track) then
                     try_catch
                       (get_tracks
                          ("ytsearch:" ++ quote
                             ++ match isrc track with Some i => i | None => "" end
                             ++ quote)%string)
                       (fun _ _ => ret tracks)
                   else ret tracks) ;;
            if negb (coll_truthy t1) then
              try_catch
                (get_tracks ("ytsearch:" ++ title_and_authors track)%string)
                (fun _ _ => ret t1)
            else ret t1
          else ret tracks) ;;
       match coll_tracks tracks with
       | [] => ret track
       | first :: _ =>
           let selected_track :=
             match resolve_select track check_duration (coll_tracks tracks) with
             | Some t => t
             | None => first
             end in
           ret (set_duration (duration selected_track)
                  (set_id_ (id_ selected_track) track))
       end)
      (fun _ _ => io (IoSendTrackError track) ;; ret track).

(** ** Advancing the queue *)

(** The [return] statement at which a call of [process_next] ends. *)
Inductive Exit : Type :=
| XRefused          (* line 1445: locked or closing *)
| XNoNode           (* line 1453: a node-wait task is started *)
| XNotConnected     (* line 1458 *)
| XNoVoice          (* line 1464 *)
| XAutoplayFailed   (* line 1491, without a further attempt *)
| XIdle             (* line 1498 *)
| XFailedAlt        (* line 1559 *)
| XHandoff          (* line 1622: a node-wait task is started *)
| XAutoPaused       (* the end, on the branch of line 1690 *)
| XStarted          (* the end, after the play request *)
| XOutOfFuel.       (* the bound of the model on nested calls *)

(** Either the call is over, or it goes on with a value. *)
Inductive Cont (A : Type) : Type :=
| Done (x : Exit)
| Go (a : A).
Arguments Done {A} x.
Arguments Go {A} a.

Definition node_unavailable (s : Player) : bool :=
  match node (base s) with
  | None => true
  | Some nd => negb (is_available nd)
  end.

(** Lines 1460-1464. *)
Definition pn_voice : M (Cont unit) :=
  me <- me_state ;;
  match me with
  | MeNone => raise (AtLine 1460) attribute_error
  | MeVoice _ => ret (Go tt)
  | MeNoVoice =>
      s <- get ;;
      match last_channel s with
      | Some ch =>
          (* [LavalinkPlayer.connect], lines 1059-1061 *)
          modify (set_last_channel (Some ch)) ;;
          wl (WlConnect ch) ;;
          ret (Go tt)
      | None => ret (Done XNoVoice)
      end
  end.

(** Lines 1466-1470. *)
Definition cancel_idle_task : M unit :=
  t <- gets idle_task ;;
  when t (emit (ECancel KIdle) ;; modify (set_idle_task false)).

(** Lines 1472-1507: the next track, from the queue or from autoplay.
    [again] is the nested call [self.process_next()]. *)
Definition pn_pick (again : M Exit) (clear_autoqueue : bool)
    : M (Cont (Track * bool)) :=
  s <- get ;;
  match queue s with
  | t :: rest => modify (set_queue rest) ;; ret (Go (t, clear_autoqueue))
  | [] =>
      try_catch
        (r <-
           (if autoplay_on s || keep_connected s then
              try_catch
                (t <- get_autoqueue_tracks ;; ret (Go (t, false)))
                (fun _ _ =>
                   write_locked false ;;
                   sleep 60000 ;;
                   s <- get ;;
                   match current (base s) with
                   | None =>
                       if autoplay_on s || keep_connected s then
                         x <- again ;; ret (Done x)
                       else ret (Done XAutoplayFailed)
                   | Some _ => ret (Done XAutoplayFailed)
                   end)
            else ret (Go (None, clear_autoqueue))) ;;
         match r with
         | Done x => ret (Done x)
         | Go (Some t, c) => ret (Go (t, c))
         | Go (None, _) =>
             wl WlStop ;;
             t <- now ;;
             modify (set_idle_endtime (Some (t + cfg_idle_timeout E * 1000))) ;;
             modify (set_last_track None) ;;
             spawn TaskIdling ;;
             modify (set_idle_task true) ;;
             ret (Done XIdle)
         end)
        (fun _ _ => x <- again ;; ret (Done x))
  end.

(** Lines 1513-1552: a [PartialTrack] without a handle is resolved. *)
Definition pn_resolve (again : M Exit) (track : Track) : M (Cont Track) :=
  if is_partial track && negb (truthy (id_ track)) then
    r <- try_catch (t <- resolve_track track ;; ret (Some t))
           (fun _ _ => ret None) ;;
    match r with
    | None =>
        io_guarded (IoSend NResolveError) ;;
        write_locked false ;;
        x <- again ;; ret (Done x)
    | Some t =>
        if negb (truthy (id_ t)) then
          io_guarded (IoSend NUnavailable) ;;
          sleep 10000 ;;
          write_locked false ;;
          x <- again ;; ret (Done x)
        else ret (Go t)
    end
  else ret (Go track).

(** Lines 1569-1577: every provider but the two of YouTube is asked; the
    last answer stays. *)
Fixpoint provider_loop (providers : list string) (track : Track)
    (tracks : TrackColl) : M TrackColl :=
  match providers with
  | [] => ret tracks
  | provider :: rest =>
      if in_strings provider ["ytsearch"; "ytmsearch"] then
        provider_loop rest track tracks
      else
        r <- try_catch
               (t <- get_tracks (provider ++ ":" ++ title track)%string ;;
                ret (Some t))
               (fun _ _ => sleep 1000 ;; ret None) ;;
        provider_loop rest track
          (match r with Some t => t | None => tracks end)
  end.

Definition has_exclude_tag (t : Track) : bool :=
  existsb (fun i => contains i (lower (title t))) exclude_tags.

(** Lines 1584-1590. The test of line 1584 is made on a list of five
    truth values, which is never empty. *)
Definition alt_filter (track : Track) (tracks : list Track) : list Track :=
  if negb (nonempty (map (fun i => contains i (lower (title track)))
                       exclude_tags)) then
    match find (fun t => negb (has_exclude_tag t)) tracks with
    | Some t => [t]
    | None => tracks
    end
  else tracks.

Definition is_youtube (track : Track) : bool :=
  is_source "youtube" track
  || match sourceNameOrig track with
     | Some o => String.eqb o "youtube"
     | None => false
     end.

Definition wrong_video : string :=
  "Video returned by YouTube isn't what was requested".

(** Lines 1554-1668: the handle to play, [temp_id] or [track.id]. *)
Definition pn_lookup (again : M Exit) (track : Track)
    : M (Cont (Track * option string)) :=
  s <- get ;;
  if negb (native_yt s) && is_youtube track then
    if is_stream track || (duration track >? 600000) then
      modify (fun s => set_failed_tracks
                (ring_append 30 (failed_tracks s) track) s) ;;
      _ <- again ;;
      ret (Done XFailedAlt)
    else if negb (opt_truthy (temp_id track)) then
      match node (base s) with
      | None => raise (AtLine 1569) attribute_error
      | Some nd =>
          found <- provider_loop (search_providers nd) track (TList []) ;;
          match alt_filter track (coll_tracks found) with
          | [] =>
              modify (fun s => set_failed_tracks
                        (ring_append 30 (failed_tracks s) track) s) ;;
              modify (set_current (Some track)) ;;
              set_command_log ;;
              io (IoInvokeNp false) ;;
              sleep 13000 ;;
              write_locked false ;;
              x <- again ;; ret (Done x)
          | first :: _ =>
              ret (Go (set_temp_id (Some (id_ first)) track,
                       Some (id_ first)))
          end
      end
    else ret (Go (track, temp_id track))
  else if negb (truthy (id_ track)) then
    let query :=
      if contains "&list=" (uri track) then
        match env_yt_video_match E (uri track) with
        | Some link => link
        | None => uri track
        end
      else uri track in
    r <- try_catch (t <- get_tracks query ;; ret (inr t))
           (fun _ e => ret (inl e)) ;;
    match r with
    | inl e =>
        if contains wrong_video (exc_msg e) then
          match node (base s) with
          | None => raise (AtLine 1621) attribute_error
          | Some nd =>
              spawn (TaskWaitNode (Some (identifier nd))) ;;
              modify (set_new_node_task true) ;;
              ret (Done XHandoff)
          end
        else
          io_guarded (IoSend NLookupError) ;;
          io (IoReport track) ;;
          sleep 7000 ;;
          write_locked false ;;
          x <- again ;; ret (Done x)
    | inr t =>
        match coll_tracks t with
        | [] =>
            io_guarded (IoSend NUnavailable) ;;
            sleep 10000 ;;
            write_locked false ;;
            x <- again ;; ret (Done x)
        | first :: _ => ret (Go (set_id_ (id_ first) track, None))
        end
    end
  else ret (Go (track, None)).

(** Lines 1670-1705. *)
Definition pn_start (track : Track) (temp : option string)
    (start_position : Z) (force_np clear_autoqueue : bool) : M Exit :=
  when clear_autoqueue (modify (set_queue_autoplay [])) ;;
  modify (set_last_track (Some track)) ;;
  modify (set_is_previows_music false) ;;
  write_locked false ;;
  let start_position := if is_stream track then 0 else start_position in
  modify (set_current (Some track)) ;;
  modify (set_last_update 0) ;;
  modify (set_last_position start_position) ;;
  modify (set_position_timestamp 0) ;;
  modify (set_paused false) ;;
  s <- get ;;
  if auto_pause s then
    t <- now ;;
    modify (set_last_update t) ;;
    modify (set_current (Some track)) ;;
    ret XAutoPaused
  else
    wl (WlPlay track start_position temp) ;;
    s <- get ;;
    np <- (if negb (loop_is_current (loop s)) || force_np then ret true
           else if negb (controller_mode s) then
             match current (base s) with
             | Some c => ret (track_loops c =? 0)
             | None => raise (AtLine 1696) attribute_error
             end
           else ret false) ;;
    when np (when (negb (start_position =? 0)) (sleep 1000) ;;
             io (IoInvokeNp true)) ;;
    ret XStarted.

(** [process_next], lines 1441-1705. [fuel] bounds the depth of the
    nested calls [self.process_next()]. *)
Fixpoint process_next (fuel : nat) (start_position : Z)
    (force_np clear_autoqueue : bool) : M Exit :=
  match fuel with
  | O => ret XOutOfFuel
  | S fuel' =>
      let again := process_next fuel' 0 false true in
      s <- get ;;
      if locked s || is_closing s then ret XRefused
      else if node_unavailable s then
        cancel_new_node_task ;;
        spawn (TaskWaitNode None) ;;
        modify (set_new_node_task true) ;;
        ret XNoNode
      else if negb (env_is_connected E (base s)) then ret XNotConnected
      else
        v <- pn_voice ;;
        match v with
        | Done x => ret x
        | Go _ =>
            cancel_idle_task ;;
            p <- pn_pick again clear_autoqueue ;;
            match p with
            | Done x => ret x
            | Go (track, clear_autoqueue) =>
                write_locked true ;;
                r <- pn_resolve again track ;;
                match r with
                | Done x => ret x
                | Go track =>
                    l <- pn_lookup again track ;;
                    match l with
                    | Done x => ret x
                    | Go (track, temp) =>
                        pn_start track temp start_position force_np
                          clear_autoqueue
                    end
                end
            end
        end
  end.

(** ** Waiting for another node *)

(** [sorted(nodes, key=lambda n: n.stats.players)]: a stable sort. *)
Fixpoint insert_by_players (n : Node) (l : list Node) : list Node :=
  match l with
  | [] => [n]
  | m :: rest =>
      if stats_players m <=? stats_players n then
        m :: insert_by_players n rest
      else n :: l
  end.

Definition sort_by_players (l : list Node) : list Node :=
  fold_right insert_by_players [] l.

Definition is_ignored (ignore_node : option string) (n : Node) : bool :=
  match ignore_node with
  | Some i => String.eqb (identifier n) i
  | None => false
  end.

(** Line 2639. *)
Definition eligible_nodes (ignore_node : option string) (nodes : list Node)
    : list Node :=
  sort_by_players
    (filter (fun n => is_available n && negb (is_ignored ignore_node n)) nodes).

Definition pool : M (list Node) := n <- step ;; ret (env_nodes E n).

(** The loop of lines 2637-2676; [fuel] bounds its rounds. *)
Fixpoint wait_loop (fuel : nat) (ignore_node : option string) : M bool :=
  match fuel with
  | O => ret false
  | S fuel' =>
      all <- pool ;;
      match eligible_nodes ignore_node all with
      | [] => sleep 5000 ;; wait_loop fuel' ignore_node
      | n :: _ =>
          modify (set_native_yt true) ;;
          changed <- try_catch
                       (wl (WlChangeNode (identifier n)) ;;
                        write_locked false ;; ret true)
                       (fun _ _ => sleep 5000 ;; ret false) ;;
          if changed then
            me <- me_state ;;
            ok <-
              match me with
              | MeNone => raise (AtLine 2656) attribute_error
              | MeVoice _ => ret true
              | MeNoVoice =>
                  k <- step ;;
                  match env_can_connect E k with
                  | Some _ =>
                      set_command_log ;; wl (WlDestroy false) ;; ret false
                  | None =>
                      s <- get ;;
                      match last_channel s with
                      | Some ch => wl (WlConnect ch) ;; ret true
                      | None => raise (AtLine 2663) attribute_error
                      end
                  end
              end ;;
            when ok
              (set_command_log ;;
               s <- get ;;
               (if auto_pause s then spawn TaskAutoSkip
                else io_guarded (IoInvokeNp false)) ;;
               modify (set_new_node_task false)) ;;
            ret true
          else wait_loop fuel' ignore_node
      end
  end.

(** [_wait_for_new_node], lines 2619-2676. The result tells whether the
    loop ended within [fuel] rounds. *)
Definition wait_for_new_node (fuel : nat) (ignore_node : option string)
    : M bool :=
  write_locked true ;;
  emit (ECancel KAutoSkip) ;;
  set_command_log ;;
  wait_loop fuel ignore_node.

(** ** Events of the rendering node *)

(** [event.error], [event.message] and [event.cause] of a
    [TrackException]. *)
Record ExceptionData : Type := mkExceptionData {
  ex_error : string;
  ex_message : string;
  ex_cause : string
}.

(** The events of [wavelink]; [origin] is [event.node.identifier]. *)
Inductive Event : Type :=
| TrackEnd (origin : string) (track : string) (reason : string)
| TrackStart (origin : string) (track : string)
| TrackException (origin : string) (d : ExceptionData)
| WebsocketClosed (code : Z)
| TrackStuck (origin : string) (track : string)
| OtherEvent.

(** [event.node != self.node]. *)
Definition other_node (origin : string) (s : Player) : bool :=
  match node (base s) with
  | Some nd => negb (String.eqb origin (identifier nd))
  | None => true
  end.

(** Lines 634-668. *)
Definition on_track_end (fuel : nat) (origin reason : string) : M unit :=
  s <- get ;;
  if other_node origin s then ret tt
  else
    emit (EIo (IoDispatch "wavelink_track_end")) ;;
    if locked s || auto_pause s then ret tt
    else
      go <- (if String.eqb reason "FINISHED" then set_command_log ;; ret true
             else if String.eqb reason "STOPPED" then
               ret (nonempty (queue s))
             else ret false) ;;
      if go then
        emit (ECancel KMessageUpdater) ;;
        track_end ;;
        _ <- process_next fuel 0 false true ;;
        ret tt
      else ret tt.

(** Lines 670-711. *)
Definition on_track_start (origin : string) : M unit :=
  s <- get ;;
  if other_node origin s then ret tt
  else
    t <- now ;;
    modify (set_start_time t) ;;
    match current (base s) with
    | None => raise (AtLine 677) attribute_error
    | Some cur =>
        when (negb (autoplay cur)) (modify (set_queue_autoplay [])) ;;
        if auto_pause s then ret tt
        else if negb (text_channel s) then ret tt
        else
          k <- step ;;
          if negb (env_send_perm E k) then modify (set_text_channel false)
          else
            me <- me_state ;;
            match me with
            | MeNone => raise (AtLine 695) attribute_error
            | MeVoice _ =>
                io_guarded IoSaveQueue ;; sleep 2000 ;; io IoUpdateStageTopic
            | MeNoVoice =>
                k <- step ;;
                if env_voice_update E k then
                  io_guarded IoSaveQueue ;; sleep 2000 ;; io IoUpdateStageTopic
                else ret tt
            end
    end.

Definition network_causes : list string :=
  ["java.net.SocketTimeoutException: Read timed out";
   "java.net.SocketException: Network is unreachable"].

Definition unavailable_causes : list string :=
  ["com.sedmelluq.discord.lavaplayer.tools.FriendlyException: This video is not available";
   "com.sedmelluq.discord.lavaplayer.tools.FriendlyException: YouTube WebM streams are currently not supported."].

Definition blocked_error : string :=
  "This IP address has been blocked by YouTube (429)".

Definition causes_403 : list string :=
  ["java.lang.RuntimeException: Not success status code: 403";
   "java.io.IOException: Invalid status code for video page response: 400"].

Definition decode_causes : list string :=
  ["java.lang.IllegalStateException: Failed to get media URL: 2000: An error occurred while decoding track token";
   "java.lang.RuntimeException: Not success status code: 204";
   "java.net.SocketTimeoutException: Connect timed out";
   "java.lang.IllegalArgumentException: Invalid bitrate";
   "java.net.UnknownHostException:";
   "java.lang.IllegalStateException: Error from decoder";
   "java.lang.IllegalStateException: Current position is beyond this element";
   "com.sedmelluq.discord.lavaplayer.tools.io.PersistentHttpStream$PersistentHttpException: Not success status code: 403"].

(** The first test of the handler, lines 754-762, and the value the
    assignment expression gives to [video_not_available]. *)
Definition network_or_unavailable (d : ExceptionData) : bool * bool :=
  if startswith (ex_cause d) network_causes then (true, false)
  else
    let video_not_available :=
      startswith (ex_cause d) unavailable_causes
      || String.eqb (ex_message d) wrong_video in
    (video_not_available, video_not_available).

(** The test of lines 789-793 and the value given to [error_403]. *)
Definition blocked_or_403 (d : ExceptionData) : bool * bool :=
  if String.eqb (ex_error d) blocked_error then (true, false)
  else
    let error_403 := startswith (ex_cause d) causes_403 in
    (error_403, error_403).

Definition new_retries_403 (last_time : option Z) : Retries403 :=
  mkRetries403 last_time 0.

(** Lines 846-869, for this player; the other players of the node are
    moved by the same loop. *)
Definition migrate_players (nd : Node) : M unit :=
  emit EMigratePeers ;;
  all <- pool ;;
  modify (fun s => set_current (last_track s) s) ;;
  match filter (fun n => available n && is_available n) all with
  | n :: _ =>
      wl (WlChangeNode (identifier n)) ;;
      set_command_log ;;
      write_locked false
  | [] =>
      cancel_new_node_task ;;
      spawn (TaskWaitNode None) ;;
      modify (set_new_node_task true)
  end.

(** Lines 795-830: the retries on the node that answered 403. The result
    tells whether the handler goes on to line 832. *)
Definition retry_on_403 (track : Track) : M bool :=
  s <- get ;;
  let r := match retries_403 s with
           | Some r => r
           | None => new_retries_403 None
           end in
  modify (set_retries_403 (Some r)) ;;
  expired <-
    match r403_last_time r with
    | None => ret true
    | Some last =>
        t <- now ;; ret (t - last >? cfg_error_403_retries E * 1000)
    end ;;
  if expired then
    t <- now ;;
    modify (set_retries_403 (Some (new_retries_403 (Some t)))) ;;
    (if auto_pause s then ret tt
     else
       start <- get_start_pos track (cfg_error_403_additional_ms E) ;;
       wl (WlPlay track start None) ;;
       sleep 3000) ;;
    write_locked false ;;
    ret false
  else if r403_counter r <? 3 then
    modify (set_retries_403
              (Some (mkRetries403 (r403_last_time r) (r403_counter r + 1)))) ;;
    sleep 3000 ;;
    t <- now ;;
    modify (set_retries_403 (Some (mkRetries403 (Some t) (r403_counter r + 1)))) ;;
    s <- get ;;
    if is_closing s then ret false
    else
      write_locked false ;;
      set_command_log ;;
      (if negb (auto_pause s) then ret tt
       else
         start <- get_start_pos track (cfg_error_403_additional_ms E) ;;
         wl (WlPlay track start None)) ;;
      io (IoReport track) ;;
      ret false
  else
    modify (fun s => set_queue (queue s ++ [track]) s) ;;
    ret true.

(** Lines 886-911: the retries of the decode and timeout class. The
    result is the start position, or nothing when a node-wait task was
    started instead. *)
Definition retry_general (nd : Node) (track : Track) : M (option Z) :=
  s <- get ;;
  r <- match retries_general_errors s with
       | Some r => ret r
       | None => t <- now ;; ret (mkRetriesGeneral 6 (identifier nd) t)
       end ;;
  modify (set_retries_general_errors (Some r)) ;;
  modify (fun s => set_queue (track :: queue s) s) ;;
  exhausted <-
    (if (rg_counter r <? 1) && String.eqb (identifier nd) (rg_last_node r) then
       t <- now ;; ret (t - rg_last_time r <? 180 * 1000)
     else ret false) ;;
  if exhausted then
    cancel_new_node_task ;;
    spawn (TaskWaitNode (Some (identifier nd))) ;;
    modify (set_new_node_task true) ;;
    ret None
  else
    t <- now ;;
    (if String.eqb (rg_last_node r) (identifier nd) then
       modify (set_retries_general_errors
                 (Some (mkRetriesGeneral (rg_counter r - 1) (rg_last_node r) t)))
     else
       t' <- now ;;
       modify (set_retries_general_errors
                 (Some (mkRetriesGeneral 6 (identifier nd) t')))) ;;
    start_position <- get_start_pos track 0 ;;
    ret (Some start_position).

(** Lines 871-941: what is left when no earlier branch returned. *)
Definition recover (fuel : nat) (nd : Node) (track : Track)
    (d : ExceptionData) : M unit :=
  io (IoReport track) ;;
  r <-
    (if startswith (ex_cause d) decode_causes then
       p <- retry_general nd track ;;
       match p with
       | Some start_position => ret (Some (start_position, 4000, false))
       | None => ret None
       end
     else if String.eqb (ex_cause d) "java.lang.InterruptedException" then
       modify (fun s => set_queue (track :: queue s) s) ;;
       cancel_new_node_task ;;
       spawn (TaskWaitNode None) ;;
       modify (set_new_node_task true) ;;
       ret None
     else
       s <- get ;;
       (if track_loops track =? 0 then
          modify (fun s => set_failed_tracks
                    (ring_append 30 (failed_tracks s) track) s)
        else if keep_connected s && negb (autoplay track)
                && (15 <? Z.of_nat (List.length (queue s))) then
          modify (fun s => set_queue (queue s ++ [track]) s)
        else ret tt) ;;
       ret (Some (0, 10000, true))) ;;
  match r with
  | None => ret tt
  | Some (start_position, cooldown, embed) =>
      s <- get ;;
      if negb (text_channel s) then raise (AtLine 932) attribute_error
      else
        k <- step ;;
        when (embed && env_send_perm E k) (io (IoSend NTrackError)) ;;
        sleep cooldown ;;
        write_locked false ;;
        _ <- process_next fuel start_position false true ;;
        ret tt
  end.

(** Lines 713-941. *)
Definition on_track_exception (fuel : nat) (origin : string)
    (d : ExceptionData) : M unit :=
  s <- get ;;
  match node (base s) with
  | None => raise (AtLine 716) attribute_error
  | Some nd =>
      (* [track = self.current or self.last_track] *)
      match (match current (base s) with
             | Some t => Some t
             | None => last_track s
             end) with
      | None => raise (AtLine 718) attribute_error
      | Some track =>
          if negb (String.eqb origin (identifier nd)) then io (IoReport track)
          else if locked s then set_command_log ;; io (IoReport track)
          else
            write_locked true ;;
            modify (set_current None) ;;
            let '(first, video_not_available) := network_or_unavailable d in
            if first then
              cancel_new_node_task ;;
              io (IoReport track) ;;
              if video_not_available then
                modify (set_native_yt false) ;;
                modify (set_current None) ;;
                modify (fun s => set_queue (track :: queue s) s) ;;
                write_locked false ;;
                set_command_log ;;
                start_position <- position ;;
                _ <- process_next fuel start_position false true ;;
                ret tt
              else
                spawn (TaskWaitNode None) ;;
                modify (set_new_node_task true)
            else
              let '(second, error_403) := blocked_or_403 d in
              goes_on <-
                (if second then
                   escalate <-
                     (if error_403 && retry_403 nd then retry_on_403 track
                      else ret true) ;;
                   if escalate then
                     modify (set_retries_403 (Some (new_retries_403 None))) ;;
                     if is_source "youtube" track
                        || (String.eqb (cfg_partialtrack_search_provider E)
                              "ytsearch" && is_source "spotify" track) then
                       io (IoReport track) ;;
                       (if closing nd then ret tt
                        else sleep 3000 ;; migrate_players nd) ;;
                       ret false
                     else ret true
                   else ret false
                 else ret true) ;;
              if goes_on then recover fuel nd track d else ret tt
      end
  end.

Definition reconnect_codes : list Z := [4000; 1006; 1001; 4016; 4005; 4006].

Definition in_codes (c : Z) (l : list Z) : bool := existsb (Z.eqb c) l.

(** Lines 943-999. The result tells whether the handler returned; if
    not, the event falls through to line 1001. *)
Definition on_websocket_closed (code : Z) : M bool :=
  if code =? 1000 then ret true
  else
    me <- me_state ;;
    match me with
    | MeNone => wl (WlDestroy true) ;; ret true
    | _ =>
        s <- get ;;
        (* [vc = self.last_channel or self.guild.me.voice.channel] *)
        vc <- match last_channel s with
              | Some ch => ret (Some ch)
              | None =>
                  me <- me_state ;;
                  match me with MeVoice ch => ret (Some ch) | _ => ret None end
              end ;;
        in_voice <-
          (if code =? 4014 then
             me <- me_state ;;
             match me with
             | MeVoice _ => ret true
             | MeNoVoice => ret false
             | MeNone => raise (AtLine 957) attribute_error
             end
           else ret false) ;;
        (if in_voice then ret tt
         else
           match vc with
           | Some _ => emit (EIo IoLogWarning)
           | None => raise (AtLine 965) attribute_error
           end) ;;
        s <- get ;;
        if is_closing s then ret true
        else if in_codes code reconnect_codes then
          me <- me_state ;;
          vc_id <- match me with
                   | MeVoice ch => ret ch
                   | _ =>
                       match last_channel s with
                       | Some ch => ret ch
                       | None => raise (AtLine 983) attribute_error
                       end
                   end ;;
          sleep 3000 ;;
          s <- get ;;
          if is_closing s then ret true
          else
            (* [LavalinkPlayer.connect], lines 1059-1061 *)
            modify (set_last_channel (Some vc_id)) ;;
            wl (WlConnect vc_id) ;;
            ret true
        else if code =? 4014 then
          sleep 1000 ;;
          me <- me_state ;;
          match me with
          | MeVoice _ => ret true
          | MeNone => raise (AtLine 995) attribute_error
          | MeNoVoice =>
              match last_channel s with
              | None => raise (AtLine 997) attribute_error
              | Some _ => set_command_log ;; wl (WlDestroy true) ;; ret true
              end
          end
        else ret false
    end.

(** Lines 1001-1019. *)
Definition on_track_stuck (fuel : nat) : M unit :=
  emit (ECancel KMessageUpdater) ;;
  track_end ;;
  set_command_log ;;
  _ <- process_next fuel 0 false true ;;
  ret tt.

(** [hook], lines 627-1021. *)
Definition hook (fuel : nat) (event : Event) : M unit :=
  s <- get ;;
  if is_closing s then ret tt
  else
    match event with
    | TrackEnd origin _ reason => on_track_end fuel origin reason
    | TrackStart origin _ => on_track_start origin
    | TrackException origin d => on_track_exception fuel origin d
    | WebsocketClosed code => _ <- on_websocket_closed code ;; ret tt
    | TrackStuck _ _ => on_track_stuck fuel
    | OtherEvent => ret tt
    end.

End WithEnv.

Arguments Done {A} x.
Arguments Go {A} a.

(** * Concrete environments and players *)

(** A resolved track of the rendering node. *)
Definition lavalink_track (uid : Z) (name : string) (length : Z) : Track :=
  {| unique_id := uid; is_partial := false; id_ := ("id-" ++ name)%string;
     info_title := name; author := "artist"; authors := None;
     uri := ("https://example.org/" ++ name)%string; ytid := "";
     sourceName := "soundcloud"; sourceNameOrig := None; is_stream := false;
     duration := length; track_loops := 0; autoplay := false;
     temp_id := None; original_id := ""; search_uri := None; isrc := None;
     related := None |}.

Definition node1 : Node :=
  {| identifier := "N1"; is_available := true; available := true;
     retry_403 := true; closing := false; search_providers := ["scsearch"];
     stats_players := 1 |}.

Definition node2 : Node :=
  {| identifier := "N2"; is_available := true; available := true;
     retry_403 := true; closing := false; search_providers := ["scsearch"];
     stats_players := 0 |}.

(** An environment in which nothing fails: the clock advances by one
    second per interaction, a play request makes the track current, a
    change of node binds the node of that name, searches find nothing. *)
Definition quiet_wl (nodes : list Node) (c : WlCall) (b : Base)
    : option Exc * Base :=
  match c with
  | WlPlay t _ _ => (None, b_set_current (Some t) b)
  | WlChangeNode i =>
      (None, b_set_node (find (fun n => String.eqb (identifier n) i) nodes) b)
  | _ => (None, b)
  end.

Definition quiet_env : Env :=
  {| env_now := fun n => 1000 * Z.of_nat n;
     env_wl := fun _ => quiet_wl [node1; node2];
     env_io := fun _ _ => None;
     env_get_tracks := fun _ _ => inr (TList []);
     env_spotify := fun _ _ => SpNone;
     env_nodes := fun _ => [node1; node2];
     env_me := fun _ => MeVoice 7;
     env_send_perm := fun _ => true;
     env_voice_update := fun _ => true;
     env_can_connect := fun _ => None;
     env_uuid := fun n => 1000 + Z.of_nat n;
     env_fix_characters := fun x => x;
     env_is_playing := fun b => match current b with Some _ => true | None => false end;
     env_is_connected := fun _ => true;
     env_yt_video_match := fun _ => None;
     env_spotify_enabled := false;
     cfg_error_403_retries := 7;
     cfg_error_403_additional_ms := 430;
     cfg_partialtrack_search_provider := "ytsearch";
     cfg_idle_timeout := 60 |}.

(** The player as [__init__] leaves it, bound to [node1]. *)
Definition new_player : Player :=
  {| base := {| node := Some node1; current := None; paused := false;
                last_position := 0; last_update := 0;
                position_timestamp := 0; channel_id := Some 7 |};
     queue := []; played := []; queue_autoplay := []; failed_tracks := [];
     autoplay_on := false; keep_connected := false; loop := LoopOff;
     last_track := None; locked := false; is_previows_music := false;
     is_closing := false; auto_pause := false; native_yt := true;
     controller_mode := true; retries_403 := None;
     retries_general_errors := None; last_channel := Some 7;
     text_channel := true; idle_task := false; new_node_task := false;
     votes := []; start_time := 0; idle_endtime := None; tick := O;
     trace := [] |}.

(** The same player after [process_destroy] has set [is_closing]. *)
Definition set_is_closing_true (s : Player) : Player :=
  {| base := base s; queue := queue s; played := played s;
     queue_autoplay := queue_autoplay s; failed_tracks := failed_tracks s;
     autoplay_on := autoplay_on s; keep_connected := keep_connected s;
     loop := loop s; last_track := last_track s; locked := locked s;
     is_previows_music := is_previows_music s; is_closing := true;
     auto_pause := auto_pause s; native_yt := native_yt s;
     controller_mode := controller_mode s; retries_403 := retries_403 s;
     retries_general_errors := retries_general_errors s;
     last_channel := last_channel s; text_channel := text_channel s;
     idle_task := idle_task s; new_node_task := new_node_task s;
     votes := votes s; start_time := start_time s;
     idle_endtime := idle_endtime s; tick := tick s; trace := trace s |}.

(** The same player after a command has chosen the loop mode. *)
Definition with_loop (m : LoopMode) (s : Player) : Player :=
  {| base := base s; queue := queue s; played := played s;
     queue_autoplay := queue_autoplay s; failed_tracks := failed_tracks s;
     autoplay_on := autoplay_on s; keep_connected := keep_connected s;
     loop := m; last_track := last_track s; locked := locked s;
     is_previows_music := is_previows_music s; is_closing := is_closing s;
     auto_pause := auto_pause s; native_yt := native_yt s;
     controller_mode := controller_mode s; retries_403 := retries_403 s;
     retries_general_errors := retries_general_errors s;
     last_channel := last_channel s; text_channel := text_channel s;
     idle_task := idle_task s; new_node_task := new_node_task s;
     votes := votes s; start_time := start_time s;
     idle_endtime := idle_endtime s; tick := tick s; trace := trace s |}.

Definition trackA : Track := lavalink_track 1 "A" 200000.
Definition trackB : Track := lavalink_track 2 "B" 200000.
Definition trackC : Track := lavalink_track 3 "C" 200000.

(** A track of the YouTube source, the exception the node reports when
    YouTube answers 403, and a session that plays the track. *)
Definition youtube_track : Track :=
  {| unique_id := 5; is_partial := false; id_ := "id-Y";
     info_title := "Y"; author := "artist"; authors := None;
     uri := "https://www.youtube.com/watch?v=Y"; ytid := "Y";
     sourceName := "youtube"; sourceNameOrig := None; is_stream := false;
     duration := 200000; track_loops := 0; autoplay := false;
     temp_id := None; original_id := ""; search_uri := None; isrc := None;
     related := None |}.

Definition error_403 : ExceptionData :=
  {| ex_error := "Something broke when playing the track";
     ex_message := "Something broke when playing the track";
     ex_cause := "java.lang.RuntimeException: Not success status code: 403" |}.

Definition playing_youtube : Player :=
  set_last_track (Some youtube_track)
    (set_current (Some youtube_track) new_player).

(** Variations of an environment. *)
Definition with_get_tracks (f : nat -> string -> Exc + TrackColl) (E : Env)
    : Env :=
  {| env_now := env_now E; env_wl := env_wl E; env_io := env_io E;
     env_get_tracks := f; env_spotify := env_spotify E;
     env_nodes := env_nodes E; env_me := env_me E;
     env_send_perm := env_send_perm E;
     env_voice_update := env_voice_update E;
     env_can_connect := env_can_connect E; env_uuid := env_uuid E;
     env_fix_characters := env_fix_characters E;
     env_is_playing := env_is_playing E;
     env_is_connected := env_is_connected E;
     env_yt_video_match := env_yt_video_match E;
     env_spotify_enabled := env_spotify_enabled E;
     cfg_error_403_retries := cfg_error_403_retries E;
     cfg_error_403_additional_ms := cfg_error_403_additional_ms E;
     cfg_partialtrack_search_provider := cfg_partialtrack_search_provider E;
     cfg_idle_timeout := cfg_idle_timeout E |}.

Definition with_now (f : nat -> Z) (E : Env) : Env :=
  {| env_now := f; env_wl := env_wl E; env_io := env_io E;
     env_get_tracks := env_get_tracks E; env_spotify := env_spotify E;
     env_nodes := env_nodes E; env_me := env_me E;
     env_send_perm := env_send_perm E;
     env_voice_update := env_voice_update E;
     env_can_connect := env_can_connect E; env_uuid := env_uuid E;
     env_fix_characters := env_fix_characters E;
     env_is_playing := env_is_playing E;
     env_is_connected := env_is_connected E;
     env_yt_video_match := env_yt_video_match E;
     env_spotify_enabled := env_spotify_enabled E;
     cfg_error_403_retries := cfg_error_403_retries E;
     cfg_error_403_additional_ms := cfg_error_403_additional_ms E;
     cfg_partialtrack_search_provider := cfg_partialtrack_search_provider E;
     cfg_idle_timeout := cfg_idle_timeout E |}.

(** * Tactics *)

(** Boolean comparisons of integers in the hypotheses, as propositions. *)
Ltac zbool :=
  repeat match goal with
  | H : (_ >? _) = _ |- _ => rewrite Z.gtb_ltb in H
  | H : (_ <? _) = true |- _ => apply Z.ltb_lt in H
  | H : (_ <? _) = false |- _ => apply Z.ltb_ge in H
  | H : (_ <=? _) = true |- _ => apply Z.leb_le in H
  | H : (_ <=? _) = false |- _ => apply Z.leb_gt in H
  | H : (_ =? _) = true |- _ => apply Z.eqb_eq in H
  | H : (_ =? _) = false |- _ => apply Z.eqb_neq in H
  end.

(** * Playback position (claim C2) *)

(** The clamp of the specification: [x] brought into [[lo, hi]]. *)
Definition clamp (x lo hi : Z) : Z := Z.max lo (Z.min x hi).

(** The position the specification describes for a playing session. *)
Definition extrapolated (t : Z) (s : Player) : Z :=
  last_position (base s) + (t - last_update (base s)).

(** A session that plays [cur] and was not paused by a user. *)
Definition playing (E : Env) (s : Player) (cur : Track) : Prop :=
  current (base s) = Some cur
  /\ env_is_playing E (base s) = true
  /\ (paused (base s) && negb (auto_pause s))%bool = false.

Lemma position_at_playing E t s cur :
  playing E s cur ->
  position_at E t s =
    if extrapolated t s >? duration cur then 0 else extrapolated t s.
Proof.
  intros (Hcur & Hplay & Hpause).
  unfold position_at, extrapolated.
  rewrite Hcur, Hplay, Hpause; simpl.
  destruct (_ >? duration cur) eqn:Hgt; [reflexivity|].
  apply Z.min_l. zbool. lia.
Qed.

(** The monadic reading of the property reads the clock once and agrees
    with [position_at]. *)
Lemma position_reads_clock E s cur :
  playing E s cur ->
  fst (position E s) = Ret (position_at E (env_now E (tick s)) s).
Proof.
  intros (Hcur & Hplay & Hpause).
  unfold position, bind, get. rewrite Hcur, Hplay, Hpause. reflexivity.
Qed.

Definition playing_A : Player :=
  set_current (Some (lavalink_track 1 "A" 1000)) new_player.

(** C2, counterexample: a non-stream track of 1000 ms, started at time 0.
    Read at 900 ms the position is 900; read at 1100 ms it is 0, where
    the clamp gives 1000, and the second read is below the first. *)
Lemma position_clamp_counterexample :
  playing quiet_env playing_A (lavalink_track 1 "A" 1000)
  /\ is_stream (lavalink_track 1 "A" 1000) = false
  /\ position_at quiet_env 900 playing_A = 900
  /\ position_at quiet_env 1100 playing_A = 0
  /\ clamp (extrapolated 1100 playing_A) 0 1000 = 1000
  /\ position_at quiet_env 1100 playing_A
       <> clamp (extrapolated 1100 playing_A) 0
            (duration (lavalink_track 1 "A" 1000))
  /\ ~ (position_at quiet_env 900 playing_A
          <= position_at quiet_env 1100 playing_A).
Proof.
  repeat split; try reflexivity; vm_compute; congruence.
Qed.

(** C2, amended: while the session plays and is not paused by a user, the
    position is the extrapolated value [last_position + (now -
    last_update)] as long as that value does not exceed the duration of
    the track, and 0 once it does; it never exceeds a non-negative
    duration; and of two reads, the later is not below the earlier as
    long as its extrapolated value does not exceed the duration. *)
Theorem position_extrapolates_or_resets E s cur t :
  playing E s cur ->
  (extrapolated t s <= duration cur ->
     position_at E t s = extrapolated t s)
  /\ (duration cur < extrapolated t s -> position_at E t s = 0)
  /\ (0 <= duration cur -> position_at E t s <= duration cur)
  /\ (forall t', t <= t' -> extrapolated t' s <= duration cur ->
        position_at E t s <= position_at E t' s).
Proof.
  intros Hp.
  assert (Hext : forall a b, a <= b -> extrapolated a s <= extrapolated b s)
    by (unfold extrapolated; intros; lia).
  repeat split.
  - intros Hle. rewrite (position_at_playing t Hp).
    destruct (_ >? _) eqn:Hgt; [zbool; lia | reflexivity].
  - intros Hlt. rewrite (position_at_playing t Hp).
    destruct (_ >? _) eqn:Hgt; [reflexivity|]. zbool. lia.
  - intros Hd. rewrite (position_at_playing t Hp).
    destruct (_ >? _) eqn:Hgt; [lia|]. zbool. lia.
  - intros t' Htt' Hle. specialize (Hext _ _ Htt').
    rewrite (position_at_playing t Hp), (position_at_playing t' Hp).
    destruct (extrapolated t s >? _) eqn:H1;
      destruct (extrapolated t' s >? _) eqn:H2;
      zbool; lia.
Qed.

Lemma position_extrapolates_or_resets_witness :
  playing quiet_env playing_A (lavalink_track 1 "A" 1000)
  /\ position_at quiet_env 900 playing_A = extrapolated 900 playing_A.
Proof.
  assert (Hp : playing quiet_env playing_A (lavalink_track 1 "A" 1000))
    by (repeat split).
  split; [exact Hp|].
  apply (position_extrapolates_or_resets 900 Hp). vm_compute. congruence.
Defined.

(** * Reasoning about coroutines *)

(** [post m s Q]: the run of [m] from [s] ends in a result and a state
    that satisfy [Q]. *)
Definition post {A} (m : M A) (s : Player) (Q : Res A -> Player -> Prop)
    : Prop :=
  Q (fst (m s)) (snd (m s)).

Lemma post_ret {A} (a : A) s Q : Q (Ret a) s -> post (ret a) s Q.
Proof. exact (fun H => H). Qed.

Lemma post_raise {A} site e s (Q : Res A -> Player -> Prop) :
  Q (Raise site e) s -> post (raise site e) s Q.
Proof. exact (fun H => H). Qed.

Lemma post_get s Q : Q (Ret s) s -> post get s Q.
Proof. exact (fun H => H). Qed.

Lemma post_gets {A} (f : Player -> A) s Q : Q (Ret (f s)) s -> post (gets f) s Q.
Proof. exact (fun H => H). Qed.

Lemma post_modify f s Q : Q (Ret tt) (f s) -> post (modify f) s Q.
Proof. exact (fun H => H). Qed.

Lemma post_step s Q :
  Q (Ret (tick s)) (set_tick (S (tick s)) s) -> post step s Q.
Proof. exact (fun H => H). Qed.

Lemma post_bind {A B} (m : M A) (k : A -> M B) s Q :
  post m s (fun r s' =>
              match r with
              | Ret a => post (k a) s' Q
              | Raise site e => Q (Raise site e) s'
              end) ->
  post (bind m k) s Q.
Proof.
  unfold post, bind. destruct (m s) as [[a|site e] s']; exact (fun H => H).
Qed.

Lemma post_try_catch {A} (m : M A) h s Q :
  post m s (fun r s' =>
              match r with
              | Ret a => Q (Ret a) s'
              | Raise site e => post (h site e) s' Q
              end) ->
  post (try_catch m h) s Q.
Proof.
  unfold post, try_catch. destruct (m s) as [[a|site e] s']; exact (fun H => H).
Qed.

Lemma post_conseq {A} (m : M A) s (Q Q' : Res A -> Player -> Prop) :
  post m s Q -> (forall r s', Q r s' -> Q' r s') -> post m s Q'.
Proof. unfold post. auto. Qed.

(** Projections of updated records. *)
Ltac state_simpl :=
  cbn [unique_id is_partial id_ info_title author authors uri ytid sourceName
       sourceNameOrig is_stream duration track_loops autoplay temp_id
       original_id search_uri isrc related set_unique_id set_id_ set_duration
       set_track_loops set_temp_id set_related identifier is_available
       available retry_403 closing search_providers stats_players node
       current paused last_position last_update position_timestamp channel_id
       b_set_node b_set_current b_set_paused b_set_last_position
       b_set_last_update b_set_position_timestamp base queue played
       queue_autoplay failed_tracks autoplay_on keep_connected loop
       last_track locked is_previows_music is_closing auto_pause native_yt
       controller_mode retries_403 retries_general_errors last_channel
       text_channel idle_task new_node_task votes start_time idle_endtime
       tick trace set_base set_queue set_played set_queue_autoplay
       set_failed_tracks set_last_track set_locked set_is_previows_music
       set_auto_pause set_native_yt set_retries_403
       set_retries_general_errors set_last_channel set_text_channel
       set_idle_task set_new_node_task set_votes set_start_time
       set_idle_endtime set_tick set_trace set_node set_current set_paused
       set_last_position set_last_update set_position_timestamp fst snd
       r403_last_time r403_counter rg_counter rg_last_node rg_last_time
       new_retries_403 ss_track ss_tracks ss_tracks_ytsearch ss_exception
       exc_kind exc_msg ex_error ex_message ex_cause].

Ltac state_simpl_in H :=
  cbn [unique_id is_partial id_ info_title author authors uri ytid sourceName
       sourceNameOrig is_stream duration track_loops autoplay temp_id
       original_id search_uri isrc related set_unique_id set_id_ set_duration
       set_track_loops set_temp_id set_related identifier is_available
       available retry_403 closing search_providers stats_players node
       current paused last_position last_update position_timestamp channel_id
       b_set_node b_set_current b_set_paused b_set_last_position
       b_set_last_update b_set_position_timestamp base queue played
       queue_autoplay failed_tracks autoplay_on keep_connected loop
       last_track locked is_previows_music is_closing auto_pause native_yt
       controller_mode retries_403 retries_general_errors last_channel
       text_channel idle_task new_node_task votes start_time idle_endtime
       tick trace set_base set_queue set_played set_queue_autoplay
       set_failed_tracks set_last_track set_locked set_is_previows_music
       set_auto_pause set_native_yt set_retries_403
       set_retries_general_errors set_last_channel set_text_channel
       set_idle_task set_new_node_task set_votes set_start_time
       set_idle_endtime set_tick set_trace set_node set_current set_paused
       set_last_position set_last_update set_position_timestamp fst snd
       r403_last_time r403_counter rg_counter rg_last_node rg_last_time
       new_retries_403 ss_track ss_tracks ss_tracks_ytsearch ss_exception
       exc_kind exc_msg ex_error ex_message ex_cause] in H.

Lemma post_state {A} (m : M A) s s' Q : s = s' -> post m s' Q -> post m s Q.
Proof. intros ->. exact (fun H => H). Qed.

(** The state of the goal, with the projections of updated records
    computed. *)
Ltac state_norm :=
  lazymatch goal with
  | |- post ?m ?s ?Q =>
      let s' := eval cbn [unique_id is_partial id_ info_title author authors uri ytid sourceName
       sourceNameOrig is_stream duration track_loops autoplay temp_id
       original_id search_uri isrc related set_unique_id set_id_ set_duration
       set_track_loops set_temp_id set_related identifier is_available
       available retry_403 closing search_providers stats_players node
       current paused last_position last_update position_timestamp channel_id
       b_set_node b_set_current b_set_paused b_set_last_position
       b_set_last_update b_set_position_timestamp base queue played
       queue_autoplay failed_tracks autoplay_on keep_connected loop
       last_track locked is_previows_music is_closing auto_pause native_yt
       controller_mode retries_403 retries_general_errors last_channel
       text_channel idle_task new_node_task votes start_time idle_endtime
       tick trace set_base set_queue set_played set_queue_autoplay
       set_failed_tracks set_last_track set_locked set_is_previows_music
       set_auto_pause set_native_yt set_retries_403
       set_retries_general_errors set_last_channel set_text_channel
       set_idle_task set_new_node_task set_votes set_start_time
       set_idle_endtime set_tick set_trace set_node set_current set_paused
       set_last_position set_last_update set_position_timestamp fst snd
       r403_last_time r403_counter rg_counter rg_last_node rg_last_time
       new_retries_403 ss_track ss_tracks ss_tracks_ytsearch ss_exception
       exc_kind exc_msg ex_error ex_message ex_cause] in s in
      apply (@post_state _ m s s' Q eq_refl)
  | |- _ => idtac
  end.

(** In the goal, a projection of an updated state is replaced by its
    value; the equation used is checked on its own. *)
Ltac field_norm x :=
  let v := eval cbn [unique_id is_partial id_ info_title author authors uri ytid sourceName
       sourceNameOrig is_stream duration track_loops autoplay temp_id
       original_id search_uri isrc related set_unique_id set_id_ set_duration
       set_track_loops set_temp_id set_related identifier is_available
       available retry_403 closing search_providers stats_players node
       current paused last_position last_update position_timestamp channel_id
       b_set_node b_set_current b_set_paused b_set_last_position
       b_set_last_update b_set_position_timestamp base queue played
       queue_autoplay failed_tracks autoplay_on keep_connected loop
       last_track locked is_previows_music is_closing auto_pause native_yt
       controller_mode retries_403 retries_general_errors last_channel
       text_channel idle_task new_node_task votes start_time idle_endtime
       tick trace set_base set_queue set_played set_queue_autoplay
       set_failed_tracks set_last_track set_locked set_is_previows_music
       set_auto_pause set_native_yt set_retries_403
       set_retries_general_errors set_last_channel set_text_channel
       set_idle_task set_new_node_task set_votes set_start_time
       set_idle_endtime set_tick set_trace set_node set_current set_paused
       set_last_position set_last_update set_position_timestamp fst snd
       r403_last_time r403_counter rg_counter rg_last_node rg_last_time
       new_retries_403 ss_track ss_tracks ss_tracks_ytsearch ss_exception
       exc_kind exc_msg ex_error ex_message ex_cause] in x in
  tryif constr_eq v x then fail
  else (replace x with v by reflexivity).

Ltac goal_norm1 :=
  match goal with
  | |- context [base ?S] => field_norm (base S)
  | |- context [queue ?S] => field_norm (queue S)
  | |- context [played ?S] => field_norm (played S)
  | |- context [queue_autoplay ?S] => field_norm (queue_autoplay S)
  | |- context [failed_tracks ?S] => field_norm (failed_tracks S)
  | |- context [autoplay_on ?S] => field_norm (autoplay_on S)
  | |- context [keep_connected ?S] => field_norm (keep_connected S)
  | |- context [loop ?S] => field_norm (loop S)
  | |- context [last_track ?S] => field_norm (last_track S)
  | |- context [locked ?S] => field_norm (locked S)
  | |- context [is_previows_music ?S] => field_norm (is_previows_music S)
  | |- context [is_closing ?S] => field_norm (is_closing S)
  | |- context [auto_pause ?S] => field_norm (auto_pause S)
  | |- context [native_yt ?S] => field_norm (native_yt S)
  | |- context [controller_mode ?S] => field_norm (controller_mode S)
  | |- context [retries_403 ?S] => field_norm (retries_403 S)
  | |- context [retries_general_errors ?S] => field_norm (retries_general_errors S)
  | |- context [last_channel ?S] => field_norm (last_channel S)
  | |- context [text_channel ?S] => field_norm (text_channel S)
  | |- context [idle_task ?S] => field_norm (idle_task S)
  | |- context [new_node_task ?S] => field_norm (new_node_task S)
  | |- context [votes ?S] => field_norm (votes S)
  | |- context [start_time ?S] => field_norm (start_time S)
  | |- context [idle_endtime ?S] => field_norm (idle_endtime S)
  | |- context [tick ?S] => field_norm (tick S)
  | |- context [trace ?S] => field_norm (trace S)
  | |- context [node ?S] => field_norm (node S)
  | |- context [current ?S] => field_norm (current S)
  | |- context [paused ?S] => field_norm (paused S)
  | |- context [last_position ?S] => field_norm (last_position S)
  | |- context [last_update ?S] => field_norm (last_update S)
  | |- context [position_timestamp ?S] => field_norm (position_timestamp S)
  | |- context [channel_id ?S] => field_norm (channel_id S)
  end.

Ltac goal_norm := repeat goal_norm1.

Ltac simpl_hyps :=
  repeat match goal with
         | H : _ |- _ => progress state_simpl_in H
         end.

(** Equations between constructor terms are split. *)
Ltac inject_all :=
  repeat match goal with
         | H : ?a = ?a |- _ => clear H
         | H : _ :: _ = _ :: _ |- _ => injection H as ? ?; subst
         | H : Some _ = Some _ |- _ => injection H as ?; subst
         | H : (_, _) = (_, _) |- _ => injection H as ? ?; subst
         | H : MeVoice _ = MeVoice _ |- _ => injection H as ?; subst
         | H : inl _ = inl _ |- _ => injection H as ?; subst
         | H : inr _ = inr _ |- _ => injection H as ?; subst
         | H : true = false |- _ => discriminate H
         | H : false = true |- _ => discriminate H
         | H : None = Some _ |- _ => discriminate H
         | H : Some _ = None |- _ => discriminate H
         | H : [] = _ :: _ |- _ => discriminate H
         | H : _ :: _ = [] |- _ => discriminate H
         | H : ?x = ?a, H' : ?x = ?b |- _ => rewrite H in H'
         end.

(** A branch whose test contradicts what is known is dropped. *)
Ltac rewrite_into H :=
  repeat match goal with
         | Heq : ?x = _ |- _ =>
             tryif constr_eq Heq H then fail else rewrite Heq in H
         end.

Ltac prune H :=
  try solve
    [ exfalso; rewrite_into H;
      rewrite ?andb_false_r, ?andb_true_r, ?orb_false_r, ?orb_true_r in H;
      cbn in H; first [ discriminate H | congruence ] ].

(** One step of symbolic execution. *)
Ltac wp1 :=
  lazymatch goal with
  | |- post (bind _ _) _ _ => apply post_bind
  | |- post (try_catch _ _) _ _ => apply post_try_catch
  | |- post (ret _) _ _ => apply post_ret
  | |- post (raise _ _) _ _ => apply post_raise
  | |- post get _ _ => apply post_get
  | |- post (gets _) _ _ => apply post_gets
  | |- post (modify _) _ _ => apply post_modify; cbv beta iota; state_norm
  | |- post step _ _ => apply post_step; cbv beta iota; state_norm
  | |- post (when _ _) _ _ => unfold when
  | |- post (emit _) _ _ => unfold emit
  | |- post (spawn _) _ _ => unfold spawn
  | |- post (sleep _) _ _ => unfold sleep
  | |- post (write_locked _) _ _ => unfold write_locked
  | |- post set_command_log _ _ => unfold set_command_log
  | |- post cancel_new_node_task _ _ => unfold cancel_new_node_task
  | |- post cancel_idle_task _ _ => unfold cancel_idle_task
  | |- post (now _) _ _ => unfold now
  | |- post (me_state _) _ _ => unfold me_state
  | |- post (pool _) _ _ => unfold pool
  | |- post (wl _ _) _ _ => unfold wl
  | |- post (io _ _) _ _ => unfold io
  | |- post (io_guarded _ _) _ _ => unfold io_guarded
  | |- post (get_tracks _ _) _ _ => unfold get_tracks
  | |- post (if ?b then _ else _) _ _ =>
      let H := fresh "Hc" in
      destruct b eqn:H; state_simpl_in H;
      try (rewrite_into H; state_simpl_in H); inject_all; try prune H
  | |- post (match ?x with _ => _ end) _ _ =>
      let H := fresh "Hc" in
      destruct x eqn:H; state_simpl_in H;
      try (rewrite_into H; state_simpl_in H); inject_all; try prune H
  end; cbv beta iota.

Ltac wp := repeat wp1.

(** [keeps P m]: [m] preserves the property [P] of the state, whatever
    its result. *)
Definition keeps {A} (P : Player -> Prop) (m : M A) : Prop :=
  forall s, P s -> post m s (fun _ s' => P s').

(** A property of the state that does not look at the inherited
    attributes, the interaction count or the log. *)
Record Inert (P : Player -> Prop) : Prop := {
  inert_base : forall s b, P s -> P (set_base b s);
  inert_tick : forall s n, P s -> P (set_tick n s);
  inert_trace : forall s tr, P s -> P (set_trace tr s)
}.

(** * End of a track (claims C3 and C10) *)

(** The tracks of a list that are not the object [t]. *)
Definition others (t : Track) (l : list Track) : list Track :=
  filter (fun u => negb (unique_id u =? unique_id t)) l.

Lemma others_mutate t f l :
  (forall u, unique_id (f u) = unique_id u) ->
  others t (mutate_in (unique_id t) f l) = others t l.
Proof.
  intros Hf. unfold others, mutate_in. induction l as [|u l IH]; cbn; [easy|].
  destruct (unique_id u =? unique_id t) eqn:Hu.
  - rewrite Hf, Hu. cbn. exact IH.
  - rewrite Hu. cbn. now rewrite IH.
Qed.

Lemma others_self t l1 l2 : others t (l1 ++ t :: l2) = others t (l1 ++ l2).
Proof.
  unfold others. rewrite !filter_app. cbn. now rewrite Z.eqb_refl.
Qed.

(** Closing a goal left by the symbolic execution of [track_end]: the
    tests met on the way are in the hypotheses. *)
Ltac merge_eqs :=
  repeat match goal with
         | H : ?a = ?a |- _ => clear H
         | H : Some _ = Some _ |- _ => injection H as H; try subst
         | H : None = Some _ |- _ => discriminate H
         | H : Some _ = None |- _ => discriminate H
         | H : true = false |- _ => discriminate H
         | H : false = true |- _ => discriminate H
         | H : ?x = ?a, H' : ?x = ?b |- _ => rewrite H in H'
         end.

Ltac track_end_done :=
  goal_norm; merge_eqs;
  try solve
    [ repeat match goal with
             | H : loop _ = _ |- _ => rewrite H in *; clear H
             end;
      cbn [loop_is_current loop_is_queue negb] in *; zbool;
      first [ discriminate | congruence | lia | auto ]
    | match goal with
      | H : context [loop ?s] |- _ =>
          destruct (loop s); cbn in *; congruence
      end ].

Lemma track_end_returns s : fst (track_end s) = Ret tt.
Proof.
  change (post track_end s (fun r _ => r = Ret tt)).
  unfold track_end. wp; reflexivity.
Qed.

Lemma track_end_loop_current s t :
  last_track s = Some t -> loop s = LoopCurrent ->
  queue (snd (track_end s)) = t :: queue s.
Proof.
  intros Ht Hl.
  change (post track_end s (fun _ s' => queue s' = t :: queue s)).
  unfold track_end. wp; track_end_done.
Qed.

Lemma track_end_previous s t :
  last_track s = Some t -> loop s <> LoopCurrent ->
  is_previows_music s = true ->
  queue (snd (track_end s)) = deque_insert 1 t (queue s)
  /\ is_previows_music (snd (track_end s)) = false
  /\ last_track (snd (track_end s)) = Some t.
Proof.
  intros Ht Hl Hp.
  change (post track_end s (fun _ s' =>
            queue s' = deque_insert 1 t (queue s)
            /\ is_previows_music s' = false /\ last_track s' = Some t)).
  unfold track_end. wp; track_end_done.
Qed.

Lemma track_end_loops s t :
  last_track s = Some t -> loop s <> LoopCurrent ->
  is_previows_music s = false -> track_loops t <> 0 ->
  queue (snd (track_end s)) =
    decrement_loops t :: mutate_in (unique_id t) decrement_loops (queue s)
  /\ last_track (snd (track_end s)) = Some (decrement_loops t).
Proof.
  intros Ht Hl Hp Hn.
  change (post track_end s (fun _ s' =>
            queue s' = decrement_loops t
                         :: mutate_in (unique_id t) decrement_loops (queue s)
            /\ last_track s' = Some (decrement_loops t))).
  unfold track_end. wp; track_end_done.
  all: unfold mutate_track, deque_insert; goal_norm;
    rewrite Ht; cbn [mutate_opt firstn skipn app];
    rewrite Z.eqb_refl; auto.
Qed.

Lemma track_end_loop_queue s t :
  last_track s = Some t -> loop s = LoopQueue ->
  is_previows_music s = false -> track_loops t = 0 ->
  queue (snd (track_end s)) = queue s ++ [t].
Proof.
  intros Ht Hl Hp Hn.
  change (post track_end s (fun _ s' => queue s' = queue s ++ [t])).
  unfold track_end. wp; track_end_done.
Qed.

Lemma track_end_loop_off s t :
  last_track s = Some t -> loop s = LoopOff ->
  is_previows_music s = false -> track_loops t = 0 ->
  queue (snd (track_end s)) = queue s.
Proof.
  intros Ht Hl Hp Hn.
  change (post track_end s (fun _ s' => queue s' = queue s)).
  unfold track_end. wp; track_end_done.
Qed.

Lemma decrement_loops_id t : unique_id (decrement_loops t) = unique_id t.
Proof. reflexivity. Qed.

(** Whatever the branch, the other tracks of the queue keep their order. *)
Lemma track_end_others s t :
  last_track s = Some t ->
  others t (queue (snd (track_end s))) = others t (queue s).
Proof.
  intros Ht.
  destruct (loop_is_current (loop s)) eqn:Hc.
  { rewrite (track_end_loop_current s Ht) by (destruct (loop s); easy).
    apply (others_self t []). }
  assert (Hl : loop s <> LoopCurrent) by (destruct (loop s); easy).
  destruct (is_previows_music s) eqn:Hp.
  { destruct (track_end_previous s Ht Hl Hp) as (-> & _).
    unfold deque_insert. rewrite others_self. now rewrite firstn_skipn. }
  destruct (Z.eq_dec (track_loops t) 0) as [Hz|Hz].
  - destruct (loop s) eqn:Hloop; try congruence.
    + now rewrite (track_end_loop_off s Ht Hloop Hp Hz).
    + rewrite (track_end_loop_queue s Ht Hloop Hp Hz).
      rewrite others_self. now rewrite app_nil_r.
  - destruct (track_end_loops s Ht Hl Hp Hz) as (-> & _).
    change (decrement_loops t :: ?l) with ([] ++ decrement_loops t :: l).
    unfold others at 1. rewrite filter_app. cbn.
    rewrite Z.eqb_refl. cbn.
    apply (others_mutate t decrement_loops (queue s)). reflexivity.
Qed.


(** The play history. *)
Definition no_autoplay (l : list Track) : Prop :=
  Forall (fun t => autoplay t = false) l.

Lemma in_skipn {A} (x : A) n l : In x (skipn n l) -> In x l.
Proof.
  intros H. rewrite <- (firstn_skipn n l). apply in_or_app. now right.
Qed.

Lemma no_autoplay_ring_append n l t :
  no_autoplay l -> autoplay t = false -> no_autoplay (ring_append n l t).
Proof.
  intros Hl Ht. unfold ring_append, no_autoplay in *.
  rewrite Forall_forall in *. intros x Hx.
  apply in_skipn in Hx.
  apply in_app_or in Hx as [Hx|[<-|[]]]; auto.
Qed.

Lemma no_autoplay_mutate uid l :
  no_autoplay l -> no_autoplay (mutate_in uid decrement_loops l).
Proof.
  unfold no_autoplay, mutate_in. intros Hl.
  induction Hl as [|t l Ht Hl IH]; cbn; constructor; auto.
  now destruct (unique_id t =? uid).
Qed.

(** What [track_end] does to the history: one test decides. *)
Definition recorded (s : Player) (t : Track) : bool :=
  negb (loop_is_current (loop s)) && negb (is_previows_music s)
  && (track_loops t =? 0) && negb (loop_is_queue (loop s))
  && negb (autoplay t).

Lemma track_end_played s t :
  last_track s = Some t ->
  played (snd (track_end s)) =
    if recorded s t then ring_append 20 (played s) t
    else if negb (loop_is_current (loop s)) && negb (is_previows_music s)
            && negb (track_loops t =? 0)
         then mutate_in (unique_id t) decrement_loops (played s)
         else played s.
Proof.
  intros Ht. unfold recorded.
  change (post track_end s (fun _ s' =>
    played s' =
      if negb (loop_is_current (loop s)) && negb (is_previows_music s)
         && (track_loops t =? 0) && negb (loop_is_queue (loop s))
         && negb (autoplay t)
      then ring_append 20 (played s) t
      else if negb (loop_is_current (loop s)) && negb (is_previows_music s)
              && negb (track_loops t =? 0)
           then mutate_in (unique_id t) decrement_loops (played s)
           else played s)).
  unfold track_end. wp; goal_norm; merge_eqs;
    repeat match goal with
           | H : _ = true |- _ => rewrite H
           | H : _ = false |- _ => rewrite H
           | H : negb _ = _ |- _ => apply (f_equal negb) in H;
                                    rewrite negb_involutive in H; cbn in H
           end;
    try reflexivity.
Qed.

Lemma track_end_played_idle s :
  last_track s = None -> played (snd (track_end s)) = played s.
Proof.
  intros Ht.
  change (post track_end s (fun _ s' => played s' = played s)).
  unfold track_end. wp; goal_norm; merge_eqs; reflexivity.
Qed.

Lemma track_end_keeps_history s :
  no_autoplay (played s) -> no_autoplay (played (snd (track_end s))).
Proof.
  intros Hs. destruct (last_track s) as [t|] eqn:Ht.
  - rewrite (track_end_played s Ht).
    destruct (recorded s t) eqn:Hr.
    + apply no_autoplay_ring_append; [exact Hs|].
      unfold recorded in Hr. rewrite !andb_true_iff in Hr.
      destruct Hr as (_ & Ha). now destruct (autoplay t).
    + destruct (_ && _ && _)%bool; [apply no_autoplay_mutate|]; exact Hs.
  - now rewrite (track_end_played_idle s Ht).
Qed.
(** * Frame properties *)

Lemma keeps_ret {A} P (a : A) : keeps P (ret a).
Proof. intros s Hs. exact Hs. Qed.

Lemma keeps_raise {A} P site e : keeps P (@raise A site e).
Proof. intros s Hs. exact Hs. Qed.

Lemma keeps_get P : keeps P get.
Proof. intros s Hs. exact Hs. Qed.

Lemma keeps_gets {A} P (f : Player -> A) : keeps P (gets f).
Proof. intros s Hs. exact Hs. Qed.

Lemma keeps_modify P f : (forall s, P s -> P (f s)) -> keeps P (modify f).
Proof. intros Hf s Hs. exact (Hf s Hs). Qed.

Lemma keeps_bind {A B} P (m : M A) (k : A -> M B) :
  keeps P m -> (forall a, keeps P (k a)) -> keeps P (bind m k).
Proof.
  intros Hm Hk s Hs. apply post_bind.
  eapply post_conseq; [exact (Hm s Hs)|].
  intros [a|site e] s' Hs'; [exact (Hk a s' Hs') | exact Hs'].
Qed.

Lemma keeps_try_catch {A} P (m : M A) h :
  keeps P m -> (forall site e, keeps P (h site e)) -> keeps P (try_catch m h).
Proof.
  intros Hm Hh s Hs. apply post_try_catch.
  eapply post_conseq; [exact (Hm s Hs)|].
  intros [a|site e] s' Hs'; [exact Hs' | exact (Hh site e s' Hs')].
Qed.

(** The state read by [get] is only branched on: the continuation keeps
    [P] whatever it is. *)
Ltac keeps1 :=
  lazymatch goal with
  | |- keeps _ (bind _ _) => apply keeps_bind; [|intro]
  | |- keeps _ (try_catch _ _) => apply keeps_try_catch; [|intros ? ?]
  | |- keeps _ (ret _) => apply keeps_ret
  | |- keeps _ (raise _ _) => apply keeps_raise
  | |- keeps _ get => apply keeps_get
  | |- keeps _ (gets _) => apply keeps_gets
  | |- keeps _ (when ?b _) => unfold when
  | |- keeps _ (if ?b then _ else _) => destruct b
  | |- keeps _ (match ?x with _ => _ end) => destruct x
  end; cbv beta iota.

Ltac keeps_go := repeat keeps1.

Create HintDb keeps.

Section Frames.

Variable E : Env.
Variable P : Player -> Prop.
Hypothesis HP : Inert P.

Lemma keeps_step : keeps P step.
Proof. intros s Hs. apply (inert_tick HP), Hs. Qed.

Lemma keeps_emit e : keeps P (emit e).
Proof. apply keeps_modify. intros s Hs. apply (inert_trace HP), Hs. Qed.

Lemma keeps_set_base b : keeps P (modify (set_base b)).
Proof. apply keeps_modify. intros s Hs. apply (inert_base HP), Hs. Qed.

Hint Resolve keeps_step keeps_emit keeps_set_base : keeps.

Lemma keeps_now : keeps P (now E).
Proof. unfold now. keeps_go; auto with keeps. Qed.

Lemma keeps_sleep ms : keeps P (sleep ms).
Proof. unfold sleep. keeps_go; auto with keeps. Qed.

Lemma keeps_spawn t : keeps P (spawn t).
Proof. apply keeps_emit. Qed.

Lemma keeps_set_command_log : keeps P set_command_log.
Proof. apply keeps_emit. Qed.

Lemma keeps_cancel_new_node_task : keeps P cancel_new_node_task.
Proof. unfold cancel_new_node_task. keeps_go; auto with keeps. Qed.

Lemma keeps_me_state : keeps P (me_state E).
Proof. unfold me_state. keeps_go; auto with keeps. Qed.

Lemma keeps_pool : keeps P (pool E).
Proof. unfold pool. keeps_go; auto with keeps. Qed.

Lemma keeps_wl c : keeps P (wl E c).
Proof. unfold wl. keeps_go; auto with keeps. Qed.

Lemma keeps_io c : keeps P (io E c).
Proof. unfold io. keeps_go; auto with keeps. Qed.

Lemma keeps_io_guarded c : keeps P (io_guarded E c).
Proof. unfold io_guarded. keeps_go. apply keeps_io. Qed.

Lemma keeps_get_tracks q : keeps P (get_tracks E q).
Proof. unfold get_tracks. keeps_go; auto with keeps. Qed.

Hint Resolve keeps_now keeps_sleep keeps_spawn keeps_set_command_log
  keeps_cancel_new_node_task keeps_me_state keeps_pool keeps_wl keeps_io
  keeps_io_guarded keeps_get_tracks : keeps.

Lemma keeps_resolve_track t : keeps P (resolve_track E t).
Proof. unfold resolve_track. keeps_go; auto with keeps. Qed.

Lemma keeps_provider_loop providers t c :
  keeps P (provider_loop E providers t c).
Proof.
  revert c. induction providers as [|p rest IH]; intros c; cbn [provider_loop].
  - apply keeps_ret.
  - keeps_go; auto with keeps.
Qed.

Lemma keeps_position : keeps P (position E).
Proof. unfold position. keeps_go; auto with keeps. Qed.

Lemma keeps_get_start_pos t x : keeps P (get_start_pos E t x).
Proof. unfold get_start_pos. keeps_go; auto with keeps. Qed.

End Frames.

#[export] Hint Resolve keeps_step keeps_emit keeps_set_base keeps_now
  keeps_sleep keeps_spawn keeps_set_command_log keeps_cancel_new_node_task
  keeps_me_state keeps_pool keeps_wl keeps_io keeps_io_guarded
  keeps_get_tracks keeps_resolve_track keeps_provider_loop keeps_position
  keeps_get_start_pos : keeps.

(** * The lock around [process_next] (claim C1) *)

Lemma post_any {A} (m : M A) s : post m s (fun _ _ => True).
Proof. exact I. Qed.

(** A call whose result and final state do not matter for what follows. *)
Ltac wp_skip :=
  eapply post_conseq; [apply post_any|];
  cbv beta; intros [?|? ?] ? _.

(** Exceptions that leave [process_next] while it holds the lock: the
    two calls of lines 1599 and 1638, and an unbound node at lines 1569
    and 1621. *)
Definition raised_under_lock (site : Site) : bool :=
  match site with
  | AtIo (IoInvokeNp false) => true
  | AtIo (IoReport _) => true
  | AtLine n => (n =? 1569) || (n =? 1621)
  | _ => false
  end.

(** The lock at the end of a call that was entered unlocked. *)
Definition lock_post (r : Res Exit) (s' : Player) : Prop :=
  match r with
  | Ret XHandoff => locked s' = true
  | Ret XRefused | Ret XFailedAlt | Ret XOutOfFuel => True
  | Ret _ => locked s' = false
  | Raise site _ => raised_under_lock site = false -> locked s' = false
  end.

(** The play requests of the inherited class succeed; they leave the
    node alone and at most make the track current. *)
Definition play_succeeds (E : Env) : Prop :=
  forall n t start tmp b,
    fst (env_wl E n (WlPlay t start tmp) b) = None
    /\ node (snd (env_wl E n (WlPlay t start tmp) b)) = node b
    /\ (current (snd (env_wl E n (WlPlay t start tmp) b)) = None
        \/ current (snd (env_wl E n (WlPlay t start tmp) b)) = Some t).

Ltac use_play Hplay :=
  repeat match goal with
    | H : env_wl ?E ?n (WlPlay ?t ?st ?tmp) ?b = (?r, ?b') |- _ =>
        let P1 := fresh "P" in
        let P2 := fresh "P" in
        let P3 := fresh "P" in
        destruct (Hplay n t st tmp b) as (P1 & P2 & P3);
        rewrite H in P1, P2, P3; cbn [fst snd] in P1, P2, P3;
        clear H; try discriminate P1
    end.

Section Lock.

Variable E : Env.

Lemma pop_candidate_locked s :
  post pop_candidate s (fun r s' => locked s' = locked s /\ exists a, r = Ret a).
Proof.
  unfold pop_candidate. wp; goal_norm; eauto.
Qed.

Lemma get_autoqueue_tracks_unlocks s :
  locked s = false ->
  post (get_autoqueue_tracks E) s
    (fun r s' => match r with Ret _ => locked s' = false | Raise _ _ => True end).
Proof.
  intros Hs. unfold get_autoqueue_tracks.
  apply post_bind.
  eapply post_conseq; [apply pop_candidate_locked|].
  cbv beta. intros r s1 (Hl & a & ->). rewrite Hs in Hl.
  assert (Hpop : forall s0,
    post pop_candidate (set_locked false s0)
      (fun r s' => match r with Ret _ => locked s' = false | Raise _ _ => True end)).
  { intros s0. eapply post_conseq; [apply pop_candidate_locked|].
    cbv beta. intros r s2 (Hl2 & a2 & ->). exact Hl2. }
  repeat first
    [ wp1
    | match goal with
      | |- post (finalize _ _ _) _ _ => wp_skip; [|exact I]
      | |- post (search_loop _ _ _ _) _ _ => wp_skip; [|exact I]
      | |- post pop_candidate (set_locked false _) _ => apply Hpop
      end ];
    try assumption; try congruence; try exact I;
    try (goal_norm; reflexivity).
Qed.

(** What is assumed of the nested call [self.process_next()]. *)
Definition nested_spec (again : M Exit) : Prop :=
  forall s,
    post again s
      (fun r s' =>
         if locked s then s' = s /\ (r = Ret XRefused \/ r = Ret XOutOfFuel)
         else lock_post r s').

Section Nested.

Variable again : M Exit.
Hypothesis Hagain : nested_spec again.

(** The result of a phase of [process_next] that may end the call. *)
Definition phase_post {A} (held : bool) (r : Res (Cont A)) (s' : Player)
    : Prop :=
  match r with
  | Ret (Go _) => locked s' = held
  | Ret (Done x) => lock_post (Ret x) s'
  | Raise site e => lock_post (Raise site e) s'
  end.

Lemma nested_call s (Q : Res Exit -> Player -> Prop) :
  (locked s = true -> Q (Ret XRefused) s /\ Q (Ret XOutOfFuel) s) ->
  (locked s = false -> forall r s', lock_post r s' -> Q r s') ->
  post again s Q.
Proof.
  intros Hheld Hfree. specialize (Hagain s). unfold post in *.
  destruct (locked s).
  - destruct Hagain as (-> & [->| ->]); apply Hheld; reflexivity.
  - apply Hfree; [reflexivity | exact Hagain].
Qed.

(** Closing the goals left by the symbolic execution. *)
Ltac lock_leaf :=
  try exact I;
  try assumption;
  try (cbv [phase_post lock_post raised_under_lock]; cbv beta iota;
       try exact I; try assumption; intros;
       try discriminate;
       goal_norm; try reflexivity; try assumption; try congruence).

Ltac lock_again :=
  lazymatch goal with
  | |- post again _ _ =>
      apply nested_call;
      [ let H := fresh in intros H; state_simpl_in H;
        first [ discriminate H | split ]
      | intros _ [[]|? ?] ? ? ]
  end; cbv beta iota.

Ltac lock_wp tac := repeat first [ wp1 | lock_again | tac ].

Lemma pn_voice_locked s :
  post (pn_voice E) s
    (fun r s' => locked s' = locked s
                 /\ forall x, r = Ret (Done x) -> x = XNoVoice).
Proof.
  unfold pn_voice. wp; goal_norm; split; try reflexivity; congruence.
Qed.

Lemma pn_pick_lock clear_autoqueue s :
  locked s = false ->
  post (pn_pick E again clear_autoqueue) s (phase_post false).
Proof.
  intros Hs. unfold pn_pick.
  lock_wp ltac:(idtac;
    match goal with
    | |- post (get_autoqueue_tracks _) ?S _ =>
        eapply post_conseq;
        [ apply get_autoqueue_tracks_unlocks
        | cbv beta; intros [?|? ?] ? ? ]
    end).
  all: lock_leaf.
Qed.

Lemma inert_locked b : Inert (fun s => locked s = b).
Proof. split; intros; assumption. Qed.

Lemma resolve_track_locked t s :
  post (resolve_track E t) s (fun _ s' => locked s' = locked s).
Proof. apply (keeps_resolve_track E (inert_locked (locked s))). reflexivity. Qed.

Lemma provider_loop_returns providers t c s :
  post (provider_loop E providers t c) s
    (fun r s' => locked s' = locked s /\ exists a, r = Ret a).
Proof.
  revert c s. induction providers as [|p rest IH]; intros c s;
    cbn [provider_loop].
  - wp. eauto.
  - repeat first
      [ wp1
      | match goal with
        | |- post (provider_loop _ _ _ _) ?S _ =>
            eapply post_conseq; [apply IH|];
            cbv beta; intros ? ? (Hl & a & ->); rewrite Hl
        end ];
      goal_norm; eauto.
Qed.

Lemma pn_resolve_lock track s :
  locked s = true ->
  post (pn_resolve E again track) s (phase_post true).
Proof.
  intros Hs. unfold pn_resolve.
  lock_wp ltac:(idtac;
    match goal with
    | |- post (resolve_track _ _) ?S _ =>
        eapply post_conseq; [apply resolve_track_locked|];
        cbv beta;
        let H := fresh "Hl" in
        intros [?|? ?] ? H; state_simpl_in H; rewrite Hs in H
    end).
  all: lock_leaf.
Qed.

Lemma pn_lookup_lock track s :
  locked s = true ->
  post (pn_lookup E again track) s (phase_post true).
Proof.
  intros Hs. unfold pn_lookup.
  lock_wp ltac:(idtac;
    match goal with
    | |- post (provider_loop _ _ _ _) ?S _ =>
        eapply post_conseq; [apply provider_loop_returns|];
        cbv beta;
        let H := fresh "Hl" in
        intros ? ? (H & ? & ->); state_simpl_in H; rewrite Hs in H
    end).
  all: lock_leaf.
Qed.

End Nested.

Lemma pn_start_lock track temp start_position force_np clear_autoqueue s :
  post (pn_start E track temp start_position force_np clear_autoqueue) s
    (fun r s' => locked s' = false
                 /\ (r = Ret XAutoPaused \/ r = Ret XStarted
                     \/ exists site e, r = Raise site e)).
Proof.
  unfold pn_start. wp; goal_norm; split; try reflexivity; eauto.
Qed.

(** Every call of [process_next], nested or not: entered locked it
    changes nothing; entered unlocked it ends as [lock_post] says. *)
Lemma process_next_nested fuel :
  forall start_position force_np clear_autoqueue,
    nested_spec (process_next E fuel start_position force_np clear_autoqueue).
Proof.
  induction fuel as [|fuel IH]; intros start_position force_np clear_autoqueue s.
  - cbn [process_next]. wp. destruct (locked s); cbn; auto.
  - cbn [process_next].
    pose proof (IH 0 false true) as Hagain.
    destruct (locked s) eqn:Hs.
    + apply post_bind, post_get. cbv beta iota. rewrite Hs. cbn [orb].
      apply post_ret. auto.
    + repeat first
        [ wp1
        | match goal with
          | |- post (pn_voice _) ?S _ =>
              eapply post_conseq; [apply pn_voice_locked|];
              cbv beta;
              let H := fresh "Hl" in
              let H' := fresh "Hx" in
              intros [[?|?]|? ?] ? (H & H'); state_simpl_in H;
              rewrite Hs in H;
              try (rewrite (H' _ eq_refl)); clear H'
          | |- post (pn_pick _ _ _) ?S _ =>
              eapply post_conseq; [apply (pn_pick_lock Hagain)|];
              [ goal_norm; congruence
              | cbv beta; intros [[?|[? ?]]|? ?] ? ? ]
          | |- post (pn_resolve _ _ _) ?S _ =>
              eapply post_conseq; [apply (pn_resolve_lock Hagain)|];
              [ first [ goal_norm; reflexivity | assumption ]
              | cbv beta; intros [[?|?]|? ?] ? ? ]
          | |- post (pn_lookup _ _ _) ?S _ =>
              eapply post_conseq; [apply (pn_lookup_lock Hagain)|];
              [ first [ goal_norm; reflexivity | assumption ]
              | cbv beta; intros [[?|[? ?]]|? ?] ? ? ]
          | |- post (pn_start _ _ _ _ _ _) ?S _ =>
              eapply post_conseq; [apply pn_start_lock|];
              cbv beta; intros ? ? (? & [->|[->|(? & ? & ->)]])
          end ].
      all: try exact I; try assumption;
        try (cbv [phase_post lock_post raised_under_lock] in *;
             cbv beta iota in *; try exact I; try assumption; intros;
             try discriminate; goal_norm;
             try reflexivity; try assumption; try congruence).
Qed.

(** The writes to [locked] recorded in a log, oldest first. *)
Fixpoint lock_writes (tr : list Effect) : list bool :=
  match tr with
  | [] => []
  | ESetLocked b :: rest => lock_writes rest ++ [b]
  | _ :: rest => lock_writes rest
  end.

(** The play requests recorded in a log, oldest first. *)
Fixpoint play_requests (tr : list Effect) : list WlCall :=
  match tr with
  | [] => []
  | EWl (WlPlay t start temp) :: rest =>
      play_requests rest ++ [WlPlay t start temp]
  | _ :: rest => play_requests rest
  end.

(** Effects that move the session to another node. *)
Definition is_rotation (e : Effect) : bool :=
  match e with
  | EWl (WlChangeNode _) => true
  | ESpawn (TaskWaitNode _) => true
  | EMigratePeers => true
  | _ => false
  end.

Definition rotations (tr : list Effect) : list Effect := filter is_rotation tr.

(** A track that [process_next] can play as it is: it has a handle, and
    the alternative search for YouTube does not apply. *)
Definition playable (s : Player) (t : Track) : Prop :=
  truthy (id_ t) = true /\ (native_yt s = true \/ is_youtube t = false).

(** A session in which [process_next] reaches the queue. *)
Definition ready (s : Player) : Prop :=
  locked s = false /\ is_closing s = false
  /\ node_unavailable s = false
  /\ env_is_connected E (base s) = true
  /\ exists ch, env_me E (tick s) = MeVoice ch.

(** The head of the queue is playable: [process_next] takes the lock
    once, releases it once and asks the node to play that track. *)
Lemma process_next_plays_head fuel start_position force_np clear_autoqueue
    s t q :
  ready s -> queue s = t :: q -> playable s t ->
  post (process_next E (S fuel) start_position force_np clear_autoqueue) s
    (fun r s' =>
       queue s' = q /\ last_track s' = Some t /\ locked s' = false
       /\ is_previows_music s' = false
       /\ played s' = played s /\ loop s' = loop s
       /\ is_closing s' = is_closing s /\ native_yt s' = native_yt s
       /\ (play_succeeds E -> node (base s') = node (base s))
       /\ retries_general_errors s' = retries_general_errors s
       /\ rotations (trace s') = rotations (trace s)
       /\ lock_writes (trace s') = lock_writes (trace s) ++ [true; false]
       /\ (auto_pause s = false ->
           play_requests (trace s') =
             play_requests (trace s)
               ++ [WlPlay t (if is_stream t then 0 else start_position) None])
       /\ (r = Ret XStarted \/ r = Ret XAutoPaused
           \/ exists site e, r = Raise site e)).
Proof.
  intros (Hl & Hc & Hn & Hconn & ch & Hme) Hq (Hid & Hyt).
  assert (Hyt' : (negb (native_yt s) && is_youtube t)%bool = false)
    by (destruct Hyt as [-> | ->]; [reflexivity | apply andb_false_r]).
  clear Hyt.
  cbn [process_next]. unfold pn_voice, pn_pick, pn_resolve, pn_lookup, pn_start.
  wp.
  all: goal_norm;
    cbn [lock_writes play_requests rotations filter is_rotation];
    rewrite <- ?app_assoc; cbn [app];
    repeat split; try reflexivity; intros; try congruence; eauto.
  all: match goal with
       | Hplay : play_succeeds _ |- _ =>
           use_play Hplay; try (etransitivity; [eassumption | reflexivity])
       end.
Qed.

End Lock.

(** ** Claim C1 *)

(** A track of the node's kind whose handle is still to be looked up. *)
Definition unresolved : Track := set_id_ "" trackA.

(** The node answers every search with the error of line 1620. *)
Definition wrong_video_env : Env :=
  with_get_tracks (fun _ _ => inl (mkExc TrackLoadError wrong_video)) quiet_env.

Definition waiting : Player := set_queue [unresolved] new_player.


Lemma process_next_refused E fuel start_position force_np clear_autoqueue s :
  (locked s || is_closing s)%bool = true ->
  process_next E fuel start_position force_np clear_autoqueue s =
    (Ret (match fuel with O => XOutOfFuel | S _ => XRefused end), s).
Proof.
  intros H. destruct fuel as [|fuel]; [reflexivity|].
  cbn [process_next]. unfold bind, get. rewrite H. reflexivity.
Qed.



(** The exit of line 1559, for the record: with the alternative search
    for YouTube on ([native_yt] false), a stream taken from the queue is
    put among the failed tracks and the nested call is refused, since
    the lock is still held; the call returns with [locked] true. *)
Example alternative_search_exit_keeps_lock :
  let stream :=
    {| unique_id := 9; is_partial := false; id_ := "id";
       info_title := "live"; author := "artist"; authors := None;
       uri := "https://www.youtube.com/watch?v=live"; ytid := "live";
       sourceName := "youtube"; sourceNameOrig := None; is_stream := true;
       duration := 0; track_loops := 0; autoplay := false; temp_id := None;
       original_id := ""; search_uri := None; isrc := None;
       related := None |} in
  let s := set_native_yt false (set_queue [stream; trackB] new_player) in
  let r := process_next quiet_env 3 0 false true s in
  fst r = Ret XFailedAlt /\ locked (snd r) = true
  /\ queue (snd r) = [trackB] /\ current (base (snd r)) = None.
Proof. vm_compute. repeat split; reflexivity. Qed.

(** ** Claim C9 *)

Lemma hook_closing E fuel event s :
  is_closing s = true -> hook E fuel event s = (Ret tt, s).
Proof.
  intros H. unfold hook, bind, get. rewrite H. reflexivity.
Qed.

(** What reaches a session from outside: an event of the rendering node
    or a call of [process_next]. *)
Inductive Work : Type :=
| Deliver (fuel : nat) (event : Event)
| Advance (fuel : nat) (start_position : Z) (force_np clear_autoqueue : bool).

Definition work (E : Env) (w : Work) (s : Player) : Player :=
  match w with
  | Deliver fuel event => snd (hook E fuel event s)
  | Advance fuel start_position force_np clear_autoqueue =>
      snd (process_next E fuel start_position force_np clear_autoqueue s)
  end.

(** C9: once [is_closing] is true, the hook ignores every event, every
    call of [process_next] returns without a change, and so the state,
    [is_closing] included, stays what it is whatever is delivered
    afterwards. *)
Theorem closing_session_accepts_no_work E s :
  is_closing s = true ->
  (forall fuel event, hook E fuel event s = (Ret tt, s))
  /\ (forall fuel start_position force_np clear_autoqueue,
        snd (process_next E fuel start_position force_np clear_autoqueue s) = s
        /\ current (base (snd (process_next E fuel start_position force_np
                                 clear_autoqueue s))) = current (base s)
        /\ queue (snd (process_next E fuel start_position force_np
                         clear_autoqueue s)) = queue s)
  /\ (forall ws, fold_left (fun s w => work E w s) ws s = s).
Proof.
  intros H.
  assert (Hn : forall fuel sp fnp caq,
             snd (process_next E fuel sp fnp caq s) = s).
  { intros. rewrite process_next_refused; [reflexivity|].
    rewrite H. apply orb_true_r. }
  split; [|split].
  - intros. now apply hook_closing.
  - intros. rewrite Hn. auto.
  - induction ws as [|w ws IH]; [reflexivity|].
    cbn [fold_left]. destruct w; cbn [work].
    + rewrite hook_closing by exact H. exact IH.
    + rewrite Hn. exact IH.
Qed.

Lemma closing_session_accepts_no_work_witness :
  is_closing (set_queue [trackA] (set_is_closing_true new_player)) = true
  /\ hook quiet_env 3 (TrackEnd "N1" "id-A" "FINISHED")
       (set_queue [trackA] (set_is_closing_true new_player))
     = (Ret tt, set_queue [trackA] (set_is_closing_true new_player)).
Proof.
  split; [reflexivity|].
  apply (closing_session_accepts_no_work quiet_env
           (set_queue [trackA] (set_is_closing_true new_player))).
  reflexivity.
Defined.

(** ** Claim C7 *)

(** B plays after A; C waits in the queue. *)
Definition playing_B : Player :=
  set_current (Some trackB)
    (set_last_track (Some trackB)
       (set_played [trackA] (set_queue [trackC] new_player))).

(** C7, counterexample: the session plays B, after A, and is not locked.
    A second [TrackEnd] for A, reason FINISHED, is handled like a first
    one: B goes to the history, C becomes current, the queue is empty. *)
Lemma duplicate_track_end_counterexample :
  let event := TrackEnd "N1" (id_ trackA) "FINISHED" in
  let s' := snd (hook quiet_env 3 event playing_B) in
  current (base playing_B) = Some trackB
  /\ id_ trackA <> id_ trackB
  /\ current (base s') = Some trackC
  /\ queue s' = []
  /\ played s' = [trackA; trackB]
  /\ ~ (current (base s') = current (base playing_B)
        /\ queue s' = queue playing_B /\ played s' = played playing_B).
Proof.
  vm_compute. repeat split; try reflexivity; try discriminate.
  intros (H & _). discriminate H.
Qed.

(** The test the hook makes before it handles a [TrackEnd]: the session
    is closing, the event comes from another node, the session is locked
    or auto-paused, or the reason is neither FINISHED nor STOPPED with a
    non-empty queue. The track of the event is not part of it. *)
Definition track_end_ignored (origin reason : string) (s : Player) : bool :=
  is_closing s || other_node origin s || locked s || auto_pause s
  || negb (String.eqb reason "FINISHED"
           || (String.eqb reason "STOPPED" && nonempty (queue s))).

Lemma hook_track_end_ignored E fuel origin track reason s :
  track_end_ignored origin reason s = true ->
  post (hook E fuel (TrackEnd origin track reason)) s
    (fun r s' => r = Ret tt /\ current (base s') = current (base s)
                 /\ queue s' = queue s /\ played s' = played s).
Proof.
  unfold track_end_ignored. intros H.
  destruct (is_closing s) eqn:Hcl.
  { unfold post. rewrite (hook_closing E fuel _ s Hcl). cbn. auto. }
  destruct (other_node origin s) eqn:Hon, (locked s) eqn:Hlk,
    (auto_pause s) eqn:Hap, (String.eqb reason "FINISHED") eqn:Hf,
    (String.eqb reason "STOPPED") eqn:Hst, (nonempty (queue s)) eqn:Hq;
    cbn in H; try discriminate H;
    unfold hook, on_track_end; wp; goal_norm; auto.
Qed.

(** C7, amended: whether a [TrackEnd] is handled depends on the state
    of the session, the node of the event and its reason, never on the
    track the event refers to. The event changes neither [current] nor
    the queue nor the history when the session is closing, when the
    event comes from another node than the bound one, when the session
    is locked or auto-paused, and when the reason is neither FINISHED
    nor STOPPED with a non-empty queue. *)
Theorem track_end_event_ignored_by_state E fuel origin reason s :
  (forall t1 t2,
     hook E fuel (TrackEnd origin t1 reason) s =
     hook E fuel (TrackEnd origin t2 reason) s)
  /\ (track_end_ignored origin reason s = true ->
      forall track,
        let s' := snd (hook E fuel (TrackEnd origin track reason) s) in
        current (base s') = current (base s)
        /\ queue s' = queue s /\ played s' = played s).
Proof.
  split; [reflexivity|].
  intros H track.
  pose proof (hook_track_end_ignored E fuel origin track reason s H) as Hp.
  unfold post in Hp. cbv zeta. tauto.
Qed.

Lemma track_end_event_ignored_by_state_witness :
  track_end_ignored "N1" "FINISHED" (set_locked true playing_B) = true
  /\ queue (snd (hook quiet_env 3 (TrackEnd "N1" (id_ trackA) "FINISHED")
                   (set_locked true playing_B))) = [trackC].
Proof.
  split; [reflexivity|].
  apply (proj2 (track_end_event_ignored_by_state quiet_env 3 "N1" "FINISHED"
                  (set_locked true playing_B)) eq_refl (id_ trackA)).
Defined.

(** ** Claim C8 *)

Lemma websocket_closed_post E fuel code s :
  post (hook E fuel (WebsocketClosed code)) s
    (fun r s' =>
       rotations (trace s') = rotations (trace s)
       /\ (code = 1000 -> r = Ret tt /\ s' = s)
       /\ (in_codes code reconnect_codes = true ->
           is_closing s = false -> env_me E (tick s) <> MeNone ->
           r = Ret tt ->
           exists ch,
             hd_error (trace s') = Some (EWl (WlConnect ch))
             /\ last_channel s' = Some ch
             /\ (last_channel s = Some ch \/ exists n, env_me E n = MeVoice ch))
       /\ (code <> 1000 -> in_codes code reconnect_codes = false ->
           code <> 4014 -> is_closing s = false ->
           env_me E (tick s) <> MeNone -> r = Ret tt ->
           trace s' = EIo IoLogWarning :: trace s
           /\ base s' = base s /\ queue s' = queue s
           /\ locked s' = locked s /\ is_closing s' = is_closing s)).
Proof.
  unfold hook, on_websocket_closed.
  wp.
  all: goal_norm; cbn [rotations filter is_rotation hd_error];
    repeat split; intros; zbool;
    try congruence; try lia; try discriminate.
  all: try (eexists; repeat split; eauto; fail).
  all: subst;
    match goal with
    | H : in_codes _ _ = true |- _ => vm_compute in H; discriminate H
    end.
Qed.



(** ** Claim C4 *)

(** [self.current or self.last_track], the track of a [TrackException]. *)
Definition faulty (s : Player) : option Track :=
  match current (base s) with
  | Some t => Some t
  | None => last_track s
  end.

(** An exception of the 403 class: the tests of lines 754 and 789 give
    these values. *)
Definition is_403 (d : ExceptionData) : Prop :=
  network_or_unavailable d = (false, false) /\ blocked_or_403 d = (true, true).

(** The test of line 834: the sources for which the players are moved. *)
Definition moved_on_403 (E : Env) (track : Track) : bool :=
  is_source "youtube" track
  || (String.eqb (cfg_partialtrack_search_provider E) "ytsearch"
      && is_source "spotify" track).

(** A session that handles an exception of its own node for [track]. *)
Definition handles (s : Player) (nd : Node) (origin : string) (track : Track)
    : Prop :=
  is_closing s = false /\ locked s = false
  /\ node (base s) = Some nd /\ String.eqb origin (identifier nd) = true
  /\ faulty s = Some track.

Lemma longer_list_neq {A} (a b : A) l : a :: b :: l <> l.
Proof.
  intros H. apply (f_equal (@List.length A)) in H. cbn in H. lia.
Qed.

Lemma hook_403_counted E fuel origin d s nd track last c :
  play_succeeds E ->
  handles s nd origin track -> last_track s = Some track ->
  retry_403 nd = true -> is_403 d ->
  retries_403 s = Some (mkRetries403 (Some last) c) ->
  (env_now E (tick s) - last >? cfg_error_403_retries E * 1000) = false ->
  c < 3 ->
  post (hook E fuel (TrackException origin d)) s
    (fun r s' =>
       retries_403 s'
         = Some (mkRetries403 (Some (env_now E (S (S (tick s))))) (c + 1))
       /\ queue s' = queue s
       /\ rotations (trace s') = rotations (trace s)
       /\ (auto_pause s = false ->
           play_requests (trace s') = play_requests (trace s))
       /\ (r = Ret tt -> handles s' nd origin track)
       /\ last_track s' = Some track).
Proof.
  intros Hplay (Hcl & Hlk & Hnd & Hor & Hf) Hlast Hr (H1 & H2) Hret Hwin Hlt.
  unfold faulty in Hf. unfold handles, faulty.
  unfold hook, on_track_exception, retry_on_403, migrate_players,
    moved_on_403, get_start_pos.
  wp; use_play Hplay;
      goal_norm; rewrite ?Hret; cbn [r403_counter r403_last_time];
      cbn [rotations filter is_rotation play_requests lock_writes app];
      zbool; try lia;
      repeat split; intros; try reflexivity; try congruence;
      try match goal with
          | H : auto_pause ?s = false, H' : negb (auto_pause ?s) = false
            |- _ => rewrite H in H'; discriminate H'
          end.
  all: try (etransitivity; [eassumption | assumption]).
  all: match goal with
       | P : current ?b = None \/ current ?b = Some _ |- _ =>
           destruct P as [-> | ->]; [assumption | reflexivity]
       end.
Qed.

Lemma hook_403_first E fuel origin d s nd track :
  play_succeeds E ->
  handles s nd origin track -> last_track s = Some track ->
  retry_403 nd = true -> is_403 d ->
  (retries_403 s = None
   \/ exists c, retries_403 s = Some (mkRetries403 None c)) ->
  post (hook E fuel (TrackException origin d)) s
    (fun r s' =>
       retries_403 s'
         = Some (mkRetries403 (Some (env_now E (tick s))) 0)
       /\ queue s' = queue s
       /\ rotations (trace s') = rotations (trace s)
       /\ (auto_pause s = true ->
           play_requests (trace s') = play_requests (trace s))
       /\ (r = Ret tt -> handles s' nd origin track)
       /\ last_track s' = Some track).
Proof.
  intros Hplay (Hcl & Hlk & Hnd & Hor & Hf) Hlast Hr (H1 & H2) Hret.
  unfold faulty in Hf. unfold handles, faulty.
  unfold hook, on_track_exception, retry_on_403, migrate_players,
    moved_on_403, get_start_pos.
  destruct Hret as [Hret | (c & Hret)].
  all: wp; use_play Hplay;
      goal_norm; rewrite ?Hret; cbn [r403_counter r403_last_time];
      cbn [rotations filter is_rotation play_requests lock_writes app];
      zbool; try lia;
      repeat split; intros; try reflexivity; try congruence.
  all: try (etransitivity; [eassumption | assumption]).
  all: match goal with
       | P : current ?b = None \/ current ?b = Some _ |- _ =>
           destruct P as [-> | ->]; [assumption | reflexivity]
       end.
Qed.

Lemma hook_403_escalates E fuel origin d s nd track last c :
  handles s nd origin track -> retry_403 nd = true -> is_403 d ->
  retries_403 s = Some (mkRetries403 (Some last) c) ->
  (env_now E (tick s) - last >? cfg_error_403_retries E * 1000) = false ->
  3 <= c -> moved_on_403 E track = true ->
  post (hook E fuel (TrackException origin d)) s
    (fun r s' =>
       queue s' = queue s ++ [track]
       /\ retries_403 s' = Some (mkRetries403 None 0)
       /\ play_requests (trace s') = play_requests (trace s)
       /\ (closing nd = false -> r = Ret tt ->
           rotations (trace s') <> rotations (trace s))).
Proof.
  intros (Hcl & Hlk & Hnd & Hor & Hf) Hr (H1 & H2) Hret Hwin Hge Hmv.
  unfold faulty in Hf.
  unfold hook, on_track_exception, retry_on_403, migrate_players,
    moved_on_403, get_start_pos.
  unfold moved_on_403 in Hmv.
  destruct (current (base s)) eqn:Hcur; [injection Hf as ->|].
  all: wp;
      goal_norm; rewrite ?Hret; cbn [r403_counter r403_last_time];
      cbn [rotations filter is_rotation play_requests lock_writes app];
      zbool; try lia;
      repeat split; intros; try reflexivity; try congruence;
      try apply longer_list_neq.
Qed.

(** [n] deliveries of the same event, each handled to its end before
    the next one arrives. *)
Fixpoint deliver (E : Env) (fuel : nat) (ev : Event) (n : nat) : M unit :=
  match n with
  | O => ret tt
  | S k => deliver E fuel ev k ;; hook E fuel ev
  end.

(** All the readings of the clock lie within one window of
    [ERROR_403_RETRIES] seconds. *)
Definition burst (E : Env) : Prop :=
  forall i j, env_now E j - env_now E i <= cfg_error_403_retries E * 1000.

(** No window of retries is open. *)
Definition no_window (s : Player) : Prop :=
  retries_403 s = None \/ exists c, retries_403 s = Some (mkRetries403 None c).

(** The record of retries after [k] occurrences in the window. *)
Definition counted (E : Env) (k : nat) (s : Player) : Prop :=
  match k with
  | O => no_window s
  | S k' =>
      exists j,
        retries_403 s
          = Some (mkRetries403 (Some (env_now E j)) (Z.of_nat k'))
  end.

Lemma deliver_counted E fuel origin d s nd track n :
  play_succeeds E -> burst E -> retry_403 nd = true -> is_403 d ->
  handles s nd origin track -> last_track s = Some track -> no_window s ->
  (n <= 4)%nat ->
  post (deliver E fuel (TrackException origin d) n) s
    (fun r s' =>
       queue s' = queue s
       /\ rotations (trace s') = rotations (trace s)
       /\ (r = Ret tt ->
           handles s' nd origin track /\ last_track s' = Some track
           /\ counted E n s')).
Proof.
  intros Hplay Hburst Hr Hd Hh Hlast Hw.
  induction n as [|k IH]; intros Hle.
  - apply post_ret. repeat (split; [reflexivity|]). intros _. auto.
  - cbn [deliver]. apply post_bind.
    assert (Hk : (k <= 4)%nat) by lia.
    eapply post_conseq; [exact (IH Hk)|]. cbv beta.
    intros [[]|site e] s1 (Hq & Hrot & Hinv).
    2:{ repeat (split; [assumption|]). discriminate. }
    destruct (Hinv eq_refl) as (Hh1 & Hl1 & Hc1).
    destruct k as [|k'].
    + eapply post_conseq;
        [exact (@hook_403_first E fuel origin d s1 nd track
                  Hplay Hh1 Hl1 Hr Hd Hc1)|].
      cbv beta.
      intros r s2 (Hret & Hq2 & Hrot2 & _ & Hh2 & Hl2).
      repeat (split; [congruence|]). intros Hret2.
      repeat (split; [auto; fail|]).
      exists (tick s1). exact Hret.
    + destruct Hc1 as (j & Hc1).
      assert (Hwin : (env_now E (tick s1) - env_now E j
                        >? cfg_error_403_retries E * 1000) = false)
        by (specialize (Hburst j (tick s1)); zbool; lia).
      assert (Hlt : Z.of_nat k' < 3) by lia.
      eapply post_conseq;
        [exact (@hook_403_counted E fuel origin d s1 nd track _ _
                  Hplay Hh1 Hl1 Hr Hd Hc1 Hwin Hlt)|].
      cbv beta.
      intros r s2 (Hret & Hq2 & Hrot2 & _ & Hh2 & Hl2).
      repeat (split; [congruence|]). intros Hret2.
      repeat (split; [auto; fail|]).
      exists (S (S (tick s1))). rewrite Hret.
      do 2 f_equal. lia.
Qed.




(** ** Claim C5 *)

(** An exception of the decode and timeout class: the tests of lines
    754 and 789 fail and the one of line 875 holds. *)
Definition is_decode (d : ExceptionData) : Prop :=
  network_or_unavailable d = (false, false)
  /\ blocked_or_403 d = (false, false)
  /\ startswith (ex_cause d) decode_causes = true.

(** The test of line 893 on the record [r], the clock reading [t]. *)
Definition rotation_due (nd : Node) (r : RetriesGeneral) (t : Z) : bool :=
  (rg_counter r <? 1) && String.eqb (identifier nd) (rg_last_node r)
  && (t - rg_last_time r <? 180 * 1000).

Lemma hook_decode_rotates E fuel origin d s nd track r0 :
  handles s nd origin track -> is_decode d ->
  env_io E (tick s) (IoReport track) = None ->
  retries_general_errors s = Some r0 ->
  rotation_due nd r0 (env_now E (S (tick s))) = true ->
  post (hook E fuel (TrackException origin d)) s
    (fun r s' =>
       r = Ret tt
       /\ queue s' = track :: queue s
       /\ rotations (trace s')
            = ESpawn (TaskWaitNode (Some (identifier nd)))
                :: rotations (trace s)
       /\ play_requests (trace s') = play_requests (trace s)
       /\ retries_general_errors s' = Some r0
       /\ locked s' = true).
Proof.
  intros (Hcl & Hlk & Hnd & Hor & Hf) (H1 & H2 & H3) Hio Hret Hdue.
  unfold faulty in Hf. unfold rotation_due in Hdue.
  apply andb_prop in Hdue. destruct Hdue as [Hd1 Hd2].
  unfold hook, on_track_exception, recover, retry_general, get_start_pos.
  wp.
  all: goal_norm;
    cbn [rotations filter is_rotation play_requests lock_writes app];
    repeat split; try reflexivity; try congruence.
Qed.

(** The session is connected, the bot is in a voice channel and the
    reports of errors go through. *)
Definition calm (E : Env) (track : Track) : Prop :=
  (forall b, env_is_connected E b = true)
  /\ (forall n, exists ch, env_me E n = MeVoice ch)
  /\ (forall n, env_io E n (IoReport track) = None).

(** The record of line 902-907 after a local retry at clock reading [t]
    ([t'] is the second reading, of line 907). *)
Definition next_record (nd : Node) (r : RetriesGeneral) (t t' : Z)
    : RetriesGeneral :=
  if String.eqb (rg_last_node r) (identifier nd) then
    mkRetriesGeneral (rg_counter r - 1) (rg_last_node r) t
  else mkRetriesGeneral 6 (identifier nd) t'.

Lemma start_of_retry t (s1 s : Player) track :
  last_update (base s1) = last_update (base s) ->
  last_position (base s1) = last_position (base s) ->
  (if is_stream track then 0 else get_start_pos_at t s1 track 0)
    = get_start_pos_at t s track 0.
Proof.
  intros H1 H2. unfold get_start_pos_at. rewrite H1, H2.
  destruct (is_stream track); reflexivity.
Qed.

Lemma start_of_stream t (s : Player) track :
  negb (is_stream track) = false ->
  (if is_stream track then 0 else 0) = get_start_pos_at t s track 0.
Proof.
  intros H. unfold get_start_pos_at. rewrite H.
  destruct (is_stream track); reflexivity.
Qed.

Lemma hook_decode_retries E fuel origin d s nd track r0 :
  calm E track ->
  handles s nd origin track -> is_decode d ->
  is_available nd = true -> text_channel s = true ->
  playable s track ->
  retries_general_errors s = Some r0 ->
  rotation_due nd r0 (env_now E (S (tick s))) = false ->
  post (hook E (S fuel) (TrackException origin d)) s
    (fun r s' =>
       queue s' = queue s
       /\ rotations (trace s') = rotations (trace s)
       /\ (exists t t', retries_general_errors s'
                          = Some (next_record nd r0 t t'))
       /\ (auto_pause s = false ->
           exists n,
             play_requests (trace s')
               = play_requests (trace s)
                   ++ [WlPlay track
                         (get_start_pos_at (env_now E n) s track 0) None])).
Proof.
  intros (Hconn & Hme & Hio) (Hcl & Hlk & Hnd & Hor & Hf) (H1 & H2 & H3)
    Hav Htc Hpl Hret Hdue.
  unfold faulty in Hf. unfold rotation_due in Hdue.
  unfold hook, on_track_exception, recover, retry_general, get_start_pos.
  wp.
  all: try (exfalso;
            repeat match goal with
              | H : _ = true |- _ => rewrite H in Hdue
              end;
            discriminate Hdue).
  all: match goal with
       | |- post (process_next ?E0 (S ?f) ?sp ?a ?b) ?mid ?Q =>
           eapply post_conseq;
           [ apply (@process_next_plays_head E0 f sp a b mid track (queue s));
             [ unfold ready, node_unavailable; goal_norm;
               rewrite ?Hc0, ?Hav, ?Hconn;
               repeat (split; [first [reflexivity | assumption]|]);
               apply Hme
             | goal_norm; reflexivity
             | unfold playable in *; goal_norm; exact Hpl ]
           | cbv beta ]
       end.
  all: intros r1 s' (Hq & _ & _ & _ & _ & _ & _ & _ & _ & Hrg & Hrot & _ & Hplay & _);
    state_simpl_in Hrg; state_simpl_in Hrot; state_simpl_in Hplay;
    cbn [rotations filter is_rotation play_requests] in Hrot, Hplay.
  all: destruct r1; [apply post_ret|].
  all: (split; [exact Hq|]); (split; [exact Hrot|]); split.
  all: try match type of Hrg with
         | _ = Some {| rg_counter := _; rg_last_node := _;
                       rg_last_time := ?t |} =>
             exists t, t; unfold next_record;
             match goal with
             | H : String.eqb (rg_last_node _) _ = _ |- _ => rewrite H
             end;
             exact Hrg
         end.
  all: intros Hap; specialize (Hplay Hap); rewrite Hplay.
  all: match goal with
       | |- context [get_start_pos_at (env_now ?E0 ?k) (set_tick ?n ?S0) _ _] =>
           exists k;
           rewrite (@start_of_retry (env_now E0 k) (set_tick n S0) s track
                      eq_refl eq_refl);
           reflexivity
       | H : negb (is_stream _) = false |- _ =>
           exists O; rewrite <- (@start_of_stream (env_now E O) s _ H);
           reflexivity
       end.
Qed.

Lemma hook_decode_first E fuel origin d s nd track :
  calm E track ->
  handles s nd origin track -> is_decode d ->
  is_available nd = true -> text_channel s = true ->
  playable s track ->
  retries_general_errors s = None ->
  post (hook E (S fuel) (TrackException origin d)) s
    (fun r s' =>
       queue s' = queue s
       /\ rotations (trace s') = rotations (trace s)
       /\ (exists t,
             retries_general_errors s'
               = Some (mkRetriesGeneral 5 (identifier nd) t))
       /\ (auto_pause s = false ->
           exists n,
             play_requests (trace s')
               = play_requests (trace s)
                   ++ [WlPlay track
                         (get_start_pos_at (env_now E n) s track 0) None])).
Proof.
  intros (Hconn & Hme & Hio) (Hcl & Hlk & Hnd & Hor & Hf) (H1 & H2 & H3)
    Hav Htc Hpl Hret.
  unfold faulty in Hf.
  unfold hook, on_track_exception, recover, retry_general, get_start_pos.
  wp.
  all: try match goal with
           | H : String.eqb ?x ?x = false |- _ =>
               rewrite String.eqb_refl in H; discriminate H
           end.
  all: match goal with
       | |- post (process_next ?E0 (S ?f) ?sp ?a ?b) ?mid ?Q =>
           eapply post_conseq;
           [ apply (@process_next_plays_head E0 f sp a b mid track (queue s));
             [ unfold ready, node_unavailable; goal_norm;
               rewrite ?Hc0, ?Hav, ?Hconn;
               repeat (split; [first [reflexivity | assumption]|]);
               apply Hme
             | goal_norm; reflexivity
             | unfold playable in *; goal_norm; exact Hpl ]
           | cbv beta ]
       end.
  all: intros r1 s' (Hq & _ & _ & _ & _ & _ & _ & _ & _ & Hrg & Hrot & _ & Hplay & _);
    state_simpl_in Hrg; state_simpl_in Hrot; state_simpl_in Hplay;
    cbn [rotations filter is_rotation play_requests] in Hrot, Hplay.
  all: destruct r1; [apply post_ret|].
  all: (split; [exact Hq|]); (split; [exact Hrot|]); split.
  all: try (eexists; exact Hrg).
  all: intros Hap; specialize (Hplay Hap); rewrite Hplay.
  all: match goal with
       | |- context [get_start_pos_at (env_now ?E0 ?k) (set_tick ?n ?S0) _ _] =>
           exists k;
           rewrite (@start_of_retry (env_now E0 k) (set_tick n S0) s track
                      eq_refl eq_refl);
           reflexivity
       | H : negb (is_stream _) = false |- _ =>
           exists O; rewrite <- (@start_of_stream (env_now E O) s _ H);
           reflexivity
       end.
Qed.

(** The log asks the rendering layer to move the player to node [i]. *)
Definition changes_to (i : string) (e : Effect) : bool :=
  match e with
  | EWl (WlChangeNode j) => String.eqb j i
  | _ => false
  end.

Definition asked (i : string) (tr : list Effect) : bool :=
  existsb (changes_to i) tr.

Lemma in_insert_by_players x n l :
  In x (insert_by_players n l) -> x = n \/ In x l.
Proof.
  induction l as [|m rest IH]; cbn [insert_by_players].
  - intros [<- | []]. left. reflexivity.
  - destruct (_ <=? _).
    + intros [<- | H]; [right; left; reflexivity|].
      destruct (IH H) as [-> | H']; [left; reflexivity | right; right; exact H'].
    + intros [<- | H]; [left; reflexivity | right; exact H].
Qed.

Lemma in_sort_by_players x l : In x (sort_by_players l) -> In x l.
Proof.
  induction l as [|n rest IH]; cbn [sort_by_players fold_right]; [tauto|].
  intros H. destruct (in_insert_by_players _ _ _ H) as [-> | H'].
  - left. reflexivity.
  - right. apply IH, H'.
Qed.

Lemma eligible_not_ignored i all n :
  In n (eligible_nodes (Some i) all) ->
  String.eqb (identifier n) i = false /\ is_available n = true.
Proof.
  unfold eligible_nodes. intros H. apply in_sort_by_players in H.
  apply filter_In in H. destruct H as [_ H].
  apply andb_prop in H. destruct H as [Ha Hi].
  cbn [is_ignored] in Hi. split; [|exact Ha].
  destruct (String.eqb (identifier n) i); [discriminate Hi | reflexivity].
Qed.

Lemma wait_loop_avoids E fuel i s :
  asked i (trace s) = false ->
  post (wait_loop E fuel (Some i)) s (fun _ s' => asked i (trace s') = false).
Proof.
  revert s. induction fuel as [|fuel IH]; intros s Hs; cbn [wait_loop].
  - apply post_ret. exact Hs.
  - wp.
    all: try match goal with
         | H : eligible_nodes (Some ?j) ?all = ?n :: _ |- _ =>
             let Hn := fresh "Hn" in
             assert (Hn : String.eqb (identifier n) j = false)
               by (apply (@eligible_not_ignored j all n); rewrite H; left;
                   reflexivity)
         end.
    all: try (apply IH).
    all: goal_norm; cbn [asked existsb changes_to orb];
      rewrite ?Hn; cbn [orb]; try exact Hs.
Qed.

Lemma wait_for_new_node_avoids E fuel i s :
  asked i (trace s) = false ->
  post (wait_for_new_node E fuel (Some i)) s
    (fun _ s' => asked i (trace s') = false).
Proof.
  intros Hs. unfold wait_for_new_node. wp.
  apply wait_loop_avoids. goal_norm. cbn [asked existsb changes_to orb].
  exact Hs.
Qed.

Lemma get_start_pos_at_cases t s track :
  get_start_pos_at t s track 0
    = if negb (is_stream track)
         && (0 <? extrapolated t s)
         && (extrapolated t s <? duration track)
      then extrapolated t s else 0.
Proof.
  unfold get_start_pos_at, extrapolated.
  rewrite Z.add_0_r.
  destruct (negb (is_stream track)); [|reflexivity]. cbn [andb].
  destruct (0 <? _) eqn:H0; [|reflexivity]. cbn [andb].
  destruct (_ <? duration track) eqn:H1; [|reflexivity].
  zbool. lia.
Qed.

Definition error_decoder : ExceptionData :=
  {| ex_error := "Something broke when playing the track";
     ex_message := "Something broke when playing the track";
     ex_cause := "java.lang.IllegalStateException: Error from decoder" |}.

(** The clock of [quiet_env] moved ahead by [t0] milliseconds. *)
Definition later (t0 : Z) : Env :=
  with_now (fun n => t0 + 1000 * Z.of_nat n) quiet_env.

(** The session played A up to position [pos] at time [upd]; the record
    of the decode class has the counter [c] for N1 since time [since]. *)
Definition interrupted (pos upd c since : Z) : Player :=
  set_retries_general_errors (Some (mkRetriesGeneral c "N1" since))
    (set_last_position pos
       (set_last_update upd
          (set_last_track (Some trackA)
             (set_current (Some trackA) new_player)))).



(** ** Claim C6 *)

(** The test of line 1259, negated. *)
Definition long_enough (t : Track) : bool := negb (duration t <? 90000).

(** The seeds of lines 1254-1272: the first five entries of the history
    that are long enough, the last of them first. *)
Definition autoplay_sample (s : Player) : list Track :=
  rev (firstn 5 (filter long_enough (history_and_candidates s))).

Lemma sample_loop_firstn acc l :
  (List.length acc <= 5)%nat ->
  sample_loop acc l = firstn 5 (acc ++ filter long_enough l).
Proof.
  revert acc. induction l as [|t rest IH]; intros acc Hacc.
  - cbn [sample_loop filter]. rewrite app_nil_r.
    symmetry. apply firstn_all2. exact Hacc.
  - cbn [sample_loop filter]. unfold long_enough at 1.
    destruct (4 <? Z.of_nat (List.length acc)) eqn:Hfull.
    + zbool. rewrite firstn_app.
      replace (5 - List.length acc)%nat with O by lia.
      rewrite firstn_O, app_nil_r. symmetry. apply firstn_all2. lia.
    + zbool. destruct (duration t <? 90000); cbn [negb].
      * apply IH, Hacc.
      * rewrite IH by (rewrite length_app; cbn [List.length]; lia).
        rewrite <- app_assoc. reflexivity.
Qed.

Lemma sample_loop_sample s :
  (let sampled := sample_loop [] (history_and_candidates s) in
   if nonempty sampled then rev sampled else sampled) = autoplay_sample s.
Proof.
  cbv zeta. unfold autoplay_sample.
  rewrite sample_loop_firstn by (cbn; lia). cbn [app].
  destruct (firstn 5 _); reflexivity.
Qed.

(** The requests for related tracks recorded in a log. *)
Definition is_search (e : Effect) : bool :=
  match e with
  | EGetTracks _ | ESpotify _ => true
  | _ => false
  end.

Definition searches (tr : list Effect) : list Effect := filter is_search tr.

(** A request made from the seeds of [sample]. *)
Definition seeded (sample : list Track) (e : Effect) : Prop :=
  match e with
  | EGetTracks q =>
      exists t, In t sample
        /\ (q = related_query t
            \/ q = ("ytsearch:" ++ quote ++ author t ++ quote)%string)
  | ESpotify ids => ids = spotify_seed_ids sample
  | _ => True
  end.

(** While the search runs: the candidates are as they were at [s0], and
    every request made since comes from the seeds. *)
Definition searching (sample : list Track) (s0 s : Player) : Prop :=
  queue_autoplay s = queue_autoplay s0
  /\ exists new,
       searches (trace s) = new ++ searches (trace s0)
       /\ Forall (seeded sample) new.

Lemma searching_refl sample s : searching sample s s.
Proof. split; [reflexivity|]. exists []. split; [reflexivity | constructor]. Qed.

Lemma searching_tick sample s0 s n :
  searching sample s0 s -> searching sample s0 (set_tick n s).
Proof. exact (fun H => H). Qed.

Lemma searching_emit sample s0 s e :
  seeded sample e ->
  searching sample s0 s -> searching sample s0 (set_trace (e :: trace s) s).
Proof.
  intros He (Hq & new & Hn & Hf). split; [exact Hq|].
  cbn [trace set_trace searches filter].
  destruct (is_search e).
  - exists (e :: new). split.
    + unfold searches in Hn. rewrite Hn. reflexivity.
    + constructor; assumption.
  - exists new. split; assumption.
Qed.

Section Searching.

Variable E : Env.
Variable sample : list Track.
Variable s0 : Player.

Lemma searching_step : keeps (searching sample s0) step.
Proof. intros s Hs. apply searching_tick, Hs. Qed.

Lemma searching_emits e : seeded sample e -> keeps (searching sample s0) (emit e).
Proof. intros He s Hs. apply searching_emit; assumption. Qed.

Lemma searching_sleep ms : keeps (searching sample s0) (sleep ms).
Proof.
  unfold sleep. keeps_go;
    [apply searching_emits; exact I | apply searching_step].
Qed.

Lemma searching_log : keeps (searching sample s0) set_command_log.
Proof. apply searching_emits. exact I. Qed.

Lemma searching_get_tracks q :
  seeded sample (EGetTracks q) -> keeps (searching sample s0) (get_tracks E q).
Proof.
  intros Hq. unfold get_tracks. keeps_go;
    [apply searching_emits; exact Hq | apply searching_step].
Qed.

Lemma searching_recommend attempts exception :
  keeps (searching sample s0) (recommend E attempts (spotify_seed_ids sample) exception).
Proof.
  revert exception.
  induction attempts as [|k IH]; intros exception; cbn [recommend].
  - apply keeps_ret.
  - unfold spotify_recommendations. keeps_go;
      first [ apply searching_emits; reflexivity
            | apply searching_step
            | apply searching_log
            | apply searching_sleep
            | apply IH ].
Qed.

Lemma searching_partials items : keeps (searching sample s0) (partials_of_items E items).
Proof.
  induction items as [|i rest IH]; cbn [partials_of_items].
  - apply keeps_ret.
  - keeps_go; first [apply searching_step | apply IH].
Qed.

Lemma searching_search_loop seeds st :
  incl seeds sample -> keeps (searching sample s0) (search_loop E sample seeds st).
Proof.
  revert st. induction seeds as [|t rest IH]; intros st Hin;
    cbn [search_loop].
  - apply keeps_ret.
  - assert (Ht : In t sample) by (apply Hin; left; reflexivity).
    assert (Hrest : incl rest sample)
      by (intros x Hx; apply Hin; right; exact Hx).
    keeps_go;
      first [ apply searching_recommend
            | apply searching_partials
            | apply searching_sleep
            | apply searching_get_tracks; exists t; split; [exact Ht|];
              first [left; reflexivity | right; reflexivity]
            | apply IH; exact Hrest ].
Qed.

End Searching.

(** What lines 1401 and 1416-1429 leave of a result: [c] is kept for the
    seed [seed] that answered. *)
Definition candidate_of (sample : list Track) (seed c : Track) : Prop :=
  is_stream c = false /\ 90000 <= duration c
  /\ (forall u, In u sample -> String.prefix (uri u) (uri c) = false)
  /\ (truthy (ytid seed) = true -> ytid c <> ytid seed)
  /\ related c = Some (title seed, uri seed).

Lemma not_a_seed_prefix sample t u :
  not_a_seed sample t = true -> In u sample ->
  String.prefix (uri u) (uri t) = false.
Proof.
  unfold not_a_seed. intros H Hu.
  destruct (String.prefix (uri u) (uri t)) eqn:Hp; [|reflexivity].
  assert (Hex : existsb (fun u => String.prefix (uri u) (uri t)) sample = true)
    by (apply existsb_exists; exists u; split; assumption).
  rewrite Hex in H. discriminate H.
Qed.

Lemma keep_candidate_true seed t :
  keep_candidate seed t = true ->
  is_stream t = false /\ 90000 <= duration t
  /\ (truthy (ytid seed) = true -> ytid t <> ytid seed).
Proof.
  unfold keep_candidate. intros H.
  apply andb_prop in H. destruct H as [H H3].
  apply andb_prop in H. destruct H as [H1 H2].
  repeat split.
  - destruct (is_stream t); [discriminate H1 | reflexivity].
  - destruct (duration t <? 90000) eqn:Hd; [discriminate H2|]. zbool. lia.
  - intros Hy Heq. rewrite Hy, <- Heq, String.eqb_refl in H3.
    discriminate H3.
Qed.

Lemma finalize_post E sample seed tracks s :
  Forall (fun t => not_a_seed sample t = true) tracks ->
  post (finalize E seed tracks) s
    (fun r s' =>
       queue_autoplay s' = queue_autoplay s /\ trace s' = trace s
       /\ exists final,
            r = Ret final /\ Forall (candidate_of sample seed) final).
Proof.
  revert s. induction tracks as [|t rest IH]; intros s Hall;
    cbn [finalize].
  - apply post_ret. repeat split. exists []. split; [reflexivity|constructor].
  - inversion Hall as [|? ? Ht Hrest]; subst.
    destruct (keep_candidate seed t) eqn:Hk; [|apply IH, Hrest].
    destruct (keep_candidate_true _ _ Hk) as (K1 & K2 & K3).
    wp.
    all: (eapply post_conseq; [apply IH, Hrest|]); cbv beta;
      intros r s' (Hq & Htr & final & -> & Hf);
      apply post_ret; state_simpl_in Hq; state_simpl_in Htr;
      (split; [exact Hq|]); (split; [exact Htr|]);
      eexists; (split; [reflexivity|]);
      constructor; [|exact Hf];
      repeat split; try assumption;
      intros u Hu; apply (not_a_seed_prefix _ _ _ Ht Hu).
Qed.

(** [yields m R]: a result of [m] satisfies [R], whatever the state. *)
Definition yields {A} (m : M A) (R : A -> Prop) : Prop :=
  forall s, post m s (fun r _ => match r with Ret a => R a | Raise _ _ => True end).

Lemma yields_ret {A} (a : A) (R : A -> Prop) : R a -> yields (ret a) R.
Proof. intros H s. exact H. Qed.

Lemma yields_any {A} (m : M A) : yields m (fun _ => True).
Proof. intros s. unfold post. destruct (fst (m s)); exact I. Qed.

Lemma yields_bind {A B} (m : M A) (k : A -> M B) R1 R :
  yields m R1 -> (forall a, R1 a -> yields (k a) R) -> yields (bind m k) R.
Proof.
  intros Hm Hk s. apply post_bind.
  eapply post_conseq; [exact (Hm s)|].
  intros [a|site e] s' H; [exact (Hk a H s') | exact I].
Qed.

Lemma yields_try_catch {A} (m : M A) h (R : A -> Prop) :
  yields m R -> (forall site e, yields (h site e) R) ->
  yields (try_catch m h) R.
Proof.
  intros Hm Hh s. apply post_try_catch.
  eapply post_conseq; [exact (Hm s)|].
  intros [a|site e] s' H; [exact H | exact (Hh site e s')].
Qed.

Lemma post_both {A} (m : M A) s (Q1 Q2 : Res A -> Player -> Prop) :
  post m s Q1 -> post m s Q2 -> post m s (fun r s' => Q1 r s' /\ Q2 r s').
Proof. unfold post. auto. Qed.

(** The seed that answered is one of the seeds. *)
Definition answered_by (sample : list Track) (st : Search) : Prop :=
  forall tr, ss_track st = Some tr -> In tr sample.

Lemma search_loop_answered E sample seeds st :
  incl seeds sample -> answered_by sample st ->
  yields (search_loop E sample seeds st) (answered_by sample).
Proof.
  revert st. induction seeds as [|t rest IH]; intros st Hin Hst;
    cbn [search_loop].
  - apply yields_ret, Hst.
  - assert (Ht : answered_by sample
                   (mkSearch (Some t) (TList []) (TList []) None))
      by (intros tr [= <-]; apply Hin; left; reflexivity).
    assert (Hrest : incl rest sample)
      by (intros x Hx; apply Hin; right; exact Hx).
    apply yields_bind with (R1 := fun st1 => ss_track st1 = ss_track st).
    + destruct (_ && _); [|apply yields_ret; reflexivity].
      eapply yields_bind; [apply yields_any|]. intros [result exception] _.
      destruct result; try (apply yields_ret; reflexivity).
      * eapply yields_bind; [apply yields_any|]. intros ts _.
        apply yields_ret. reflexivity.
      * intros s. exact I.
    + intros st1 H1.
      assert (Hst1 : forall a b c,
                 answered_by sample (mkSearch (ss_track st1) a b c))
        by (intros a b c tr Htr; apply Hst; cbn in Htr; congruence).
      destruct (negb _); [|apply yields_ret; exact Ht].
      apply yields_try_catch.
      * eapply yields_bind; [apply yields_any|]. intros tracks _.
        apply yields_ret. exact Ht.
      * intros site e. destruct (mix_error e).
        -- apply yields_try_catch.
           ++ eapply yields_bind; [apply yields_any|]. intros yt _.
              apply yields_ret. exact Ht.
           ++ intros site' e'. apply IH; [exact Hrest | apply Hst1].
        -- eapply yields_bind; [apply yields_any|]. intros _ _.
           apply IH; [exact Hrest | apply Hst1].
Qed.

Lemma nonempty_rev {A} (l : list A) : nonempty (rev l) = nonempty l.
Proof.
  destruct l as [|a l]; [reflexivity|]. cbn [rev nonempty].
  destruct (rev l); reflexivity.
Qed.

Lemma sample_loop_nonempty s :
  nonempty (sample_loop [] (history_and_candidates s))
    = nonempty (autoplay_sample s).
Proof.
  unfold autoplay_sample. rewrite nonempty_rev.
  rewrite sample_loop_firstn by (cbn; lia). reflexivity.
Qed.

Lemma sample_loop_rev s :
  rev (sample_loop [] (history_and_candidates s)) = autoplay_sample s.
Proof.
  unfold autoplay_sample.
  rewrite sample_loop_firstn by (cbn; lia). reflexivity.
Qed.

Lemma filter_not_a_seed sample tracks :
  Forall (fun t => not_a_seed sample t = true)
    (filter (not_a_seed sample) tracks).
Proof. apply Forall_forall. intros t Ht. apply filter_In in Ht. tauto. Qed.

(** What a call with an empty buffer, not locked, ends in. *)
Definition autoqueue_post (s : Player) (r : Res (option Track))
    (s' : Player) : Prop :=
  (exists new,
      searches (trace s') = new ++ searches (trace s)
      /\ Forall (seeded (autoplay_sample s)) new)
  /\ match r with
     | Ret (Some c) =>
         exists seed final,
           In seed (autoplay_sample s)
           /\ Forall (candidate_of (autoplay_sample s) seed) final
           /\ c :: queue_autoplay s' = ring_extend 30 [] final
           /\ locked s' = false
     | Ret None => queue_autoplay s' = []
     | Raise _ _ => True
     end.

Lemma get_autoqueue_tracks_post E s :
  queue_autoplay s = [] -> locked s = false ->
  post (get_autoqueue_tracks E) s (autoqueue_post s).
Proof.
  intros Hq Hl. unfold get_autoqueue_tracks, pop_candidate.
  do 8 wp1. cbv zeta.
  assert (Hs : (if nonempty (sample_loop [] (history_and_candidates s))
                then rev (sample_loop [] (history_and_candidates s))
                else sample_loop [] (history_and_candidates s))
               = autoplay_sample s)
    by (rewrite <- sample_loop_rev; destruct (sample_loop _ _); reflexivity).
  rewrite !Hs. rewrite sample_loop_nonempty. clear Hs.
  set (sample := autoplay_sample s) in *.
  repeat first
    [ wp1
    | match goal with
      | |- post (search_loop ?E0 ?sm ?seeds ?st) ?mid _ =>
          eapply post_conseq;
          [ apply post_both;
            [ apply (@searching_search_loop E0 sm mid seeds st
                       (incl_refl _) mid (searching_refl sm mid))
            | apply (@search_loop_answered E0 sm seeds st (incl_refl _)
                       ltac:(intros tr H; discriminate H) mid) ]
          | ];
          cbv beta; intros [st'|site e] s1 [Hsearch Hans]
      | |- post (finalize ?E0 ?tr ?tracks) ?mid _ =>
          eapply post_conseq;
          [ apply (@finalize_post E0 sample tr _ mid
                     (filter_not_a_seed _ _)) | ];
          cbv beta; intros r s2 (Hqa & Htr & final & -> & Hfinal)
      end ].
  all: unfold autoqueue_post;
    try (destruct Hsearch as (Hqa1 & new & Hn & Hf);
         state_simpl_in Hqa1; state_simpl_in Hn;
         cbn [searches filter is_search] in Hn;
         fold (searches (trace s)) in Hn).
  all: split;
    [ goal_norm; cbn [searches filter is_search];
      rewrite ?Htr; fold (searches (trace s));
      first [ exists new; split; [exact Hn | exact Hf]
            | exists []; split; [reflexivity | constructor] ]
    | ].
  all: try exact I.
  all: goal_norm; rewrite ?Hqa in *; rewrite ?Hqa1 in *; rewrite ?Hc in *;
    try assumption; try reflexivity; try discriminate.
  all: match goal with
       | Ht : ss_track _ = Some ?t, H : ring_extend 30 [] ?f = _ |- _ =>
           exists t, f; repeat split;
           [ apply Hans, Ht | exact Hfinal | symmetry; exact H ]
       end.
Qed.

Lemma ring_append_in {A} n (l : list A) x y :
  In y (ring_append n l x) -> In y l \/ y = x.
Proof.
  unfold ring_append. intros H. apply in_skipn in H.
  apply in_app_or in H. destruct H as [H | [H | []]]; auto.
Qed.

Lemma ring_append_length {A} n (l : list A) x :
  (List.length l <= n)%nat -> (List.length (ring_append n l x) <= n)%nat.
Proof.
  unfold ring_append. intros H.
  rewrite length_skipn, length_app. cbn [List.length]. lia.
Qed.

Lemma ring_extend_in {A} n (xs l : list A) y :
  In y (ring_extend n l xs) -> In y l \/ In y xs.
Proof.
  unfold ring_extend. revert l.
  induction xs as [|x rest IH]; intros l; cbn [fold_left]; [auto|].
  intros H. destruct (IH _ H) as [H' | H'].
  - destruct (ring_append_in _ _ _ _ H') as [? | ->]; [auto|].
    right. left. reflexivity.
  - right. right. exact H'.
Qed.

Lemma ring_extend_length {A} n (xs l : list A) :
  (List.length l <= n)%nat -> (List.length (ring_extend n l xs) <= n)%nat.
Proof.
  unfold ring_extend. revert l.
  induction xs as [|x rest IH]; intros l H; cbn [fold_left]; [exact H|].
  apply IH, ring_append_length, H.
Qed.

(** A result of a search made for autoplay. *)
Definition suggestion (uid : Z) (name : string) (length : Z) (stream : bool)
    : Track :=
  {| unique_id := uid; is_partial := false; id_ := ("id-" ++ name)%string;
     info_title := name; author := "artist"; authors := None;
     uri := ("https://example.org/" ++ name)%string; ytid := "";
     sourceName := "soundcloud"; sourceNameOrig := None; is_stream := stream;
     duration := length; track_loops := 0; autoplay := true;
     temp_id := None; original_id := ""; search_uri := None; isrc := None;
     related := None |}.

(** The node answers every search with B, a clip of 60 seconds, a live
    stream and A itself. *)
Definition related_env : Env :=
  with_get_tracks
    (fun _ _ => inr (TList [suggestion 12 "B" 200000 false;
                            suggestion 13 "clip" 60000 false;
                            suggestion 14 "live" 0 true;
                            suggestion 11 "A" 200000 false]))
    quiet_env.

(** A session that has played A. *)
Definition played_A : Player := set_played [trackA] new_player.



(** ** Claim C3 *)

Lemma track_end_loop_queue_post s t :
  last_track s = Some t -> loop s = LoopQueue ->
  is_previows_music s = false -> track_loops t = 0 ->
  post track_end s
    (fun r s' =>
       r = Ret tt /\ queue s' = queue s ++ [t] /\ locked s' = false
       /\ is_closing s' = is_closing s /\ base s' = base s
       /\ loop s' = loop s /\ native_yt s' = native_yt s).
Proof.
  intros Ht Hl Hp Hn. unfold track_end. wp; track_end_done.
  all: goal_norm; repeat split; reflexivity.
Qed.

(** The connection to the voice channel holds. *)
Definition connected (E : Env) : Prop :=
  (forall b, env_is_connected E b = true)
  /\ (forall n, exists ch, env_me E n = MeVoice ch).

(** The queue is advanced, the track ends, and so once more. *)
Definition two_completions (E : Env) (fuel : nat) : M unit :=
  _ <- process_next E fuel 0 false true ;;
  track_end ;;
  _ <- process_next E fuel 0 false true ;;
  track_end.

Lemma node_unavailable_node s s' :
  node (base s') = node (base s) -> node_unavailable s' = node_unavailable s.
Proof. unfold node_unavailable. intros ->. reflexivity. Qed.

Lemma loop_queue_cycle E fuel s a b :
  play_succeeds E -> connected E ->
  locked s = false -> is_closing s = false -> node_unavailable s = false ->
  native_yt s = true -> loop s = LoopQueue -> queue s = [a; b] ->
  truthy (id_ a) = true -> truthy (id_ b) = true ->
  track_loops a = 0 -> track_loops b = 0 ->
  post (two_completions E (S fuel)) s
    (fun r s' =>
       match r with
       | Ret _ => queue s' = [a; b] /\ loop s' = LoopQueue
       | Raise _ _ => True
       end).
Proof.
  intros Hplay (Hconn & Hme) Hl Hc Hn Hyt Hloop Hq Ha Hb Hla Hlb.
  unfold two_completions.
  apply post_bind.
  eapply post_conseq.
  { apply (@process_next_plays_head E fuel 0 false true s a [b]).
    - repeat split; try assumption. apply Hconn. apply Hme.
    - exact Hq.
    - split; [exact Ha | left; exact Hyt]. }
  cbv beta.
  intros r1 s1 (Hq1 & Hlt1 & Hl1 & Hp1 & _ & Hloop1 & Hc1 & Hyt1 & Hn1 & _).
  destruct r1 as [x1|]; [|exact I].
  apply post_bind.
  eapply post_conseq.
  { apply (@track_end_loop_queue_post s1 a Hlt1); congruence. }
  cbv beta.
  intros r2 s2 (-> & Hq2 & Hl2 & Hc2 & Hb2 & Hloop2 & Hyt2).
  apply post_bind.
  eapply post_conseq.
  { apply (@process_next_plays_head E fuel 0 false true s2 b [a]).
    - split; [exact Hl2|]. split; [congruence|].
      split; [|split; [apply Hconn | apply Hme]].
      rewrite <- Hn. apply node_unavailable_node.
      rewrite Hb2. apply Hn1, Hplay.
    - rewrite Hq2, Hq1. reflexivity.
    - split; [exact Hb | left; congruence]. }
  cbv beta.
  intros r3 s3 (Hq3 & Hlt3 & Hl3 & Hp3 & _ & Hloop3 & _).
  destruct r3 as [x3|]; [|exact I].
  eapply post_conseq.
  { apply (@track_end_loop_queue_post s3 b Hlt3); congruence. }
  cbv beta.
  intros r4 s4 (-> & Hq4 & _ & _ & _ & Hloop4 & _).
  split; [rewrite Hq4, Hq3; reflexivity | congruence].
Qed.

(** C3, counterexample: T has two repeats left, the loop mode is off and
    the user went back to T ([is_previows_music]); B and C wait. When T
    ends it is put behind B, not at the head, and its counter is still
    2. *)
Lemma track_end_previous_counterexample :
  let t := set_track_loops 2 trackA in
  let s := set_is_previows_music true
             (set_last_track (Some t) (set_queue [trackB; trackC] new_player)) in
  loop s = LoopOff /\ 0 < track_loops t
  /\ queue (snd (track_end s)) = [trackB; t; trackC]
  /\ queue (snd (track_end s)) <> [decrement_loops t; trackB; trackC].
Proof. vm_compute. repeat split; try reflexivity; discriminate. Qed.

(** C3, amended: when [track_end] runs with [last_track = t]: in the
    loop mode "current", [t] is put at the head of the queue; else, if
    the user had gone back to [t], it is put at index 1 and nothing is
    counted; else, if the counter of repeats of [t] is not 0, it goes
    down by one and [t] is put at the head; else, in the loop mode
    "queue", [t] is appended; else the queue stays. In every case the
    other tracks of the queue keep their order. So, in the loop mode
    "queue" with the queue [a; b], neither with repeats left: once the
    queue was advanced and the track ended twice over, the queue is
    [a; b] again. *)
Theorem track_end_reinsertion s t :
  last_track s = Some t ->
  (loop s = LoopCurrent -> queue (snd (track_end s)) = t :: queue s)
  /\ (loop s <> LoopCurrent -> is_previows_music s = true ->
      queue (snd (track_end s)) = deque_insert 1 t (queue s)
      /\ is_previows_music (snd (track_end s)) = false)
  /\ (loop s <> LoopCurrent -> is_previows_music s = false ->
      track_loops t <> 0 ->
      queue (snd (track_end s))
        = decrement_loops t
            :: mutate_in (unique_id t) decrement_loops (queue s)
      /\ track_loops (decrement_loops t) = track_loops t - 1)
  /\ (loop s = LoopQueue -> is_previows_music s = false ->
      track_loops t = 0 ->
      queue (snd (track_end s)) = queue s ++ [t])
  /\ (loop s = LoopOff -> is_previows_music s = false ->
      track_loops t = 0 ->
      queue (snd (track_end s)) = queue s)
  /\ others t (queue (snd (track_end s))) = others t (queue s)
  /\ fst (track_end s) = Ret tt
  /\ (forall E fuel s0 a b,
        play_succeeds E -> connected E ->
        locked s0 = false -> is_closing s0 = false ->
        node_unavailable s0 = false -> native_yt s0 = true ->
        loop s0 = LoopQueue -> queue s0 = [a; b] ->
        truthy (id_ a) = true -> truthy (id_ b) = true ->
        track_loops a = 0 -> track_loops b = 0 ->
        post (two_completions E (S fuel)) s0
          (fun r s' =>
             match r with
             | Ret _ => queue s' = [a; b] /\ loop s' = LoopQueue
             | Raise _ _ => True
             end)).
Proof.
  intros Ht. repeat apply conj.
  - intros Hl. apply (track_end_loop_current s Ht Hl).
  - intros Hl Hp. destruct (track_end_previous s Ht Hl Hp) as (H1 & H2 & _).
    split; assumption.
  - intros Hl Hp Hn. destruct (track_end_loops s Ht Hl Hp Hn) as (H1 & _).
    split; [exact H1 | reflexivity].
  - intros Hl Hp Hn. apply (track_end_loop_queue s Ht Hl Hp Hn).
  - intros Hl Hp Hn. apply (track_end_loop_off s Ht Hl Hp Hn).
  - apply (track_end_others s Ht).
  - apply track_end_returns.
  - intros E fuel s0 a b. apply loop_queue_cycle.
Qed.

Lemma track_end_reinsertion_witness :
  let s0 := with_loop LoopQueue (set_queue [trackA; trackB] new_player) in
  post (two_completions quiet_env 1) s0
    (fun r s' =>
       match r with
       | Ret _ => queue s' = [trackA; trackB] /\ loop s' = LoopQueue
       | Raise _ _ => True
       end).
Proof.
  cbv zeta.
  refine (proj2 (proj2 (proj2 (proj2 (proj2 (proj2 (proj2
            (@track_end_reinsertion
               (set_last_track (Some trackA) new_player) trackA eq_refl)))))))
            quiet_env O
            (with_loop LoopQueue (set_queue [trackA; trackB] new_player))
            trackA trackB _ _ _ _ _ _ _ _ _ _ _ _);
    try reflexivity.
  - intros n t start tmp b. repeat split. right. reflexivity.
  - split; [reflexivity | intros n; exists 7; reflexivity].
Defined.
(** ** Claim C10 *)

(** The history holds no track made for autoplay. *)
Definition history_clean (s : Player) : Prop := no_autoplay (played s).

Lemma history_clean_inert : Inert history_clean.
Proof. split; intros; assumption. Qed.

Lemma history_clean_mutate uid s :
  history_clean s -> history_clean (mutate_track uid decrement_loops s).
Proof. intros H. apply (no_autoplay_mutate uid), H. Qed.

#[local] Hint Resolve history_clean_inert : keeps.

(** A step that does not write the history. *)
Ltac keeps_frame :=
  first [ apply keeps_modify; intros ? Hx; exact Hx
        | apply keeps_modify; intros ? Hx; apply history_clean_mutate, Hx
        | solve [eauto with keeps] ].

Ltac keeps_history := keeps_go; try keeps_frame.

Section History.

Variable E : Env.

Lemma keeps_track_end : keeps history_clean track_end.
Proof. intros s Hs. apply track_end_keeps_history, Hs. Qed.

Lemma keeps_pop_candidate : keeps history_clean pop_candidate.
Proof. unfold pop_candidate. keeps_history. Qed.

Lemma keeps_recommend attempts ids exception :
  keeps history_clean (recommend E attempts ids exception).
Proof.
  revert exception. induction attempts as [|k IH]; intros exception;
    cbn [recommend]; unfold spotify_recommendations; keeps_history.
Qed.

Lemma keeps_partials items : keeps history_clean (partials_of_items E items).
Proof.
  induction items as [|i rest IH]; cbn [partials_of_items]; keeps_history.
Qed.

Lemma keeps_search_loop ts seeds st :
  keeps history_clean (search_loop E ts seeds st).
Proof.
  revert st. induction seeds as [|t rest IH]; intros st; cbn [search_loop];
    keeps_history;
    first [apply keeps_recommend | apply keeps_partials].
Qed.

Lemma keeps_finalize tr tracks : keeps history_clean (finalize E tr tracks).
Proof.
  induction tracks as [|t rest IH]; cbn [finalize]; keeps_history.
Qed.

Lemma keeps_get_autoqueue_tracks :
  keeps history_clean (get_autoqueue_tracks E).
Proof.
  unfold get_autoqueue_tracks. cbv zeta. keeps_history;
    first [ apply keeps_pop_candidate | apply keeps_search_loop
          | apply keeps_finalize ].
Qed.

Lemma keeps_process_next fuel start_position force_np clear_autoqueue :
  keeps history_clean
    (process_next E fuel start_position force_np clear_autoqueue).
Proof.
  revert start_position force_np clear_autoqueue.
  induction fuel as [|fuel IH]; intros start_position force_np clear_autoqueue;
    cbn [process_next]; [apply keeps_ret|].
  unfold pn_voice, cancel_idle_task, pn_pick, pn_resolve, pn_lookup, pn_start,
    write_locked.
  keeps_history.
  all: first [ apply IH | apply keeps_get_autoqueue_tracks ].
Qed.

Lemma keeps_on_track_end fuel origin reason :
  keeps history_clean (on_track_end E fuel origin reason).
Proof.
  unfold on_track_end. keeps_history;
    first [apply keeps_track_end | apply keeps_process_next].
Qed.

Lemma keeps_on_track_start origin :
  keeps history_clean (on_track_start E origin).
Proof. unfold on_track_start. keeps_history. Qed.

Lemma keeps_on_track_exception fuel origin d :
  keeps history_clean (on_track_exception E fuel origin d).
Proof.
  unfold on_track_exception, recover, retry_general, retry_on_403,
    migrate_players, write_locked.
  keeps_history.
  all: apply keeps_process_next.
Qed.

Lemma keeps_on_websocket_closed code :
  keeps history_clean (on_websocket_closed E code).
Proof. unfold on_websocket_closed, write_locked. keeps_history. Qed.

Lemma keeps_on_track_stuck fuel : keeps history_clean (on_track_stuck E fuel).
Proof.
  unfold on_track_stuck, write_locked. keeps_history.
  all: try first [apply keeps_track_end | apply keeps_process_next].
Qed.

Lemma keeps_hook fuel event : keeps history_clean (hook E fuel event).
Proof.
  unfold hook. keeps_history.
  - apply keeps_on_track_end.
  - apply keeps_on_track_start.
  - apply keeps_on_track_exception.
  - apply keeps_on_websocket_closed.
  - apply keeps_on_track_stuck.
Qed.

Lemma keeps_wait_for_new_node fuel ignore_node :
  keeps history_clean (wait_for_new_node E fuel ignore_node).
Proof.
  unfold wait_for_new_node, write_locked. keeps_history.
  induction fuel as [|fuel IH]; cbn [wait_loop]; unfold write_locked;
    keeps_history.
Qed.

End History.

Lemma recorded_true s t :
  recorded s t = true ->
  loop s = LoopOff /\ is_previows_music s = false /\ track_loops t = 0
  /\ autoplay t = false.
Proof.
  unfold recorded. intros H.
  repeat (apply andb_prop in H; destruct H as [H ?]).
  repeat split.
  - destruct (loop s); first [reflexivity | discriminate].
  - destruct (is_previows_music s); first [reflexivity | discriminate].
  - zbool. assumption.
  - destruct (autoplay t); first [reflexivity | discriminate].
Qed.

(** C10: the history is empty at first; [track_end] appends the track
    that ended only when the loop mode is off, the track was not reached
    by going back, its counter of repeats is 0 and it was not made for
    autoplay, and changes nothing else of the history but the counters
    of repeats; so a history without tracks made for autoplay stays so
    through [track_end], through every event handled by [hook], through
    [process_next] and through the wait for another node. *)
Theorem history_never_records_autoplay E s :
  history_clean new_player
  /\ (forall t,
        last_track s = Some t ->
        (recorded s t = true ->
         played (snd (track_end s)) = ring_append 20 (played s) t
         /\ loop s = LoopOff /\ is_previows_music s = false
         /\ track_loops t = 0 /\ autoplay t = false)
        /\ (recorded s t = false ->
            played (snd (track_end s)) = played s
            \/ played (snd (track_end s))
                 = mutate_in (unique_id t) decrement_loops (played s)))
  /\ (last_track s = None -> played (snd (track_end s)) = played s)
  /\ (history_clean s ->
      history_clean (snd (track_end s))
      /\ (forall fuel event, history_clean (snd (hook E fuel event s)))
      /\ (forall fuel start_position force_np clear_autoqueue,
            history_clean
              (snd (process_next E fuel start_position force_np
                      clear_autoqueue s)))
      /\ (forall fuel ignore_node,
            history_clean (snd (wait_for_new_node E fuel ignore_node s)))).
Proof.
  split; [constructor|]. split; [|split].
  - intros t Ht. rewrite (track_end_played s Ht). split; intros Hr; rewrite Hr.
    + split; [reflexivity | apply recorded_true, Hr].
    + destruct (_ && _ && _)%bool; [right | left]; reflexivity.
  - apply track_end_played_idle.
  - intros Hs. split; [apply track_end_keeps_history, Hs|].
    split; [|split].
    + intros fuel event. exact (keeps_hook E fuel event Hs).
    + intros fuel sp f c. exact (keeps_process_next E fuel sp f c Hs).
    + intros fuel i. exact (keeps_wait_for_new_node E fuel i Hs).
Qed.

(** A track made for autoplay ends, the loop mode off: the history stays
    empty. *)
Lemma history_never_records_autoplay_witness :
  let s := set_last_track (Some (suggestion 12 "B" 200000 false)) new_player in
  history_clean s
  /\ history_clean (snd (hook quiet_env 2 (TrackStuck "N1" "id-B") s))
  /\ played (snd (track_end s)) = [].
Proof.
  cbv zeta.
  set (s := set_last_track (Some (suggestion 12 "B" 200000 false)) new_player).
  assert (Hs : history_clean s) by constructor.
  split; [exact Hs|]. split.
  - exact (proj1 (proj2 (proj2 (proj2 (proj2
             (history_never_records_autoplay quiet_env s))) Hs))
             2%nat (TrackStuck "N1" "id-B")).
  - destruct (proj1 (proj2 (history_never_records_autoplay quiet_env s))
                (suggestion 12 "B" 200000 false) eq_refl) as [_ H].
    destruct (H eq_refl) as [-> | ->]; reflexivity.
Defined.
(** * Further properties of the player *)

(** ** [get_start_pos] *)

(** The position a retry starts from is never negative and, unless it
    is 0, lies before the end of the track. *)
Theorem get_start_pos_in_track t s track extra_milliseconds :
  0 <= get_start_pos_at t s track extra_milliseconds
  /\ (get_start_pos_at t s track extra_milliseconds = 0
      \/ get_start_pos_at t s track extra_milliseconds < duration track).
Proof.
  unfold get_start_pos_at.
  destruct (negb (is_stream track)); [|split; [lia | left; reflexivity]].
  destruct (0 <? _) eqn:H0; cbn [andb]; [|split; [lia | left; reflexivity]].
  destruct (_ <? duration track) eqn:H1; [|split; [lia | left; reflexivity]].
  zbool. split; [lia | right; lia].
Qed.

(** ** The seeds of the Spotify recommendations *)

Lemma firstn_in {A} n (l : list A) x : In x (firstn n l) -> In x l.
Proof.
  intros H. rewrite <- (firstn_skipn n l). apply in_or_app. left. exact H.
Qed.

Lemma firstn_nodup {A} n (l : list A) : NoDup l -> NoDup (firstn n l).
Proof.
  intros H. rewrite <- (firstn_skipn n l) in H.
  apply NoDup_app_remove_r in H. exact H.
Qed.

(** Line 1279: at most five ids are sent, no id twice, and each is the
    [original_id] of a sampled track of the Spotify source. *)
Theorem spotify_seed_ids_bounded tracks_search :
  (List.length (spotify_seed_ids tracks_search) <= 5)%nat
  /\ NoDup (spotify_seed_ids tracks_search)
  /\ (forall i, In i (spotify_seed_ids tracks_search) ->
        exists t, In t tracks_search /\ is_source "spotify" t = true
                  /\ original_id t = i).
Proof.
  unfold spotify_seed_ids. split; [|split].
  - rewrite length_firstn. lia.
  - apply firstn_nodup, NoDup_nodup.
  - intros i Hi. apply firstn_in in Hi. apply nodup_In in Hi.
    apply in_map_iff in Hi. destruct Hi as (t & <- & Ht).
    apply filter_In in Ht. exists t. tauto.
Qed.

(** ** The choice of another node *)

Lemma insert_by_players_in n l x :
  x = n \/ In x l -> In x (insert_by_players n l).
Proof.
  induction l as [|m rest IH]; cbn [insert_by_players].
  - intros [-> | []]. left. reflexivity.
  - destruct (_ <=? _).
    + intros [-> | [-> | H]].
      * right. apply IH. left. reflexivity.
      * left. reflexivity.
      * right. apply IH. right. exact H.
    + intros [-> | H]; [left; reflexivity | right; exact H].
Qed.

Lemma sort_by_players_in l x : In x l -> In x (sort_by_players l).
Proof.
  induction l as [|n rest IH]; cbn [sort_by_players fold_right]; [tauto|].
  intros [-> | H]; apply insert_by_players_in; [left; reflexivity|].
  right. apply IH, H.
Qed.

Lemma insert_by_players_sorted n l :
  StronglySorted (fun a b => stats_players a <= stats_players b) l ->
  StronglySorted (fun a b => stats_players a <= stats_players b)
    (insert_by_players n l).
Proof.
  induction 1 as [|m rest Hs IH Hm]; cbn [insert_by_players].
  - repeat constructor.
  - destruct (stats_players m <=? stats_players n) eqn:Hle; zbool.
    + constructor; [exact IH|].
      apply Forall_forall. intros x Hx.
      apply in_insert_by_players in Hx. destruct Hx as [-> | Hx]; [lia|].
      rewrite Forall_forall in Hm. apply Hm, Hx.
    + constructor; [constructor; assumption|].
      constructor; [lia|].
      apply Forall_forall. intros x Hx.
      rewrite Forall_forall in Hm. specialize (Hm x Hx). lia.
Qed.

Lemma sort_by_players_sorted l :
  StronglySorted (fun a b => stats_players a <= stats_players b)
    (sort_by_players l).
Proof.
  induction l as [|n rest IH]; cbn [sort_by_players fold_right].
  - constructor.
  - apply insert_by_players_sorted, IH.
Qed.



(** ** [track_end] *)

Lemma length_deque_insert {A} i (x : A) l :
  List.length (deque_insert i x l) = S (List.length l).
Proof.
  unfold deque_insert. rewrite length_app. cbn [List.length].
  rewrite <- (firstn_skipn i l) at 3. rewrite length_app. lia.
Qed.

Lemma length_mutate_in uid f l :
  List.length (mutate_in uid f l) = List.length l.
Proof. apply length_map. Qed.

(** Whatever the branch taken, [track_end] returns, with the votes
    cleared and the lock taken once and released; it leaves the bound
    node alone and puts at most one track into the queue, taking none
    out. *)
Theorem track_end_releases_lock s :
  post track_end s
    (fun r s' =>
       r = Ret tt /\ locked s' = false /\ votes s' = []
       /\ node (base s') = node (base s)
       /\ is_closing s' = is_closing s
       /\ lock_writes (trace s') = lock_writes (trace s) ++ [true; false]
       /\ (List.length (queue s) <= List.length (queue s')
           <= S (List.length (queue s)))%nat).
Proof.
  unfold track_end. wp.
  all: unfold mutate_track; goal_norm; cbn [lock_writes];
    rewrite <- ?app_assoc; cbn [app];
    rewrite ?length_deque_insert, ?length_mutate_in, ?length_app;
    cbn [List.length];
    repeat split; try reflexivity; lia.
Qed.

(** ** The start of a track *)

(** Lines 670-711. An event of another node changes nothing. For the
    bound node the time of the start is taken from the clock first;
    then, with a current track that was not made for autoplay, the
    buffer of candidates is emptied, and with none the handler raises
    [AttributeError]. The queue, the history and the lock are left
    alone. *)
Theorem track_start_clears_candidates E fuel origin track s :
  is_closing s = false ->
  (other_node origin s = true ->
     hook E fuel (TrackStart origin track) s = (Ret tt, s))
  /\ (other_node origin s = false ->
      post (hook E fuel (TrackStart origin track)) s
        (fun r s' =>
           start_time s' = env_now E (tick s)
           /\ queue s' = queue s /\ played s' = played s
           /\ locked s' = locked s /\ base s' = base s
           /\ match current (base s) with
              | Some cur =>
                  queue_autoplay s'
                    = (if autoplay cur then queue_autoplay s else [])
              | None =>
                  r = Raise (AtLine 677) attribute_error
                  /\ queue_autoplay s' = queue_autoplay s
              end)).
Proof.
  intros Hc. split.
  - intros Ho. unfold hook, on_track_start, bind, get. rewrite Hc, Ho.
    reflexivity.
  - intros Ho. unfold hook, on_track_start. wp.
    all: goal_norm; repeat split; try reflexivity; try congruence.
    all: match goal with
         | H : negb (autoplay ?t) = _ |- _ =>
             destruct (autoplay t); first [reflexivity | discriminate H]
         end.
Qed.

Lemma track_start_clears_candidates_witness :
  post (hook quiet_env 1 (TrackStart "N1" "id-A"))
    (set_queue_autoplay [suggestion 12 "B" 200000 false] playing_A)
    (fun r s' => queue_autoplay s' = []).
Proof.
  eapply post_conseq.
  - apply (proj2 (@track_start_clears_candidates quiet_env 1 "N1" "id-A"
                    (set_queue_autoplay [suggestion 12 "B" 200000 false]
                       playing_A) eq_refl)).
    reflexivity.
  - cbv beta. intros r s' (_ & _ & _ & _ & _ & H). exact H.
Defined.

(** ** Exceptions that are only reported *)

(** Lines 734-743: an exception of another node, or one that arrives
    while the session is locked, is reported and nothing else: the
    queue, the inherited attributes, the lock and the records of retries
    stay, nothing is played and no other node is asked for. *)
Theorem exception_only_reported E fuel origin d s nd track :
  is_closing s = false -> node (base s) = Some nd ->
  faulty s = Some track ->
  String.eqb origin (identifier nd) = false \/ locked s = true ->
  post (hook E fuel (TrackException origin d)) s
    (fun r s' =>
       queue s' = queue s /\ base s' = base s /\ locked s' = locked s
       /\ last_track s' = last_track s
       /\ retries_403 s' = retries_403 s
       /\ retries_general_errors s' = retries_general_errors s
       /\ play_requests (trace s') = play_requests (trace s)
       /\ rotations (trace s') = rotations (trace s)
       /\ hd_error (trace s') = Some (EIo (IoReport track))).
Proof.
  intros Hc Hn Hf Hcase. unfold faulty in Hf.
  unfold hook, on_track_exception.
  destruct Hcase as [Ho | Hl].
  - wp.
    all: goal_norm; cbn [play_requests rotations filter is_rotation hd_error];
      repeat split; reflexivity.
  - wp.
    all: goal_norm; cbn [play_requests rotations filter is_rotation hd_error];
      repeat split; first [reflexivity | congruence].
Qed.

Lemma exception_only_reported_witness :
  post (hook quiet_env 1 (TrackException "N2" error_403)) playing_youtube
    (fun r s' =>
       queue s' = queue playing_youtube /\ base s' = base playing_youtube).
Proof.
  eapply post_conseq.
  - apply (@exception_only_reported quiet_env 1 "N2" error_403
             playing_youtube node1 youtube_track);
      first [reflexivity | left; reflexivity].
  - cbv beta. intros r s' H. split; apply H.
Defined.

(** ** Exceptions handed over to the wait for a node *)

(** Lines 754-787, a network failure of the node: the handler reports
    it and starts a wait for any other node. It returns with the lock
    held and no current track; the queue is as before and nothing is
    played. The same holds when the report raises, but for the wait. *)
Theorem network_failure_waits_for_node E fuel origin d s nd track :
  handles s nd origin track ->
  network_or_unavailable d = (true, false) ->
  post (hook E fuel (TrackException origin d)) s
    (fun r s' =>
       locked s' = true /\ current (base s') = None
       /\ queue s' = queue s /\ last_track s' = last_track s
       /\ play_requests (trace s') = play_requests (trace s)
       /\ (r = Ret tt ->
           hd_error (trace s') = Some (ESpawn (TaskWaitNode None))
           /\ new_node_task s' = true)).
Proof.
  intros (Hcl & Hlk & Hnd & Hor & Hf) Hd. unfold faulty in Hf.
  unfold hook, on_track_exception. wp.
  all: goal_norm; cbn [play_requests hd_error];
    repeat split; first [reflexivity | discriminate].
Qed.

Definition error_network : ExceptionData :=
  {| ex_error := "Something broke when playing the track";
     ex_message := "Something broke when playing the track";
     ex_cause := "java.net.SocketException: Network is unreachable" |}.

Lemma network_failure_waits_for_node_witness :
  post (hook quiet_env 1 (TrackException "N1" error_network)) playing_youtube
    (fun r s' => locked s' = true /\ current (base s') = None).
Proof.
  eapply post_conseq.
  - apply (@network_failure_waits_for_node quiet_env 1 "N1" error_network
             playing_youtube node1 youtube_track).
    + repeat split.
    + reflexivity.
  - cbv beta. intros r s' H. split; apply H.
Defined.

(** The cause [java.lang.InterruptedException], none of the earlier
    classes. *)
Definition is_interrupted (d : ExceptionData) : Prop :=
  network_or_unavailable d = (false, false)
  /\ fst (blocked_or_403 d) = false
  /\ ex_cause d = "java.lang.InterruptedException".

(** Lines 913-921: the track goes back to the head of the queue and a
    wait for any node is started; the handler returns with the lock held
    and does not advance the queue. *)
Theorem interrupted_track_requeued E fuel origin d s nd track :
  handles s nd origin track -> is_interrupted d ->
  env_io E (tick s) (IoReport track) = None ->
  post (hook E fuel (TrackException origin d)) s
    (fun r s' =>
       r = Ret tt /\ queue s' = track :: queue s /\ locked s' = true
       /\ current (base s') = None
       /\ play_requests (trace s') = play_requests (trace s)
       /\ hd_error (trace s') = Some (ESpawn (TaskWaitNode None))
       /\ new_node_task s' = true).
Proof.
  intros (Hcl & Hlk & Hnd & Hor & Hf) (H1 & H2 & H3) Hio.
  unfold faulty in Hf.
  assert (Hb : blocked_or_403 d = (false, false)).
  { unfold blocked_or_403 in *. cbv zeta in *.
    destruct (String.eqb (ex_error d) blocked_error); cbn [fst] in H2.
    - discriminate H2.
    - rewrite H2. reflexivity. }
  unfold hook, on_track_exception, recover. rewrite H3.
  wp.
  all: goal_norm; cbn [play_requests hd_error];
    repeat split; first [reflexivity | discriminate].
Qed.

Definition error_interrupted : ExceptionData :=
  {| ex_error := "Something broke when playing the track";
     ex_message := "Something broke when playing the track";
     ex_cause := "java.lang.InterruptedException" |}.

Lemma interrupted_track_requeued_witness :
  post (hook quiet_env 1 (TrackException "N1" error_interrupted))
    playing_youtube
    (fun r s' => r = Ret tt /\ queue s' = [youtube_track]).
Proof.
  eapply post_conseq.
  - apply (@interrupted_track_requeued quiet_env 1 "N1" error_interrupted
             playing_youtube node1 youtube_track).
    + repeat split.
    + repeat split.
    + reflexivity.
  - cbv beta. intros r s' H. split; apply H.
Defined.

(** ** The idle exit of [process_next] *)

(** The stop request of the inherited class succeeds. *)
Definition stop_succeeds (E : Env) : Prop :=
  forall n b, fst (env_wl E n WlStop b) = None.

(** Lines 1472-1498: with an empty queue and neither autoplay nor the
    24/7 mode, [process_next] stops the player, forgets the last track,
    sets the end of the idle time [IDLE_TIMEOUT] seconds ahead and
    starts the idle task. It asks for no track and leaves the lock
    released. *)
Theorem process_next_goes_idle E fuel start_position force_np
    clear_autoqueue s :
  stop_succeeds E -> ready E s -> queue s = [] ->
  autoplay_on s = false -> keep_connected s = false ->
  post (process_next E (S fuel) start_position force_np clear_autoqueue) s
    (fun r s' =>
       r = Ret XIdle /\ last_track s' = None /\ idle_task s' = true
       /\ (exists n, idle_endtime s'
                     = Some (env_now E n + cfg_idle_timeout E * 1000))
       /\ hd_error (trace s') = Some (ESpawn TaskIdling)
       /\ locked s' = false /\ queue s' = []
       /\ play_requests (trace s') = play_requests (trace s)
       /\ lock_writes (trace s') = lock_writes (trace s)).
Proof.
  intros Hstop (Hl & Hc & Hn & Hconn & ch & Hme) Hq Ha Hk.
  cbn [process_next]. unfold pn_voice, pn_pick.
  wp.
  all: try match goal with
       | H : env_wl _ ?n WlStop ?b = (Some _, _) |- _ =>
           pose proof (Hstop n b) as Hs; rewrite H in Hs; discriminate Hs
       end.
  all: goal_norm; cbn [play_requests lock_writes hd_error];
    repeat split; try reflexivity; try assumption; eauto.
Qed.

Lemma process_next_goes_idle_witness :
  post (process_next quiet_env 1 0 false true) new_player
    (fun r s' => r = Ret XIdle /\ idle_task s' = true).
Proof.
  eapply post_conseq.
  - apply (@process_next_goes_idle quiet_env O 0 false true new_player).
    + intros n b. reflexivity.
    + repeat split. exists 7. reflexivity.
    + reflexivity.
    + reflexivity.
    + reflexivity.
  - cbv beta. intros r s' (Hr & _ & Hi & _). split; assumption.
Defined.

(** ** A track that is stuck *)

Lemma track_end_loop_current_post s t :
  last_track s = Some t -> loop s = LoopCurrent ->
  post track_end s
    (fun r s' =>
       r = Ret tt /\ queue s' = t :: queue s /\ locked s' = false
       /\ is_closing s' = is_closing s /\ base s' = base s
       /\ native_yt s' = native_yt s /\ auto_pause s' = auto_pause s
       /\ play_requests (trace s') = play_requests (trace s)).
Proof.
  intros Ht Hl. unfold track_end. wp; track_end_done.
  all: goal_norm; cbn [play_requests]; repeat split; reflexivity.
Qed.



(** ** The resolution of a partial track *)

Lemma resolve_select_in track check_duration tracks first :
  In first tracks ->
  In match resolve_select track check_duration tracks with
     | Some t => t
     | None => first
     end tracks.
Proof.
  intros Hf. unfold resolve_select.
  destruct (find _ tracks) eqn:Hfind; [|exact Hf].
  apply find_some in Hfind. tauto.
Qed.

(** Lines 2541-2617. A track that has a handle is returned at once. The
    result is the track that was given, or that track with the handle
    and the duration of a track found by a search of the call, and with
    nothing else changed. An exception leaves the call only when the
    report of an error cannot be sent. *)
Theorem resolve_track_changes_handle_only E track s :
  (truthy (id_ track) = true -> resolve_track E track s = (Ret track, s))
  /\ post (resolve_track E track) s
       (fun r s' =>
          match r with
          | Ret t' =>
              t' = track
              \/ exists sel n q c,
                   env_get_tracks E n q = inr c
                   /\ In sel (coll_tracks c)
                   /\ t' = set_duration (duration sel)
                             (set_id_ (id_ sel) track)
          | Raise site _ => site = AtIo (IoSendTrackError track)
          end).
Proof.
  split.
  - intros H. unfold resolve_track. rewrite H. reflexivity.
  - unfold resolve_track. destruct (resolve_query E track) as [q cd] eqn:Hq.
    wp.
    all: try (left; reflexivity); try reflexivity.
    all: right;
      match goal with
      | Hg : env_get_tracks _ ?n ?q0 = inr ?c,
        Hl : coll_tracks ?c = ?t0 :: ?l |- _ =>
          exists (match resolve_select track cd (t0 :: l) with
                  | Some t1 => t1
                  | None => t0
                  end), n, q0, c;
          split; [exact Hg|]; split; [|reflexivity];
          rewrite Hl; apply resolve_select_in; left; reflexivity
      end.
Qed.

Lemma resolve_track_changes_handle_only_witness :
  resolve_track quiet_env trackA new_player = (Ret trackA, new_player).
Proof.
  apply (proj1 (resolve_track_changes_handle_only quiet_env trackA new_player)).
  reflexivity.
Defined.

(** ** A voice connection closed for good *)

(** Lines 945-950 and 993-999: when the guild no longer knows the bot,
    any closing code but 1000 destroys the player at once; with the
    code 4014, when the bot is known but in no voice channel, the
    handler logs a warning, waits a second and destroys the player. *)
Theorem voice_lost_destroys_player E fuel code s :
  is_closing s = false -> code <> 1000 ->
  ((forall n, env_me E n = MeNone) ->
     post (hook E fuel (WebsocketClosed code)) s
       (fun r s' => trace s' = EWl (WlDestroy true) :: trace s
                    /\ queue s' = queue s))
  /\ ((forall n, env_me E n = MeNoVoice) -> code = 4014 ->
      last_channel s <> None ->
      post (hook E fuel (WebsocketClosed code)) s
        (fun r s' =>
           trace s'
             = [EWl (WlDestroy true); ELog; ESleep 1000; EIo IoLogWarning]
                 ++ trace s
           /\ queue s' = queue s)).
Proof.
  intros Hcl Hcode. split.
  - intros Hme. unfold hook, on_websocket_closed.
    wp.
    all: try match goal with
         | H : env_me _ ?n = _ |- _ =>
             rewrite (Hme n) in H; discriminate H
         end.
    all: try (zbool; lia).
    all: goal_norm; split; reflexivity.
  - intros Hme -> Hlc. unfold hook, on_websocket_closed.
    wp.
    all: try match goal with
         | H : env_me _ ?n = _ |- _ =>
             rewrite (Hme n) in H; discriminate H
         end.
    all: try congruence.
    all: try (goal_norm; split; reflexivity).
Qed.

Definition with_me (f : nat -> MeState) (E : Env) : Env :=
  {| env_now := env_now E; env_wl := env_wl E; env_io := env_io E;
     env_get_tracks := env_get_tracks E; env_spotify := env_spotify E;
     env_nodes := env_nodes E; env_me := f;
     env_send_perm := env_send_perm E;
     env_voice_update := env_voice_update E;
     env_can_connect := env_can_connect E; env_uuid := env_uuid E;
     env_fix_characters := env_fix_characters E;
     env_is_playing := env_is_playing E;
     env_is_connected := env_is_connected E;
     env_yt_video_match := env_yt_video_match E;
     env_spotify_enabled := env_spotify_enabled E;
     cfg_error_403_retries := cfg_error_403_retries E;
     cfg_error_403_additional_ms := cfg_error_403_additional_ms E;
     cfg_partialtrack_search_provider := cfg_partialtrack_search_provider E;
     cfg_idle_timeout := cfg_idle_timeout E |}.

Lemma voice_lost_destroys_player_witness :
  post (hook (with_me (fun _ => MeNoVoice) quiet_env) 1 (WebsocketClosed 4014))
    playing_B
    (fun r s' =>
       trace s'
         = [EWl (WlDestroy true); ELog; ESleep 1000; EIo IoLogWarning]
             ++ trace playing_B
       /\ queue s' = queue playing_B).
Proof.
  apply (proj2 (@voice_lost_destroys_player
                  (with_me (fun _ => MeNoVoice) quiet_env) 1 4014 playing_B
                  eq_refl ltac:(discriminate))).
  - intros n. reflexivity.
  - reflexivity.
  - discriminate.
Defined.

(** ** What the wait for a node leaves alone *)

(** The tracks the session holds on which a coroutine may not act. *)
Definition same_tracks (s0 s : Player) : Prop :=
  queue s = queue s0 /\ played s = played s0
  /\ failed_tracks s = failed_tracks s0
  /\ queue_autoplay s = queue_autoplay s0
  /\ last_track s = last_track s0 /\ is_closing s = is_closing s0.

Lemma same_tracks_inert s0 : Inert (same_tracks s0).
Proof. split; intros; assumption. Qed.

(** Lines 2619-2676: however long it runs and whatever the nodes do,
    [_wait_for_new_node] changes neither the queue nor the history nor
    the failed tracks nor the candidates nor the last track. *)
Theorem wait_for_new_node_keeps_tracks E fuel ignore_node s :
  same_tracks s (snd (wait_for_new_node E fuel ignore_node s)).
Proof.
  assert (Hk : keeps (same_tracks s) (wait_for_new_node E fuel ignore_node)).
  { pose proof (same_tracks_inert s) as Hi.
    unfold wait_for_new_node, write_locked.
    keeps_go; try first [ apply keeps_modify; intros ? Hx; exact Hx
                        | solve [eauto with keeps] ].
    induction fuel as [|fuel IH]; cbn [wait_loop]; unfold write_locked;
      keeps_go; try first [ apply keeps_modify; intros ? Hx; exact Hx
                          | solve [eauto with keeps] ]. }
  apply Hk. repeat split.
Qed.

(** ** The bounded rings *)

(** The bounds of lines 414-416: the history holds at most 20 tracks,
    the candidates and the failed tracks at most 30 each. *)
Definition rings_bounded (s : Player) : Prop :=
  (List.length (played s) <= 20)%nat
  /\ (List.length (failed_tracks s) <= 30)%nat
  /\ (List.length (queue_autoplay s) <= 30)%nat.

Lemma rings_bounded_inert : Inert rings_bounded.
Proof. split; intros; assumption. Qed.

Lemma rings_mutate uid f s :
  rings_bounded s -> rings_bounded (mutate_track uid f s).
Proof.
  intros (H1 & H2 & H3). unfold rings_bounded, mutate_track.
  cbn [played failed_tracks queue_autoplay set_current set_last_track
       set_failed_tracks set_queue_autoplay set_played set_queue set_base].
  rewrite !length_mutate_in. auto.
Qed.

Lemma rings_failed t s :
  rings_bounded s ->
  rings_bounded (set_failed_tracks (ring_append 30 (failed_tracks s) t) s).
Proof.
  intros (H1 & H2 & H3). repeat split; try assumption.
  apply ring_append_length, H2.
Qed.

Lemma rings_played t s :
  rings_bounded s ->
  rings_bounded (set_played (ring_append 20 (played s) t) s).
Proof.
  intros (H1 & H2 & H3). repeat split; try assumption.
  apply ring_append_length, H1.
Qed.

Lemma rings_extend l s :
  rings_bounded s ->
  rings_bounded (set_queue_autoplay (ring_extend 30 (queue_autoplay s) l) s).
Proof.
  intros (H1 & H2 & H3). repeat split; try assumption.
  apply ring_extend_length, H3.
Qed.

Lemma rings_clear s :
  rings_bounded s -> rings_bounded (set_queue_autoplay [] s).
Proof.
  intros (H1 & H2 & H3). repeat split; try assumption. cbn. lia.
Qed.

#[local] Hint Resolve rings_bounded_inert : keeps.

Ltac keeps_ring :=
  first [ apply keeps_modify; intros ? Hx; exact Hx
        | apply keeps_modify; intros ? Hx; apply rings_mutate, Hx
        | apply keeps_modify; intros ? Hx; apply rings_failed, Hx
        | apply keeps_modify; intros ? Hx; apply rings_played, Hx
        | apply keeps_modify; intros ? Hx; apply rings_extend, Hx
        | apply keeps_modify; intros ? Hx; apply rings_clear, Hx
        | solve [eauto with keeps] ].

Ltac keeps_rings := keeps_go; try keeps_ring.

Section Rings.

Variable E : Env.

Lemma rings_track_end : keeps rings_bounded track_end.
Proof.
  unfold track_end, write_locked, when. keeps_rings.
Qed.

Lemma rings_pop_candidate : keeps rings_bounded pop_candidate.
Proof.
  intros s Hs. unfold pop_candidate. apply post_bind, post_get.
  destruct (queue_autoplay s) as [|t rest] eqn:Hq; cbv beta iota.
  - apply post_ret. exact Hs.
  - apply post_bind, post_modify. apply post_ret.
    destruct Hs as (H1 & H2 & H3).
    split; [exact H1|]. split; [exact H2|].
    rewrite Hq in H3. cbn [List.length] in H3.
    change (List.length rest <= 30)%nat. lia.
Qed.

Lemma rings_recommend attempts ids exception :
  keeps rings_bounded (recommend E attempts ids exception).
Proof.
  revert exception. induction attempts as [|k IH]; intros exception;
    cbn [recommend]; unfold spotify_recommendations; keeps_rings.
Qed.

Lemma rings_partials items : keeps rings_bounded (partials_of_items E items).
Proof.
  induction items as [|i rest IH]; cbn [partials_of_items]; keeps_rings.
Qed.

Lemma rings_search_loop ts seeds st :
  keeps rings_bounded (search_loop E ts seeds st).
Proof.
  revert st. induction seeds as [|t rest IH]; intros st; cbn [search_loop];
    keeps_rings;
    first [apply rings_recommend | apply rings_partials].
Qed.

Lemma rings_finalize tr tracks : keeps rings_bounded (finalize E tr tracks).
Proof.
  induction tracks as [|t rest IH]; cbn [finalize]; keeps_rings.
Qed.

Lemma rings_get_autoqueue_tracks :
  keeps rings_bounded (get_autoqueue_tracks E).
Proof.
  unfold get_autoqueue_tracks, write_locked. cbv zeta. keeps_rings;
    first [ apply rings_pop_candidate | apply rings_search_loop
          | apply rings_finalize ].
Qed.

Lemma rings_process_next fuel start_position force_np clear_autoqueue :
  keeps rings_bounded
    (process_next E fuel start_position force_np clear_autoqueue).
Proof.
  revert start_position force_np clear_autoqueue.
  induction fuel as [|fuel IH]; intros start_position force_np clear_autoqueue;
    cbn [process_next]; [apply keeps_ret|].
  unfold pn_voice, cancel_idle_task, pn_pick, pn_resolve, pn_lookup, pn_start,
    write_locked.
  keeps_rings.
  all: first [ apply IH | apply rings_get_autoqueue_tracks ].
Qed.

Lemma rings_hook fuel event : keeps rings_bounded (hook E fuel event).
Proof.
  unfold hook, on_track_end, on_track_start, on_track_exception, recover,
    retry_general, retry_on_403, migrate_players, on_websocket_closed,
    on_track_stuck, write_locked.
  keeps_rings.
  all: first [ apply rings_track_end | apply rings_process_next ].
Qed.

Lemma rings_wait_for_new_node fuel ignore_node :
  keeps rings_bounded (wait_for_new_node E fuel ignore_node).
Proof.
  unfold wait_for_new_node, write_locked. keeps_rings.
  induction fuel as [|fuel IH]; cbn [wait_loop]; unfold write_locked;
    keeps_rings.
Qed.

End Rings.

(** The rings are within their bounds at first and stay so through
    [track_end], every event handled by [hook], [process_next],
    [get_autoqueue_tracks] and the wait for a node. *)
Theorem rings_stay_bounded E s :
  rings_bounded new_player
  /\ (rings_bounded s ->
      rings_bounded (snd (track_end s))
      /\ (forall fuel event, rings_bounded (snd (hook E fuel event s)))
      /\ (forall fuel start_position force_np clear_autoqueue,
            rings_bounded
              (snd (process_next E fuel start_position force_np
                      clear_autoqueue s)))
      /\ rings_bounded (snd (get_autoqueue_tracks E s))
      /\ (forall fuel ignore_node,
            rings_bounded (snd (wait_for_new_node E fuel ignore_node s)))).
Proof.
  split; [repeat split; cbn; lia|].
  intros Hs.
  split; [exact (rings_track_end Hs)|].
  split; [intros fuel event; exact (rings_hook E fuel event Hs)|].
  split; [intros fuel sp f c; exact (rings_process_next E fuel sp f c Hs)|].
  split; [exact (rings_get_autoqueue_tracks E Hs)|].
  intros fuel i. exact (rings_wait_for_new_node E fuel i Hs).
Qed.

Lemma rings_stay_bounded_witness :
  rings_bounded (snd (hook quiet_env 2 (TrackEnd "N1" "id-B" "FINISHED")
                        playing_B)).
Proof.
  apply (proj2 (rings_stay_bounded quiet_env playing_B)).
  repeat split; cbn; lia.
Defined.

(** ** [update_state] *)

(** [state['state']] of a player update; a key may be missing. *)
Record StateData : Type := mkStateData {
  st_position : option Z;
  st_time : option Z
}.

Definition or_default (d : Z) (o : option Z) : Z :=
  match o with Some v => v | None => d end.

(** [update_state], lines 574-582; [ping] is not an attribute of the
    model. An update without the key ["state"] raises [KeyError]. *)
Definition update_state (E : Env) (state : option StateData) : M unit :=
  match state with
  | None => raise (AtLine 575) (mkExc KeyError "state")
  | Some st =>
      s <- get ;;
      when (negb (auto_pause s))
        (modify (set_last_position (or_default 0 (st_position st)))) ;;
      t <- now E ;;
      modify (set_last_update t) ;;
      modify (set_position_timestamp (or_default 0 (st_time st)))
  end.

(** After an update of the node the position is counted from the
    position it reports and from the time of the update; while the
    session is auto-paused the reported position is not taken. A
    position read at the time of the update, in a session that plays
    and is not auto-paused, is the reported position if that lies
    within the track. *)
Theorem update_state_resyncs_position E st s :
  post (update_state E (Some st)) s
    (fun r s' =>
       r = Ret tt
       /\ last_update (base s') = env_now E (tick s)
       /\ last_position (base s')
            = (if auto_pause s then last_position (base s)
               else or_default 0 (st_position st))
       /\ current (base s') = current (base s)
       /\ paused (base s') = paused (base s)
       /\ queue s' = queue s /\ locked s' = locked s
       /\ (forall cur,
             auto_pause s = false -> playing E s' cur ->
             or_default 0 (st_position st) <= duration cur ->
             position_at E (env_now E (tick s)) s'
               = or_default 0 (st_position st))).
Proof.
  unfold update_state, when. wp.
  all: goal_norm; repeat split; try reflexivity;
    try match goal with
        | H : negb (auto_pause ?s0) = _ |- _ =>
            destruct (auto_pause s0); first [reflexivity | discriminate H]
        end.
  all: intros cur Hap Hp Hle;
    try match goal with
        | H : negb (auto_pause _) = false |- _ =>
            rewrite Hap in H; discriminate H
        end.
  all: rewrite (position_at_playing _ Hp);
    unfold extrapolated; goal_norm;
    rewrite Z.sub_diag, Z.add_0_r;
    match goal with
    | |- (if ?x >? ?y then _ else _) = _ =>
        destruct (x >? y) eqn:Hgt; [zbool; lia | reflexivity]
    end.
Qed.

(** ** The skins of a player *)

(** ["> custom_skin: "], 15 characters. *)
Definition custom_skin_prefix : string := "> custom_skin: ".

(** [skin[15:]]. *)
Definition custom_skin_name (skin : string) : string :=
  String.substring 15 (String.length skin - 15) skin.

(** What [check_skins] reads: the keys of [custom_skin_data] and of
    [custom_skin_static_data], the skins of the bot and its defaults. *)
Record SkinContext : Type := mkSkinContext {
  custom_skin_data : list string;
  custom_skin_static_data : list string;
  player_skins : list string;
  player_static_skins : list string;
  default_skin : string;
  default_static_skin : string
}.

Record Skins : Type := mkSkins { skin : string; skin_static : string }.

(** [LavalinkPlayer.check_skins], lines 1139-1150. *)
Definition check_skins (c : SkinContext) (p : Skins) : Skins :=
  let skin1 :=
    if String.prefix custom_skin_prefix (skin p) then
      if negb (in_strings (custom_skin_name (skin p)) (custom_skin_data c))
      then default_skin c else skin p
    else if negb (in_strings (skin p) (player_skins c)) then default_skin c
    else skin p in
  let skin_static1 :=
    if String.prefix custom_skin_prefix (skin_static p) then
      if negb (in_strings (custom_skin_name (skin_static p))
                 (custom_skin_static_data c))
      then default_static_skin c else skin_static p
    else if negb (in_strings (skin_static p) (player_static_skins c)) then
      default_static_skin c
    else skin_static p in
  mkSkins skin1 skin_static1.

(** [BotCore.check_skin] and [BotCore.check_static_skin], lines 714-738
    of [client.py]. *)
Definition check_skin (c : SkinContext) (skin : option string) : string :=
  match skin with
  | None => default_skin c
  | Some sk =>
      if String.prefix custom_skin_prefix sk then sk
      else if negb (in_strings sk (player_skins c)) then default_skin c
      else sk
  end.

Definition check_static_skin (c : SkinContext) (skin : option string)
    : string :=
  match skin with
  | None => default_static_skin c
  | Some sk =>
      if String.prefix custom_skin_prefix sk then sk
      else if negb (in_strings sk (player_static_skins c)) then
        default_static_skin c
      else sk
  end.

(** A skin that can be used: one of the bot, or a custom skin with
    data. *)
Definition usable (custom known : list string) (sk : string) : bool :=
  if String.prefix custom_skin_prefix sk then
    in_strings (custom_skin_name sk) custom
  else in_strings sk known.

(** After [check_skins] each of the two skins is usable or is the
    default, a usable skin is kept, and a second check changes
    nothing. *)
Theorem check_skins_selects_usable c p :
  (usable (custom_skin_data c) (player_skins c) (skin (check_skins c p)) = true
   \/ skin (check_skins c p) = default_skin c)
  /\ (usable (custom_skin_static_data c) (player_static_skins c)
        (skin_static (check_skins c p)) = true
      \/ skin_static (check_skins c p) = default_static_skin c)
  /\ (usable (custom_skin_data c) (player_skins c) (skin p) = true ->
      skin (check_skins c p) = skin p)
  /\ (usable (custom_skin_static_data c) (player_static_skins c)
        (skin_static p) = true ->
      skin_static (check_skins c p) = skin_static p)
  /\ check_skins c (check_skins c p) = check_skins c p.
Proof.
  assert (Hone : forall custom known dflt sk,
    let r := if String.prefix custom_skin_prefix sk then
               if negb (in_strings (custom_skin_name sk) custom)
               then dflt else sk
             else if negb (in_strings sk known) then dflt else sk in
    (usable custom known r = true \/ r = dflt)
    /\ (usable custom known sk = true -> r = sk)
    /\ (if String.prefix custom_skin_prefix r then
          if negb (in_strings (custom_skin_name r) custom) then dflt else r
        else if negb (in_strings r known) then dflt else r) = r).
  { intros custom known dflt sk. cbv zeta. unfold usable.
    destruct (String.prefix custom_skin_prefix sk) eqn:Hp.
    - destruct (in_strings (custom_skin_name sk) custom) eqn:Hi; cbn [negb].
      + rewrite Hp, Hi. cbn [negb]. auto.
      + split; [right; reflexivity|]. split; [discriminate|].
        destruct (String.prefix custom_skin_prefix dflt);
          destruct (negb _); reflexivity.
    - destruct (in_strings sk known) eqn:Hi; cbn [negb].
      + rewrite Hp, Hi. cbn [negb]. auto.
      + split; [right; reflexivity|]. split; [discriminate|].
        destruct (String.prefix custom_skin_prefix dflt);
          destruct (negb _); reflexivity. }
  destruct (Hone (custom_skin_data c) (player_skins c) (default_skin c)
              (skin p)) as (A1 & A2 & A3).
  destruct (Hone (custom_skin_static_data c) (player_static_skins c)
              (default_static_skin c) (skin_static p)) as (B1 & B2 & B3).
  cbv zeta in *.
  repeat split; try assumption.
  unfold check_skins at 1. cbv zeta. cbn [skin skin_static check_skins].
  rewrite A3, B3. reflexivity.
Qed.

(** A skin that went through [BotCore.check_skin] is treated by
    [check_skins] like the skin that was asked for. *)
Theorem check_skin_then_check_skins c sk st :
  check_skins c (mkSkins (check_skin c (Some sk))
                   (check_static_skin c (Some st)))
    = check_skins c (mkSkins sk st).
Proof.
  unfold check_skins, check_skin, check_static_skin. cbv zeta.
  cbn [skin skin_static]. f_equal.
  - destruct (String.prefix custom_skin_prefix sk) eqn:Hp.
    + rewrite Hp. reflexivity.
    + destruct (in_strings sk (player_skins c)) eqn:Hi; cbn [negb].
      * rewrite Hp, Hi. reflexivity.
      * destruct (String.prefix custom_skin_prefix (default_skin c));
          destruct (negb _); reflexivity.
  - destruct (String.prefix custom_skin_prefix st) eqn:Hp.
    + rewrite Hp. reflexivity.
    + destruct (in_strings st (player_static_skins c)) eqn:Hi; cbn [negb].
      * rewrite Hp, Hi. reflexivity.
      * destruct (String.prefix custom_skin_prefix (default_static_skin c));
          destruct (negb _); reflexivity.
Qed.

Lemma check_skins_selects_usable_witness :
  skin (check_skins (mkSkinContext [] [] ["default"; "mini"] ["default"]
                       "default" "default")
          (mkSkins "mini" "gone")) = "mini".
Proof.
  apply (proj1 (proj2 (proj2
           (check_skins_selects_usable
              (mkSkinContext [] [] ["default"; "mini"] ["default"]
                 "default" "default")
              (mkSkins "mini" "gone"))))).
  reflexivity.
Defined.

(** ** Skipping in the place of the node *)

(** One round of the loop of [auto_skip_track], lines 2495-2533, after
    the sleep. Every call is inside [try: ... except: pass]. *)
Definition skip_round (E : Env) (fuel : nat) : M unit :=
  set_command_log ;;
  try_catch track_end (fun _ _ => ret tt) ;;
  try_catch (_ <- process_next E fuel 0 false true ;; ret tt)
    (fun _ _ => ret tt) ;;
  io_guarded E (IoInvokeNp false) ;;
  io_guarded E IoUpdateStageTopic.

(** One pass through the body of the loop [while True], lines
    2495-2539. The result tells whether the coroutine returns. *)
Definition skip_iteration (E : Env) (fuel : nat) : M bool :=
  try_catch
    (io_guarded E IoSaveQueue ;;
     s <- get ;;
     match current (base s) with
     | None => ret true
     | Some cur =>
         if is_stream cur then ret true
         else
           p <- position E ;;
           sleep (duration cur - p) ;;
           skip_round E fuel ;;
           ret false
     end)
    (fun _ _ => ret true).

(** The loop itself; [rounds] bounds it, and the result tells whether
    the coroutine returned within the bound. *)
Fixpoint auto_skip_loop (E : Env) (fuel rounds : nat) : M bool :=
  match rounds with
  | O => ret false
  | S k =>
      stop <- skip_iteration E fuel ;;
      if stop then ret true else auto_skip_loop E fuel k
  end.

(** [auto_skip_track], lines 2488-2539. *)
Definition auto_skip_track (E : Env) (fuel rounds : nat) : M bool :=
  s <- get ;;
  if negb (controller_mode s) then ret true
  else
    match current (base s) with
    | None => ret true
    | Some _ => auto_skip_loop E fuel rounds
    end.

(** [returns m]: no exception leaves [m]. *)
Definition returns {A} (m : M A) : Prop :=
  forall s, exists a, fst (m s) = Ret a.

Lemma returns_ret {A} (a : A) : returns (ret a).
Proof. intros s. exists a. reflexivity. Qed.

Lemma returns_bind {A B} (m : M A) (k : A -> M B) :
  returns m -> (forall a, returns (k a)) -> returns (bind m k).
Proof.
  intros Hm Hk s. unfold bind. destruct (Hm s) as (a & Ha).
  destruct (m s) as [r s1]. cbn [fst] in Ha. subst r. apply Hk.
Qed.

Lemma returns_try_catch {A} (m : M A) h :
  (forall site e, returns (h site e)) -> returns (try_catch m h).
Proof.
  intros Hh s. unfold try_catch. destruct (m s) as [[a|site e] s1].
  - exists a. reflexivity.
  - apply Hh.
Qed.

Lemma returns_skip_iteration E fuel : returns (skip_iteration E fuel).
Proof.
  unfold skip_iteration. apply returns_try_catch. intros _ _.
  apply returns_ret.
Qed.

Lemma returns_auto_skip_loop E fuel rounds :
  returns (auto_skip_loop E fuel rounds).
Proof.
  induction rounds as [|k IH]; cbn [auto_skip_loop].
  - apply returns_ret.
  - apply returns_bind; [apply returns_skip_iteration|].
    intros [|]; [apply returns_ret | exact IH].
Qed.

(** Lines 2488-2539. No exception leaves [auto_skip_track]. With the
    controller mode off or without a current track it returns at once
    and changes nothing. When the current track is a stream it returns
    after the attempt to save the queue: the track is not ended, the
    lock is not touched and nothing is asked of the node. *)
Theorem auto_skip_track_guarded E fuel rounds s :
  (exists b, fst (auto_skip_track E fuel rounds s) = Ret b)
  /\ (controller_mode s = false \/ current (base s) = None ->
      auto_skip_track E fuel rounds s = (Ret true, s))
  /\ (forall cur,
        controller_mode s = true -> current (base s) = Some cur ->
        is_stream cur = true ->
        post (auto_skip_track E fuel (S rounds)) s
          (fun r s' =>
             r = Ret true
             /\ trace s' = EIo IoSaveQueue :: trace s
             /\ queue s' = queue s /\ base s' = base s
             /\ locked s' = locked s /\ played s' = played s)).
Proof.
  split; [|split].
  - unfold auto_skip_track, bind, get.
    destruct (negb (controller_mode s)); [exists true; reflexivity|].
    destruct (current (base s)); [|exists true; reflexivity].
    apply returns_auto_skip_loop.
  - intros [H | H]; unfold auto_skip_track, bind, get; rewrite H;
      [reflexivity|].
    destruct (negb (controller_mode s)); reflexivity.
  - intros cur Hc Hcur Hs.
    unfold auto_skip_track. cbn [auto_skip_loop]. unfold skip_iteration.
    wp.
    all: goal_norm; repeat split; reflexivity.
Qed.

Lemma auto_skip_track_guarded_witness :
  auto_skip_track quiet_env 1 3 new_player = (Ret true, new_player).
Proof.
  apply (proj1 (proj2 (auto_skip_track_guarded quiet_env 1 3 new_player))).
  right. reflexivity.
Defined.

(** ** The audio filters *)

Section Filters.

(** The value of one filter, as it is sent to the node. *)
Variable V : Type.

(** [self.filters], a [dict]: the keys are unique and keep the order in
    which they were put in. *)
Definition Dict : Type := list (string * V).

Fixpoint dict_get (k : string) (d : Dict) : option V :=
  match d with
  | [] => None
  | (k', v) :: rest => if String.eqb k k' then Some v else dict_get k rest
  end.

(** [del d[k]]; nothing is returned for [KeyError]. *)
Definition dict_del (k : string) (d : Dict) : option Dict :=
  match dict_get k d with
  | None => None
  | Some _ => Some (filter (fun kv => negb (String.eqb k (fst kv))) d)
  end.

(** [d[k] = v]. *)
Fixpoint dict_set (k : string) (v : V) (d : Dict) : Dict :=
  match d with
  | [] => [(k, v)]
  | (k', v') :: rest =>
      if String.eqb k k' then (k, v) :: rest
      else (k', v') :: dict_set k v rest
  end.

(** [d.update(other)]. *)
Definition dict_update (d other : Dict) : Dict :=
  fold_left (fun acc kv => dict_set (fst kv) (snd kv) acc) other d.

(** What is sent to the node: [node._send(op="filters", ...)] for
    version 3, [node.update_player(...)] otherwise. *)
Inductive FilterCall : Type :=
| SendFiltersOp (payload : Dict)
| UpdatePlayerFilters (payload : Dict).

Record FilterState : Type := mkFilterState {
  filters : Dict;
  filter_calls : list FilterCall;  (* newest first *)
  filter_tick : nat
}.

(** [self.node.version], and the exception, if any, with which the
    n-th call to the node fails. *)
Variable node_version : Z.
Variable call_error : nat -> option Exc.

Definition FM (A : Type) : Type := FilterState -> Res A * FilterState.

Definition fbind {A B} (m : FM A) (k : A -> FM B) : FM B :=
  fun st =>
    match m st with
    | (Ret a, st') => k a st'
    | (Raise site e, st') => (Raise site e, st')
    end.

(** [update_filters], lines 3044-3048. *)
Definition update_filters : FM unit :=
  fun st =>
    let call := if node_version =? 3 then SendFiltersOp (filters st)
                else UpdatePlayerFilters (filters st) in
    let st' := mkFilterState (filters st) (call :: filter_calls st)
                 (S (filter_tick st)) in
    match call_error (filter_tick st) with
    | None => (Ret tt, st')
    | Some e =>
        (Raise (AtLine (if node_version =? 3 then 3046 else 3048)) e, st')
    end.

(** [set_filter], lines 3050-3055; [payload] is [filter_type.filter]. *)
Definition set_filter (payload : Dict) : FM Dict :=
  fun st =>
    fbind update_filters (fun _ st' => (Ret payload, st'))
      (mkFilterState (dict_update (filters st) payload) (filter_calls st)
         (filter_tick st)).

(** The branch [enabled=False] of the eight setters, lines 2949-3037:
    [try: del self.filters[key] except KeyError: pass], then
    [update_filters]. *)
Definition disable_filter (key : string) : FM unit :=
  fun st =>
    update_filters
      (mkFilterState
         (match dict_del key (filters st) with
          | Some d => d
          | None => filters st
          end)
         (filter_calls st) (filter_tick st)).

(** [set_rotation] and [set_timescale], lines 3003-3012 and 2956-2965;
    [payload] is the [filter] of the [AudioFilter] built from the
    arguments. *)
Definition set_rotation (payload : Dict) (enabled : bool) : FM unit :=
  if enabled then fbind (set_filter payload) (fun _ st => (Ret tt, st))
  else disable_filter "rotation".

Definition set_timescale (payload : Dict) (enabled : bool) : FM unit :=
  if enabled then fbind (set_filter payload) (fun _ st => (Ret tt, st))
  else disable_filter "timescale".

(** [turnallfilteroff], lines 3057-3062. *)
Definition turnallfilteroff (rotation timescale : Dict) : FM unit :=
  fbind (set_rotation rotation false) (fun _ =>
  fbind (set_timescale timescale false) (fun _ =>
  update_filters)).

Lemma dict_get_filter k k' (d : Dict) :
  dict_get k (filter (fun kv => negb (String.eqb k' (fst kv))) d)
    = if String.eqb k k' then None else dict_get k d.
Proof.
  induction d as [|[k0 v0] rest IH]; cbn [filter dict_get fst].
  - destruct (String.eqb k k'); reflexivity.
  - destruct (String.eqb k' k0) eqn:H0; cbn [negb dict_get].
    + apply String.eqb_eq in H0. subst k0. rewrite IH.
      destruct (String.eqb k k'); reflexivity.
    + rewrite IH. destruct (String.eqb k k0) eqn:H1; [|reflexivity].
      apply String.eqb_eq in H1. subst k0.
      rewrite String.eqb_sym, H0. reflexivity.
Qed.

(** What [del] with its [except KeyError: pass] leaves. *)
Lemma dict_get_del k k' (d : Dict) :
  dict_get k (match dict_del k' d with Some d' => d' | None => d end)
    = if String.eqb k k' then None else dict_get k d.
Proof.
  unfold dict_del. destruct (dict_get k' d) eqn:Hg.
  - apply dict_get_filter.
  - destruct (String.eqb k k') eqn:Hk; [|reflexivity].
    apply String.eqb_eq in Hk. subst k'. exact Hg.
Qed.

Lemma dict_get_set k k' v (d : Dict) :
  dict_get k (dict_set k' v d)
    = if String.eqb k k' then Some v else dict_get k d.
Proof.
  induction d as [|[k0 v0] rest IH]; cbn [dict_set dict_get].
  - reflexivity.
  - destruct (String.eqb k' k0) eqn:H0; cbn [dict_get].
    + apply String.eqb_eq in H0. subst k0.
      destruct (String.eqb k k'); reflexivity.
    + rewrite IH. destruct (String.eqb k k0) eqn:H1; [|reflexivity].
      apply String.eqb_eq in H1. subst k0.
      rewrite String.eqb_sym, H0. reflexivity.
Qed.

(** Switching a filter off never fails on a filter that is not set. It
    removes that filter and no other and tells the node once, sending
    the filters that are left; the call returns unless the node
    refuses, and then the filter is removed all the same. *)
Theorem disable_filter_removes_key key st :
  let r := disable_filter key st in
  dict_get key (filters (snd r)) = None
  /\ (forall k, k <> key ->
        dict_get k (filters (snd r)) = dict_get k (filters st))
  /\ (exists call,
        filter_calls (snd r) = call :: filter_calls st
        /\ (call = SendFiltersOp (filters (snd r))
            \/ call = UpdatePlayerFilters (filters (snd r))))
  /\ match call_error (filter_tick st) with
     | None => fst r = Ret tt
     | Some e => exists site, fst r = Raise site e
     end.
Proof.
  cbv zeta. unfold disable_filter, update_filters.
  cbn [filters filter_calls filter_tick].
  destruct (call_error (filter_tick st)) as [e|];
    cbn [snd fst filters filter_calls].
  all: split; [rewrite dict_get_del, String.eqb_refl; reflexivity|].
  all: split; [intros k Hk; rewrite dict_get_del;
               destruct (String.eqb k key) eqn:He; [|reflexivity];
               apply String.eqb_eq in He; contradiction|].
  all: split; [eexists; split; [reflexivity|];
               destruct (node_version =? 3); [left | right]; reflexivity|].
  - eexists. reflexivity.
  - reflexivity.
Qed.

(** When the node takes every call, [turnallfilteroff] returns with
    the rotation and the timescale off and every other filter as it
    was, after three calls to the node, the last two of which carry the
    filters that are left. *)
Theorem turnallfilteroff_keeps_other_filters rotation timescale st :
  (forall n, call_error n = None) ->
  let r := turnallfilteroff rotation timescale st in
  fst r = Ret tt
  /\ dict_get "rotation" (filters (snd r)) = None
  /\ dict_get "timescale" (filters (snd r)) = None
  /\ (forall k, k <> "rotation"%string -> k <> "timescale"%string ->
        dict_get k (filters (snd r)) = dict_get k (filters st))
  /\ exists c1 c2 c3,
       filter_calls (snd r) = c3 :: c2 :: c1 :: filter_calls st
       /\ c3 = c2
       /\ (c3 = SendFiltersOp (filters (snd r))
           \/ c3 = UpdatePlayerFilters (filters (snd r))).
Proof.
  intros Herr. cbv zeta.
  unfold turnallfilteroff, set_rotation, set_timescale, fbind,
    disable_filter, update_filters.
  repeat (progress (try rewrite !Herr;
                    cbn [fst snd filters filter_calls filter_tick])).
  split; [reflexivity|]. split; [|split; [|split]].
  - rewrite dict_get_del. cbn. rewrite dict_get_del. reflexivity.
  - rewrite dict_get_del. reflexivity.
  - intros k H1 H2. rewrite !dict_get_del.
    destruct (String.eqb k "timescale") eqn:E1;
      [apply String.eqb_eq in E1; contradiction|].
    destruct (String.eqb k "rotation") eqn:E2;
      [apply String.eqb_eq in E2; contradiction|].
    reflexivity.
  - do 3 eexists. split; [reflexivity|]. split; [reflexivity|].
    destruct (node_version =? 3); [left | right]; reflexivity.
Qed.

(** When the node refuses the first call, [turnallfilteroff] stops
    there: the rotation is off, the timescale is not touched and the
    exception leaves the call. *)
Theorem turnallfilteroff_stops_at_failure rotation timescale st e :
  call_error (filter_tick st) = Some e ->
  let r := turnallfilteroff rotation timescale st in
  (exists site, fst r = Raise site e)
  /\ dict_get "timescale" (filters (snd r))
       = dict_get "timescale" (filters st)
  /\ dict_get "rotation" (filters (snd r)) = None
  /\ List.length (filter_calls (snd r)) = S (List.length (filter_calls st)).
Proof.
  intros Herr. cbv zeta.
  unfold turnallfilteroff, set_rotation, fbind, disable_filter,
    update_filters.
  cbn [filter_tick]. rewrite Herr.
  cbn [fst snd filters filter_calls List.length].
  split; [eexists; reflexivity|]. split; [|split; [|reflexivity]].
  - rewrite dict_get_del. reflexivity.
  - rewrite dict_get_del. reflexivity.
Qed.

(** A filter that is set and then switched off is gone, and the other
    filters are what they were before. *)
Theorem set_then_disable_filter key value st :
  (forall n, call_error n = None) ->
  let r := fbind (set_filter [(key, value)])
             (fun _ => disable_filter key) st in
  fst r = Ret tt
  /\ (forall k,
        dict_get k (filters (snd r))
          = if String.eqb k key then None else dict_get k (filters st)).
Proof.
  intros Herr. cbv zeta.
  unfold fbind, set_filter, disable_filter, update_filters, fbind.
  repeat (progress (try rewrite !Herr;
                    cbn [fst snd filters filter_calls filter_tick])).
  split; [reflexivity|].
  intros k. rewrite dict_get_del.
  destruct (String.eqb k key) eqn:Hk; [reflexivity|].
  unfold dict_update. cbn [fold_left fst snd].
  rewrite dict_get_set, Hk. reflexivity.
Qed.

End Filters.

Definition filters_example : FilterState Z :=
  mkFilterState [("rotation", 1); ("karaoke", 2); ("timescale", 3)] [] 0.

Lemma turnallfilteroff_keeps_other_filters_witness :
  dict_get "karaoke"
    (filters (snd (turnallfilteroff 4 (fun _ => None) [] [] filters_example)))
    = Some 2
  /\ dict_get "rotation"
       (filters (snd (turnallfilteroff 4 (fun _ => None) [] []
                        filters_example)))
     = None.
Proof.
  destruct (@turnallfilteroff_keeps_other_filters Z 4 (fun _ => None) [] []
              filters_example (fun _ => eq_refl))
    as (_ & Hr & _ & Hk & _).
  split; [|exact Hr].
  rewrite Hk; [reflexivity | discriminate | discriminate].
Defined.

Lemma turnallfilteroff_stops_at_failure_witness :
  dict_get "timescale"
    (filters (snd (turnallfilteroff 4
                     (fun n => if Nat.eqb n 0
                               then Some (mkExc OtherError "closed")
                               else None)
                     [] [] filters_example)))
    = Some 3.
Proof.
  destruct (@turnallfilteroff_stops_at_failure Z 4
              (fun n => if Nat.eqb n 0
                        then Some (mkExc OtherError "closed") else None)
              [] [] filters_example (mkExc OtherError "closed") eq_refl)
    as (_ & Ht & _).
  rewrite Ht. reflexivity.
Defined.

Lemma set_then_disable_filter_witness :
  dict_get "karaoke"
    (filters (snd (fbind (set_filter 4 (fun _ => None) [("vibrato", 7)])
                     (fun _ => disable_filter 4 (fun _ => None) "vibrato")
                     filters_example)))
    = Some 2.
Proof.
  destruct (@set_then_disable_filter Z 4 (fun _ => None) "vibrato" 7
              filters_example (fun _ => eq_refl)) as (_ & Hk).
  rewrite Hk. reflexivity.
Defined.
